(** * khekrn/core: REST client, JSON helpers and logger

  A shallow embedding of the Go packages [client], [helpers] and
  [logger], and the properties their specification states about them. *)

From Stdlib Require Import ZArith Lia List Bool Ascii String.
From Stdlib Require Import Floats.SpecFloat.
From stdpp Require Import gmap strings list fin_maps sorting pretty.

Local Open Scope Z_scope.
Set Warnings "-register-all".

(** ** Go's [float64] and [int64]

  [float64] is IEEE 754 binary64; the standard library's [spec_float]
  with [prec = 53] and [emax = 1024] is that format.  [int] and
  [time.Duration] are 64-bit two's complement integers. *)

Module Float64.

Definition prec : Z := 53.
Definition emax : Z := 1024.

Definition float64 : Type := spec_float.

Definition mul (x y : float64) : float64 := SFmul prec emax x y.

(** The conversion [float64(i)] of an integer: round to nearest, ties to
    even. *)
Definition of_int (i : Z) : float64 := binary_normalize prec emax i 0 false.

Definition is_finite (x : float64) : bool :=
  match x with
  | S754_zero _ | S754_finite _ _ _ => true
  | S754_infinity _ | S754_nan => false
  end.

(** The integer part of a finite float, rounding toward zero. *)
Definition trunc (x : float64) : option Z :=
  match x with
  | S754_zero _ => Some 0
  | S754_finite s m e =>
      let a := if 0 <=? e then Z.shiftl (Z.pos m) e else Z.shiftr (Z.pos m) (- e) in
      Some (if s then - a else a)
  | S754_infinity _ | S754_nan => None
  end.

Definition min_int64 : Z := - 2 ^ 63.
Definition max_int64 : Z := 2 ^ 63 - 1.

Definition in_int64 (z : Z) : bool := (min_int64 <=? z) && (z <=? max_int64).

(** Two's complement wrap-around of 64-bit integer arithmetic. *)
Definition wrap64 (z : Z) : Z := (z + 2 ^ 63) mod 2 ^ 64 - 2 ^ 63.

(** The conversion [int64(x)] of a float: the fraction is discarded.  When
    the value does not fit (or is not a number) Go leaves the result to the
    implementation; [undef] is what the platform yields then. *)
Definition to_int64 (undef : Z) (x : float64) : Z :=
  match trunc x with
  | Some z => if in_int64 z then z else undef
  | None => undef
  end.

Definition div (x y : float64) : float64 := SFdiv prec emax x y.

(** [x <= y]; false when either is not a number. *)
Definition leb (x y : float64) : bool := SFleb x y.

(** The constants [2.0] and [0.6]. *)
Definition two : float64 := of_int 2.
Definition zero_point_six : float64 := div (of_int 6) (of_int 10).

(** [x] to the power [n], by repeated multiplication. *)
Fixpoint pow (x : float64) (n : nat) : float64 :=
match n with
| O => of_int 1
| S n => mul x (pow x n)
end.

End Float64.

Import Float64.

(** ** Go values shared by the packages *)

(** [strings.TrimPrefix] and [strings.TrimSuffix]. *)
Fixpoint strip_prefix (p s : string) : option string :=
match p, s with
| EmptyString, _ => Some s
| String a p', String b s' => if Ascii.eqb a b then strip_prefix p' s' else None
| String _ _, EmptyString => None
end.

Definition HasPrefix (s p : string) : bool := bool_decide (is_Some (strip_prefix p s)).

Definition TrimPrefix (s p : string) : string := default s (strip_prefix p s).

Definition HasSuffix (s p : string) : bool := HasPrefix (String.rev s) (String.rev p).

Definition TrimSuffix (s p : string) : string :=
String.rev (TrimPrefix (String.rev s) (String.rev p)).

Definition slash : string := "/".

(** Go's [error] values, as far as the packages build and inspect them.
  A nil error is [None] of [option error]. *)
Inductive ctxError := Canceled | DeadlineExceeded.

Inductive error :=
| ErrLibrary (msg : string)      (* an error made by a library: net/http, gobreaker, encoding/json *)
| ErrContext (c : ctxError)      (* ctx.Err() *)
| ErrHTTP (status : Z)           (* fmt.Errorf("HTTP %d", status) *)
| ErrText (msg : string)         (* fmt.Errorf(msg) *)
| Errorf (msg : string) (cause : option error). (* fmt.Errorf(msg + ": %w", cause) *)

Inductive result (A : Type) :=
| Ok (a : A)
| Err (e : error).
Arguments Ok {A} a.
Arguments Err {A} e.

Definition is_Err {A} (r : result A) : bool :=
match r with Ok _ => false | Err _ => true end.

(** [time.Duration]: nanoseconds in an [int64]. *)
Definition Duration : Type := Z.
Definition Millisecond : Duration := 1000000.
Definition Second : Duration := 1000000000.

(** ** Package [client] *)

Module Client.

Inductive HTTPMethod := GET | POST | PUT | PATCH | DELETE | HEAD | OPTIONS.

Definition method_string (m : HTTPMethod) : string :=
  match m with
  | GET => "GET" | POST => "POST" | PUT => "PUT" | PATCH => "PATCH"
  | DELETE => "DELETE" | HEAD => "HEAD" | OPTIONS => "OPTIONS"
  end.

Record RetryConfig := {
  MaxAttempts : Z;
  InitialBackoff : Duration;
  MaxBackoff : Duration;
  BackoffFactor : float64;
}.

(** [gobreaker.Counts], the argument of the trip predicate. *)
Record Counts := {
  Requests : Z;
  TotalSuccesses : Z;
  TotalFailures : Z;
  ConsecutiveSuccesses : Z;
  ConsecutiveFailures : Z;
}.

Record CircuitBreakerConfig := {
  Name : string;
  MaxRequests : Z;
  Interval : Duration;
  Timeout : Duration;
  ReadyToTrip : Counts -> bool;
}.

(** [http.RoundTripper]: a caller-supplied transport, the transport [Build]
    makes, or either wrapped by the tracer. *)
Inductive RoundTripper :=
  | CustomTransport (id : positive)
  | HttpTransport (maxIdleConns maxIdleConnsPerHost : Z) (idleConnTimeout : Duration)
  | Traced (t : RoundTripper).

Record HttpClient := {
  client_Timeout : Duration;
  client_Transport : RoundTripper;
}.

(** [gobreaker.CircuitBreaker]: the instance keeps the settings it was made
    from; its counters live in the environment of a call. *)
Record CircuitBreaker := { cb_settings : CircuitBreakerConfig }.

(** Go maps are references.  The header maps live in a store, and builders
    and clients hold locations. *)
Definition loc : Type := positive.
Abbreviation headers := (gmap string string).
Abbreviation store := (gmap loc (gmap string string)).

Definition deref (σ : store) (l : loc) : headers := default ∅ (σ !! l).

Record RESTClient := {
  client : HttpClient;
  baseURL : string;
  defaultHeaders : loc;
  retry : option RetryConfig;
  circuitBreaker : option CircuitBreaker;
}.

Record ClientBuilder := {
  b_timeout : Duration;
  b_maxIdleConns : Z;
  b_maxIdleConnsPerHost : Z;
  b_idleConnTimeout : Duration;
  b_enableDatadog : bool;
  b_transport : option RoundTripper;
  b_baseURL : string;
  b_defaultHeaders : loc;
  b_retry : option RetryConfig;
  b_circuitBreaker : option CircuitBreakerConfig;
}.

(** *** The builder *)

Definition fresh_loc (σ : store) : loc := fresh (dom σ).

(** [NewClientBuilder]: the defaults, and a new empty header map. *)
Definition NewClientBuilder (σ : store) : ClientBuilder * store :=
let l := fresh_loc σ in
({| b_timeout := 30 * Second;
    b_maxIdleConns := 100;
    b_maxIdleConnsPerHost := 100;
    b_idleConnTimeout := 90 * Second;
    b_enableDatadog := false;
    b_transport := None;
    b_baseURL := EmptyString;
    b_defaultHeaders := l;
    b_retry := None;
    b_circuitBreaker := None |},
 <[l := ∅]> σ).

Definition WithTimeout (timeout : Duration) (b : ClientBuilder) : ClientBuilder :=
{| b_timeout := timeout;
   b_maxIdleConns := b_maxIdleConns b;
   b_maxIdleConnsPerHost := b_maxIdleConnsPerHost b;
   b_idleConnTimeout := b_idleConnTimeout b;
   b_enableDatadog := b_enableDatadog b;
   b_transport := b_transport b;
   b_baseURL := b_baseURL b;
   b_defaultHeaders := b_defaultHeaders b;
   b_retry := b_retry b;
   b_circuitBreaker := b_circuitBreaker b |}.

Definition WithMaxIdleConns (maxIdleConns : Z) (b : ClientBuilder) : ClientBuilder :=
{| b_timeout := b_timeout b;
   b_maxIdleConns := maxIdleConns;
   b_maxIdleConnsPerHost := b_maxIdleConnsPerHost b;
   b_idleConnTimeout := b_idleConnTimeout b;
   b_enableDatadog := b_enableDatadog b;
   b_transport := b_transport b;
   b_baseURL := b_baseURL b;
   b_defaultHeaders := b_defaultHeaders b;
   b_retry := b_retry b;
   b_circuitBreaker := b_circuitBreaker b |}.

Definition WithMaxIdleConnsPerHost (maxIdleConnsPerHost : Z) (b : ClientBuilder) : ClientBuilder :=
{| b_timeout := b_timeout b;
   b_maxIdleConns := b_maxIdleConns b;
   b_maxIdleConnsPerHost := maxIdleConnsPerHost;
   b_idleConnTimeout := b_idleConnTimeout b;
   b_enableDatadog := b_enableDatadog b;
   b_transport := b_transport b;
   b_baseURL := b_baseURL b;
   b_defaultHeaders := b_defaultHeaders b;
   b_retry := b_retry b;
   b_circuitBreaker := b_circuitBreaker b |}.

Definition WithIdleConnTimeout (idleConnTimeout : Duration) (b : ClientBuilder) : ClientBuilder :=
{| b_timeout := b_timeout b;
   b_maxIdleConns := b_maxIdleConns b;
   b_maxIdleConnsPerHost := b_maxIdleConnsPerHost b;
   b_idleConnTimeout := idleConnTimeout;
   b_enableDatadog := b_enableDatadog b;
   b_transport := b_transport b;
   b_baseURL := b_baseURL b;
   b_defaultHeaders := b_defaultHeaders b;
   b_retry := b_retry b;
   b_circuitBreaker := b_circuitBreaker b |}.

Definition WithDatadog (enable : bool) (b : ClientBuilder) : ClientBuilder :=
{| b_timeout := b_timeout b;
   b_maxIdleConns := b_maxIdleConns b;
   b_maxIdleConnsPerHost := b_maxIdleConnsPerHost b;
   b_idleConnTimeout := b_idleConnTimeout b;
   b_enableDatadog := enable;
   b_transport := b_transport b;
   b_baseURL := b_baseURL b;
   b_defaultHeaders := b_defaultHeaders b;
   b_retry := b_retry b;
   b_circuitBreaker := b_circuitBreaker b |}.

Definition WithTransport (transport : option RoundTripper) (b : ClientBuilder) : ClientBuilder :=
{| b_timeout := b_timeout b;
   b_maxIdleConns := b_maxIdleConns b;
   b_maxIdleConnsPerHost := b_maxIdleConnsPerHost b;
   b_idleConnTimeout := b_idleConnTimeout b;
   b_enableDatadog := b_enableDatadog b;
   b_transport := transport;
   b_baseURL := b_baseURL b;
   b_defaultHeaders := b_defaultHeaders b;
   b_retry := b_retry b;
   b_circuitBreaker := b_circuitBreaker b |}.

Definition set_baseURL (url : string) (b : ClientBuilder) : ClientBuilder :=
{| b_timeout := b_timeout b;
   b_maxIdleConns := b_maxIdleConns b;
   b_maxIdleConnsPerHost := b_maxIdleConnsPerHost b;
   b_idleConnTimeout := b_idleConnTimeout b;
   b_enableDatadog := b_enableDatadog b;
   b_transport := b_transport b;
   b_baseURL := url;
   b_defaultHeaders := b_defaultHeaders b;
   b_retry := b_retry b;
   b_circuitBreaker := b_circuitBreaker b |}.

Definition WithBaseURL (url : string) (b : ClientBuilder) : ClientBuilder :=
set_baseURL (TrimSuffix url slash) b.

(** [b.defaultHeaders[key] = value]: the map the builder points to is
    updated in place. *)
Definition WithDefaultHeader (key value : string) (b : ClientBuilder) (σ : store) : store :=
<[b_defaultHeaders b := <[key := value]> (deref σ (b_defaultHeaders b))]> σ.

(** [for k, v := range headers { b.defaultHeaders[k] = v }]. *)
Definition WithDefaultHeaders (hs : headers) (b : ClientBuilder) (σ : store) : store :=
<[b_defaultHeaders b :=
    map_fold (λ k v m, <[k := v]> m) (deref σ (b_defaultHeaders b)) hs]> σ.

Definition set_retry (r : option RetryConfig) (b : ClientBuilder) : ClientBuilder :=
{| b_timeout := b_timeout b;
   b_maxIdleConns := b_maxIdleConns b;
   b_maxIdleConnsPerHost := b_maxIdleConnsPerHost b;
   b_idleConnTimeout := b_idleConnTimeout b;
   b_enableDatadog := b_enableDatadog b;
   b_transport := b_transport b;
   b_baseURL := b_baseURL b;
   b_defaultHeaders := b_defaultHeaders b;
   b_retry := r;
   b_circuitBreaker := b_circuitBreaker b |}.

Definition WithRetry (config : RetryConfig) (b : ClientBuilder) : ClientBuilder :=
set_retry (Some config) b.

Definition defaultRetry : RetryConfig :=
{| MaxAttempts := 3;
   InitialBackoff := 100 * Millisecond;
   MaxBackoff := 5 * Second;
   BackoffFactor := two |}.

Definition WithDefaultRetry (b : ClientBuilder) : ClientBuilder :=
set_retry (Some defaultRetry) b.

Definition set_circuitBreaker (c : option CircuitBreakerConfig) (b : ClientBuilder) : ClientBuilder :=
{| b_timeout := b_timeout b;
   b_maxIdleConns := b_maxIdleConns b;
   b_maxIdleConnsPerHost := b_maxIdleConnsPerHost b;
   b_idleConnTimeout := b_idleConnTimeout b;
   b_enableDatadog := b_enableDatadog b;
   b_transport := b_transport b;
   b_baseURL := b_baseURL b;
   b_defaultHeaders := b_defaultHeaders b;
   b_retry := b_retry b;
   b_circuitBreaker := c |}.

Definition WithCircuitBreaker (config : CircuitBreakerConfig) (b : ClientBuilder) : ClientBuilder :=
set_circuitBreaker (Some config) b.

(** The trip predicate of the default breaker:
    [counts.Requests >= 3 && failureRatio >= 0.6]. *)
Definition defaultReadyToTrip (counts : Counts) : bool :=
let failureRatio := Float64.div (of_int (TotalFailures counts)) (of_int (Requests counts)) in
(3 <=? Requests counts) && Float64.leb Float64.zero_point_six failureRatio.

Definition WithDefaultCircuitBreaker (name : string) (b : ClientBuilder) : ClientBuilder :=
set_circuitBreaker
  (Some {| Name := name;
           MaxRequests := 3;
           Interval := 10 * Second;
           Timeout := 60 * Second;
           ReadyToTrip := defaultReadyToTrip |}) b.

(** [Build]: the client takes the builder's base URL, retry policy and
    header map (the same map, not a copy) and makes its breaker from the
    builder's breaker settings. *)
Definition Build (b : ClientBuilder) : RESTClient :=
let transport :=
  match b_transport b with
  | Some t => t
  | None => HttpTransport (b_maxIdleConns b) (b_maxIdleConnsPerHost b) (b_idleConnTimeout b)
  end in
let c := {| client_Timeout := b_timeout b; client_Transport := transport |} in
let c := if b_enableDatadog b
         then {| client_Timeout := client_Timeout c; client_Transport := Traced (client_Transport c) |}
         else c in
{| client := c;
   baseURL := b_baseURL b;
   defaultHeaders := b_defaultHeaders b;
   retry := b_retry b;
   circuitBreaker :=
     match b_circuitBreaker b with
     | Some cfg =>
         Some {| cb_settings :=
                   {| Name := Name cfg;
                      MaxRequests := MaxRequests cfg;
                      Interval := Interval cfg;
                      Timeout := Timeout cfg;
                      ReadyToTrip := ReadyToTrip cfg |} |}
     | None => None
     end |}.

Definition GetInstance (rc : RESTClient) : HttpClient := client rc.

(** One call on a builder. *)
Inductive BuilderCall :=
| CallWithTimeout (timeout : Duration)
| CallWithMaxIdleConns (n : Z)
| CallWithMaxIdleConnsPerHost (n : Z)
| CallWithIdleConnTimeout (d : Duration)
| CallWithDatadog (enable : bool)
| CallWithTransport (t : option RoundTripper)
| CallWithBaseURL (url : string)
| CallWithDefaultHeader (key value : string)
| CallWithDefaultHeaders (hs : headers)
| CallWithRetry (config : RetryConfig)
| CallWithDefaultRetry
| CallWithCircuitBreaker (config : CircuitBreakerConfig)
| CallWithDefaultCircuitBreaker (name : string).

Definition call (c : BuilderCall) (bσ : ClientBuilder * store) : ClientBuilder * store :=
let '(b, σ) := bσ in
match c with
| CallWithTimeout t => (WithTimeout t b, σ)
| CallWithMaxIdleConns n => (WithMaxIdleConns n b, σ)
| CallWithMaxIdleConnsPerHost n => (WithMaxIdleConnsPerHost n b, σ)
| CallWithIdleConnTimeout d => (WithIdleConnTimeout d b, σ)
| CallWithDatadog e => (WithDatadog e b, σ)
| CallWithTransport t => (WithTransport t b, σ)
| CallWithBaseURL u => (WithBaseURL u b, σ)
| CallWithDefaultHeader k v => (b, WithDefaultHeader k v b σ)
| CallWithDefaultHeaders hs => (b, WithDefaultHeaders hs b σ)
| CallWithRetry r => (WithRetry r b, σ)
| CallWithDefaultRetry => (WithDefaultRetry b, σ)
| CallWithCircuitBreaker c => (WithCircuitBreaker c b, σ)
| CallWithDefaultCircuitBreaker n => (WithDefaultCircuitBreaker n b, σ)
end.

(** A chain of calls, first call first. *)
Definition calls (cs : list BuilderCall) (bσ : ClientBuilder * store) : ClientBuilder * store :=
foldl (λ acc c, call c acc) bσ cs.

(** Modelled from the spec: [FromSharedClient], which the tests and the
    README call and the sources at hand do not define.  Given a finalized
    client and a new base URL (or the empty string, to reuse the parent's), it
    gives a new builder pre-populated with the parent's default headers,
    timeout, retry policy and circuit-breaker policy.  The headers go into a
    map of the builder's own.  The callers also pass a service name, of which
    the spec says nothing; the model takes it and leaves it unused. *)
Definition FromSharedClient (parent : RESTClient) (name : string) (url : string) (σ : store)
  : ClientBuilder * store :=
let '(b, σ) := NewClientBuilder σ in
let σ := <[b_defaultHeaders b := deref σ (defaultHeaders parent)]> σ in
let b := WithTimeout (client_Timeout (client parent)) b in
let b := set_retry (retry parent) b in
let b := set_circuitBreaker (cb_settings <$> circuitBreaker parent) b in
let b := if String.eqb url EmptyString
         then set_baseURL (baseURL parent) b
         else WithBaseURL url b in
(b, σ).

(** *** Headers of a request

    [http.Header] maps canonical keys to lists of values.  The key rule is
    net/textproto's: a key made of token bytes only gets an upper-case letter
    first and after each hyphen and lower-case letters elsewhere; any other
    key is left as it is. *)

Definition is_upper (c : ascii) : bool :=
let n := nat_of_ascii c in (65 <=? n)%nat && (n <=? 90)%nat.

Definition is_lower (c : ascii) : bool :=
let n := nat_of_ascii c in (97 <=? n)%nat && (n <=? 122)%nat.

Definition is_digit (c : ascii) : bool :=
let n := nat_of_ascii c in (48 <=? n)%nat && (n <=? 57)%nat.

Definition to_upper (c : ascii) : ascii :=
if is_lower c then ascii_of_nat (nat_of_ascii c - 32) else c.

Definition to_lower (c : ascii) : ascii :=
if is_upper c then ascii_of_nat (nat_of_ascii c + 32) else c.

Definition validHeaderFieldByte (c : ascii) : bool :=
is_upper c || is_lower c || is_digit c ||
bool_decide (nat_of_ascii c ∈ [33; 35; 36; 37; 38; 39; 42; 43; 45; 46; 94; 95; 96; 124; 126]%nat).

Fixpoint canonical_case (upper : bool) (s : string) : string :=
match s with
| EmptyString => EmptyString
| String c s' =>
    let c' := if upper then to_upper c else to_lower c in
    String c' (canonical_case (Ascii.eqb c' "-") s')
end.

Definition CanonicalMIMEHeaderKey (s : string) : string :=
if forallb validHeaderFieldByte (list_ascii_of_string s) then canonical_case true s else s.

Abbreviation Header := (gmap string (list string)).

Definition Header_Set (key value : string) (h : Header) : Header :=
<[CanonicalMIMEHeaderKey key := [value]]> h.

Definition Header_Get (h : Header) (key : string) : string :=
match h !! CanonicalMIMEHeaderKey key with
| Some (v :: _) => v
| _ => EmptyString
end.

Definition ContentType : string := "Content-Type".
Definition applicationJSON : string := "application/json".

(** *** Requests and responses *)

(** [buildURL]. *)
Definition buildURL (rc : RESTClient) (path : string) : string :=
if String.eqb (baseURL rc) EmptyString then path
else baseURL rc +:+ slash +:+ TrimPrefix path slash.

(** [shouldRetry]. *)
Definition shouldRetry (statusCode : Z) : bool :=
(500 <=? statusCode) || (statusCode =? 429) || (statusCode =? 408).

(** [getMaxAttempts]. *)
Definition getMaxAttempts (rc : RESTClient) : Z :=
match retry rc with
| None => 1
| Some r => MaxAttempts r
end.

(** The parts of a call that the package takes from its libraries and from
    the platform. *)
Class Library := {
  (** Request contexts, and [context.Background()]. *)
  Context : Type;
  Background : Context;
  (** Streams ([io.Reader]), and the Go values that are neither a string, a
      byte slice nor a stream, with [json.Marshal] on them. *)
  Reader : Type;
  Value : Type;
  json_Marshal : Value -> result string;
  (** The error [http.NewRequestWithContext] reports for a method and a URL,
      if any. *)
  newRequest_error : string -> string -> option error;
  (** The order in which [range] visits a map (Go leaves it open). *)
  range : headers -> list (string * string);
  (** [req.URL.Query()] of a URL and [url.Values.Encode]. *)
  url_Query : string -> Header;
  Values_Encode : Header -> string;
  (** What the platform yields for [time.Duration(x)] when [x] does not fit. *)
  undef : Z;
}.

Section Pipeline.

Context `{lib : Library}.

(** [calculateBackoff]. *)
Definition calculateBackoff (rc : RESTClient) (attempt : Z) : Duration :=
match retry rc with
| None => 0
| Some r =>
    let delay :=
      to_int64 undef
        (mul (of_int (InitialBackoff r))
             (mul (BackoffFactor r) (of_int (wrap64 (attempt - 1))))) in
    if MaxBackoff r <? delay then MaxBackoff r else delay
end.

(** The delay the specification words ask for before attempt [n], counted
    from one: [min(maxBackoff, initialBackoff * backoffFactor^(n-1))]. *)
Definition backoff_contract (r : RetryConfig) (n : nat) : Duration :=
Z.min (MaxBackoff r)
      (to_int64 undef (mul (of_int (InitialBackoff r)) (pow (BackoffFactor r) (n - 1)))).

(** What a caller may pass as [Body interface{}], by dynamic type. *)
Inductive Payload :=
| BodyString (v : string)
| BodyBytes (v : string)
| BodyReader (v : Reader)
| BodyValue (v : Value).

Record RequestConfig := {
  cfg_Method : HTTPMethod;
  cfg_URL : string;
  cfg_Body : option Payload;
  cfg_Headers : headers;
  cfg_QueryParams : headers;
  cfg_Timeout : Duration;
  cfg_Context : option Context;
}.

(** The reader handed to the transport. *)
Inductive RequestBody :=
| StringsReader (v : string)     (* strings.NewReader(v) *)
| BytesReader (v : string)       (* bytes.NewReader(v) *)
| SameReader (v : Reader).

Record HttpRequest := {
  req_Context : Context;
  req_Method : string;
  req_URL : string;
  req_RawQuery : option string;
  req_Body : option RequestBody;
  req_Header : Header;
}.

(** [for k, v := range m { h.Set(k, v) }]. *)
Definition set_all (m : headers) (h : Header) : Header :=
foldl (λ h kv, Header_Set kv.1 kv.2 h) h (range m).

(** [for k, v := range params { q.Set(k, v) }] on [url.Values], whose keys
    are taken as they are. *)
Definition values_set_all (m : headers) (q : Header) : Header :=
foldl (λ q kv, <[kv.1 := [kv.2]]> q) q (range m).

(** The first [switch] of [createRequest]. *)
Definition request_body (body : option Payload) : result (option RequestBody) :=
match body with
| None => Ok None
| Some (BodyString v) => Ok (Some (StringsReader v))
| Some (BodyBytes v) => Ok (Some (BytesReader v))
| Some (BodyReader v) => Ok (Some (SameReader v))
| Some (BodyValue v) =>
    match json_Marshal v with
    | Err e => Err (Errorf "failed to marshal body" (Some e))
    | Ok jsonData => Ok (Some (BytesReader jsonData))
    end
end.

(** The headers after the default and the per-call headers were set. *)
Definition merged_headers (σ : store) (rc : RESTClient) (config : RequestConfig) : Header :=
set_all (cfg_Headers config) (set_all (deref σ (defaultHeaders rc)) ∅).

(** The second [switch]: the JSON content type for a body that was
    marshalled, when [Get] finds no content type. *)
Definition auto_content_type (body : option Payload) (h : Header) : Header :=
match body with
| Some b =>
    if String.eqb (Header_Get h ContentType) EmptyString then
      match b with
      | BodyString _ | BodyBytes _ | BodyReader _ => h
      | BodyValue _ => Header_Set ContentType applicationJSON h
      end
    else h
| None => h
end.

(** [createRequest]. *)
Definition createRequest (σ : store) (rc : RESTClient) (config : RequestConfig)
  : result HttpRequest :=
let url := buildURL rc (cfg_URL config) in
match request_body (cfg_Body config) with
| Err e => Err e
| Ok body =>
    let ctx := default Background (cfg_Context config) in
    match newRequest_error (method_string (cfg_Method config)) url with
    | Some e => Err (Errorf "failed to create request" (Some e))
    | None =>
        let h := merged_headers σ rc config in
        let q :=
          if (0 <? size (cfg_QueryParams config))%nat
          then Some (Values_Encode (values_set_all (cfg_QueryParams config) (url_Query url)))
          else None in
        Ok {| req_Context := ctx;
              req_Method := method_string (cfg_Method config);
              req_URL := url;
              req_RawQuery := q;
              req_Body := body;
              req_Header := auto_content_type (cfg_Body config) h |}
    end
end.

(** *** Executing a request

    The environment of one call: what the transport answers to the [n]-th
    dispatch, whether the breaker turns the [n]-th dispatch away (it then
    does not call the transport), and whether the [select] of the wait that
    precedes loop index [n] takes the branch of the context, with the error
    of the context (when the timer and the context are both ready, the
    runtime takes either branch). *)

Record HttpResponse := {
  resp_StatusCode : Z;
  resp_Header : Header;
  resp_ReadAll : result string;     (* io.ReadAll(resp.Body) *)
}.

Record Response := {
  Response_http : HttpResponse;
  Body : string;
  StatusCode : Z;
  Headers : Header;
}.

Class World := {
  client_Do : HttpRequest -> nat -> result HttpResponse;
  breaker_rejects : CircuitBreaker -> nat -> option error;
  ctx_Done : HttpRequest -> nat -> Duration -> option ctxError;
}.

Context `{world : World}.

(** What a call did: dispatches ([executeRequest] calls), round trips of the
    transport ([client.Do] calls) and the backoff delays it sat through. *)
Record Log := {
  dispatched : nat;
  round_trips : nat;
  waited : list Duration;
}.

Definition no_Log : Log := {| dispatched := 0; round_trips := 0; waited := [] |}.

(** [executeRequest]. *)
Definition executeRequest (rc : RESTClient) (req : HttpRequest) (lg : Log)
  : result Response * Log :=
let n := dispatched lg in
let tripped := {| dispatched := S n; round_trips := S (round_trips lg); waited := waited lg |} in
let turned_away := {| dispatched := S n; round_trips := round_trips lg; waited := waited lg |} in
let through (resp : HttpResponse) :=
  match resp_ReadAll resp with
  | Err e => Err (Errorf "failed to read response body" (Some e))
  | Ok bodyBytes =>
      Ok {| Response_http := resp;
            Body := bodyBytes;
            StatusCode := resp_StatusCode resp;
            Headers := resp_Header resp |}
  end in
match circuitBreaker rc with
| Some cb =>
    match breaker_rejects cb n with
    | Some cbErr => (Err (Errorf "circuit breaker" (Some cbErr)), turned_away)
    | None =>
        match client_Do req n with
        | Err cbErr => (Err (Errorf "circuit breaker" (Some cbErr)), tripped)
        | Ok resp => (through resp, tripped)
        end
    end
| None =>
    match client_Do req n with
    | Err err => (Err err, tripped)
    | Ok resp => (through resp, tripped)
    end
end.

(** The [select] of the retry loop: the timer of [delay], or the context. *)
Definition backoff_wait (req : HttpRequest) (attempt : nat) (delay : Duration) (lg : Log)
  : option ctxError * Log :=
match ctx_Done req attempt delay with
| Some c => (Some c, lg)
| None => (None, {| dispatched := dispatched lg;
                    round_trips := round_trips lg;
                    waited := waited lg ++ [delay] |})
end.

(** The loop of [executeWithRetry], [todo] iterations from index [attempt]. *)
Fixpoint retry_loop (rc : RESTClient) (req : HttpRequest) (todo attempt : nat)
  (lastErr : option error) (lg : Log) : result Response * Log :=
match todo with
| O => (Err (Errorf "max retries exceeded" lastErr), lg)
| S todo' =>
    let '(cancelled, lg) :=
      if (0 <? attempt)%nat
      then backoff_wait req attempt (calculateBackoff rc (Z.of_nat attempt)) lg
      else (None, lg) in
    match cancelled with
    | Some c => (Err (ErrContext c), lg)
    | None =>
        let '(r, lg) := executeRequest rc req lg in
        match r with
        | Ok resp =>
            if negb (shouldRetry (StatusCode resp)) then (Ok resp, lg)
            else retry_loop rc req todo' (S attempt) (Some (ErrHTTP (StatusCode resp))) lg
        | Err err => retry_loop rc req todo' (S attempt) (Some err) lg
        end
    end
end.

(** [executeWithRetry]: [attempt] runs from 0 while below [getMaxAttempts]. *)
Definition executeWithRetry (rc : RESTClient) (req : HttpRequest) (lg : Log)
  : result Response * Log :=
retry_loop rc req (Z.to_nat (getMaxAttempts rc)) 0 None lg.

(** [Request]. *)
Definition Request (σ : store) (rc : RESTClient) (config : RequestConfig) (lg : Log)
  : result Response * Log :=
match createRequest σ rc config with
| Err e => (Err e, lg)
| Ok req =>
    match retry rc with
    | Some _ => executeWithRetry rc req lg
    | None => executeRequest rc req lg
    end
end.

(** What the [n]-th dispatch of a call comes back with. *)
Definition attempt_result (rc : RESTClient) (req : HttpRequest) (n : nat) : result Response :=
(executeRequest rc req {| dispatched := n; round_trips := 0; waited := [] |}).1.

(** A failure eligible for retry: an error, or a response whose status
    [shouldRetry] picks. *)
Definition retryable (r : result Response) : bool :=
match r with
| Err _ => true
| Ok resp => shouldRetry (StatusCode resp)
end.

(** The error the loop keeps in [lastErr] for an attempt. *)
Definition failure_error (r : result Response) : option error :=
match r with
| Err err => Some err
| Ok resp => Some (ErrHTTP (StatusCode resp))
end.

(** [IsSuccess]. *)
Definition IsSuccess (r : Response) : bool :=
(200 <=? StatusCode r) && (StatusCode r <? 300).
End Pipeline.
End Client.

(** ** Package [helpers]: JSON

    The package hands its work to encoding/json.  The model follows that
    library's documented behaviour on byte strings: the grammar it accepts,
    the Go values it decodes into [interface{}] and [map[string]interface{}],
    and the text it writes for them. *)

Module Helpers.

(** *** Bytes *)

Definition code (c : ascii) : N := N_of_ascii c.

Definition of_codes (l : list N) : string :=
string_of_list_ascii (map ascii_of_N l).

Definition is_space (c : ascii) : bool :=
bool_decide (code c ∈ [32; 9; 13; 10]%N).

Definition is_digit (c : ascii) : bool :=
((48 <=? code c) && (code c <=? 57))%N.

Fixpoint skip_space (s : string) : string :=
match s with
| String c s' => if is_space c then skip_space s' else s
| EmptyString => s
end.

Fixpoint take_digits (s : string) : string * string :=
match s with
| String c s' =>
    if is_digit c then let '(d, r) := take_digits s' in (String c d, r) else (EmptyString, s)
| EmptyString => (EmptyString, s)
end.

Definition hex_digit (c : ascii) : option N :=
let n := code c in
if ((48 <=? n) && (n <=? 57))%N then Some (n - 48)%N
else if ((97 <=? n) && (n <=? 102))%N then Some (n - 87)%N
else if ((65 <=? n) && (n <=? 70))%N then Some (n - 55)%N
else None.

(** Four hexadecimal digits. *)
Definition hex4 (s : string) : option (N * string) :=
match s with
| String a (String b (String c (String d r))) =>
    match hex_digit a, hex_digit b, hex_digit c, hex_digit d with
    | Some a, Some b, Some c, Some d => Some (a * 4096 + b * 256 + c * 16 + d, r)%N
    | _, _, _, _ => None
    end
| _ => None
end.

(** [\uXXXX] at the head of [s]. *)
Definition getu4 (s : string) : option (N * string) :=
match s with
| String a (String b r) => if ((code a =? 92) && (code b =? 117))%N then hex4 r else None
| _ => None
end.

(** [utf8.EncodeRune]; surrogates and values past U+10FFFF become U+FFFD. *)
Definition encode_rune (r : N) : string :=
(if r <? 128 then of_codes [r]
 else if r <? 2048 then of_codes [192 + r / 64; 128 + r mod 64]
 else if ((55296 <=? r) && (r <=? 57343)) || (1114111 <? r) then of_codes [239; 191; 189]
 else if r <? 65536 then of_codes [224 + r / 4096; 128 + (r / 64) mod 64; 128 + r mod 64]
 else of_codes [240 + r / 262144; 128 + (r / 4096) mod 64; 128 + (r / 64) mod 64; 128 + r mod 64])%N.

Definition replacement : string := encode_rune 65533.

Definition between (lo hi : N) (c : ascii) : bool := ((lo <=? code c) && (code c <=? hi))%N.

(** The length of the well-formed UTF-8 sequence at the head of [s], if
    there is one ([utf8.DecodeRune]). *)
Definition utf8_length (s : string) : option nat :=
match s with
| String a r =>
    if (code a <? 128)%N then Some 1%nat
    else match r with
    | String b r =>
        if between 194 223 a && between 128 191 b then Some 2%nat
        else match r with
        | String c r =>
            if (between 224 224 a && between 160 191 b
                || between 225 236 a && between 128 191 b
                || between 237 237 a && between 128 159 b
                || between 238 239 a && between 128 191 b) && between 128 191 c
            then Some 3%nat
            else match r with
            | String d _ =>
                if (between 240 240 a && between 144 191 b
                    || between 241 243 a && between 128 191 b
                    || between 244 244 a && between 128 143 b)
                   && between 128 191 c && between 128 191 d
                then Some 4%nat else None
            | EmptyString => None
            end
        | EmptyString => None
        end
    | EmptyString => None
    end
| EmptyString => None
end.

Fixpoint take (n : nat) (s : string) : string :=
match n, s with
| S n, String c s' => String c (take n s')
| _, _ => EmptyString
end.

Fixpoint drop (n : nat) (s : string) : string :=
match n, s with
| S n, String _ s' => drop n s'
| _, _ => s
end.

(** *** The grammar *)

Inductive json :=
| JNull
| JBool (b : bool)
| JNumber (literal : string)
| JString (s : string)
| JArray (elements : list json)
| JObject (members : list (string * json)).

(** The escapes of one character after a backslash. *)
Definition simple_escape (c : ascii) : option N :=
let n := code c in
(if n =? 34 then Some 34          (* quote *)
 else if n =? 92 then Some 92     (* backslash *)
 else if n =? 47 then Some 47     (* slash *)
 else if n =? 98 then Some 8      (* b *)
 else if n =? 102 then Some 12    (* f *)
 else if n =? 110 then Some 10    (* n *)
 else if n =? 114 then Some 13    (* r *)
 else if n =? 116 then Some 9     (* t *)
 else None)%N.

(** The rune of a [\u] escape whose four digits gave [r]; [s] follows the
    digits.  A high surrogate takes a low surrogate escape with it; a lone
    surrogate becomes U+FFFD. *)
Definition escaped_rune (r : N) (s : string) : N * string :=
(if (55296 <=? r) && (r <=? 57343) then
   match getu4 s with
   | Some (r1, s') =>
       if (r <? 56320) && (56320 <=? r1) && (r1 <=? 57343)
       then ((r - 55296) * 1024 + (r1 - 56320) + 65536, s')
       else (65533, s)
   | None => (65533, s)
   end
 else (r, s))%N.

(** What a parser makes of the head of a byte string: a value and the bytes
    after it, or a syntax error.  The parsers below recurse on a counter;
    [OutOfFuel] is the answer of a counter that was set too low. *)
Inductive parsed (A : Type) :=
| Parsed (a : A) (rest : string)
| SyntaxError
| OutOfFuel.
Arguments Parsed {A} a rest.
Arguments SyntaxError {A}.
Arguments OutOfFuel {A}.

(** The text of a string literal after its opening quote, decoded, and what
    follows the closing quote. *)
Fixpoint unquote (fuel : nat) (s : string) : parsed string :=
match fuel with
| O => OutOfFuel
| S fuel =>
    match s with
    | EmptyString => SyntaxError
    | String c r =>
        if (code c =? 34)%N then Parsed EmptyString r
        else if (code c =? 92)%N then
          match r with
          | EmptyString => SyntaxError
          | String e r' =>
              if (code e =? 117)%N then
                match hex4 r' with
                | None => SyntaxError
                | Some (rr, r'') =>
                    let '(rune, rest) := escaped_rune rr r'' in
                    match unquote fuel rest with
                    | Parsed t k => Parsed (encode_rune rune +:+ t) k
                    | SyntaxError => SyntaxError
                    | OutOfFuel => OutOfFuel
                    end
                end
              else
                match simple_escape e with
                | None => SyntaxError
                | Some b =>
                    match unquote fuel r' with
                    | Parsed t k => Parsed (String (ascii_of_N b) t) k
                    | SyntaxError => SyntaxError
                    | OutOfFuel => OutOfFuel
                    end
                end
          end
        else if (code c <? 32)%N then SyntaxError
        else
          match utf8_length s with
          | Some n =>
              match unquote fuel (drop n s) with
              | Parsed t k => Parsed (take n s +:+ t) k
              | SyntaxError => SyntaxError
              | OutOfFuel => OutOfFuel
              end
          | None =>
              match unquote fuel r with
              | Parsed t k => Parsed (replacement +:+ t) k
              | SyntaxError => SyntaxError
              | OutOfFuel => OutOfFuel
              end
          end
    end
end.

(** The parts of a number literal at the head of [s]: an optional minus
    sign, an optional fraction, an optional exponent.  [None] is a part that
    starts and does not end well. *)
Definition scan_sign (s : string) : string * string :=
match s with
| String c r => if (code c =? 45)%N then (String c EmptyString, r) else (EmptyString, s)
| EmptyString => (EmptyString, s)
end.

Definition scan_fraction (s : string) : option (string * string) :=
match s with
| String c r =>
    if (code c =? 46)%N then
      match take_digits r with
      | (EmptyString, _) => None
      | (fd, r') => Some (String c fd, r')
      end
    else Some (EmptyString, s)
| EmptyString => Some (EmptyString, s)
end.

Definition scan_exponent_sign (s : string) : string * string :=
match s with
| String g r =>
    if (code g =? 43)%N || (code g =? 45)%N then (String g EmptyString, r) else (EmptyString, s)
| EmptyString => (EmptyString, s)
end.

Definition scan_exponent (s : string) : option (string * string) :=
match s with
| String c r =>
    if (code c =? 101)%N || (code c =? 69)%N then
      let '(esign, r1) := scan_exponent_sign r in
      match take_digits r1 with
      | (EmptyString, _) => None
      | (ed, r2) => Some (String c esign +:+ ed, r2)
      end
    else Some (EmptyString, s)
| EmptyString => Some (EmptyString, s)
end.

(** A number literal at the head of [s].  A zero that leads other digits
    ends the literal. *)
Definition scan_number (s : string) : option (string * string) :=
let '(sign, s1) := scan_sign s in
match take_digits s1 with
| (EmptyString, _) => None
| (String d ds as int, s2) =>
    if (code d =? 48)%N && negb (String.eqb ds EmptyString) then
      Some (sign +:+ String d EmptyString, ds +:+ s2)
    else
      match scan_fraction s2 with
      | None => None
      | Some (frac, s3) =>
          match scan_exponent s3 with
          | None => None
          | Some (exp, s4) => Some (sign +:+ int +:+ frac +:+ exp, s4)
          end
      end
end.

(** The scanner gives up past this many nested arrays and objects. *)
Definition maxNestingDepth : N := 10000.

Definition literal (word : string) (v : json) (s : string) : parsed json :=
match strip_prefix word s with
| Some r => Parsed v r
| None => SyntaxError
end.

(** One value at the head of [s], after white space; the members of an
    object after its brace or a comma; the elements of an array after its
    bracket or a comma. *)
Fixpoint parse_value (fuel : nat) (depth : N) (s : string) : parsed json :=
match fuel with
| O => OutOfFuel
| S fuel =>
    match skip_space s with
    | EmptyString => SyntaxError
    | String c r as s0 =>
        let n := code c in
        if (n =? 123)%N then
          if (maxNestingDepth <=? depth)%N then SyntaxError
          else
            match skip_space r with
            | String c' r' =>
                if (code c' =? 125)%N then Parsed (JObject []) r'
                else
                  match parse_members fuel (depth + 1) (String c' r') with
                  | Parsed ms k => Parsed (JObject ms) k
                  | SyntaxError => SyntaxError
                  | OutOfFuel => OutOfFuel
                  end
            | EmptyString => SyntaxError
            end
        else if (n =? 91)%N then
          if (maxNestingDepth <=? depth)%N then SyntaxError
          else
            match skip_space r with
            | String c' r' =>
                if (code c' =? 93)%N then Parsed (JArray []) r'
                else
                  match parse_elements fuel (depth + 1) (String c' r') with
                  | Parsed es k => Parsed (JArray es) k
                  | SyntaxError => SyntaxError
                  | OutOfFuel => OutOfFuel
                  end
            | EmptyString => SyntaxError
            end
        else if (n =? 34)%N then
          match unquote (S (String.length r)) r with
          | Parsed t k => Parsed (JString t) k
          | SyntaxError => SyntaxError
          | OutOfFuel => OutOfFuel
          end
        else if (n =? 116)%N then literal "true" (JBool true) s0
        else if (n =? 102)%N then literal "false" (JBool false) s0
        else if (n =? 110)%N then literal "null" JNull s0
        else
          match scan_number s0 with
          | Some (lit, k) => Parsed (JNumber lit) k
          | None => SyntaxError
          end
    end
end
with parse_members (fuel : nat) (depth : N) (s : string) : parsed (list (string * json)) :=
match fuel with
| O => OutOfFuel
| S fuel =>
    match skip_space s with
    | String q r =>
        if (code q =? 34)%N then
          match unquote (S (String.length r)) r with
          | Parsed key k =>
              match skip_space k with
              | String colon k' =>
                  if (code colon =? 58)%N then
                    match parse_value fuel depth k' with
                    | Parsed v k'' =>
                        match skip_space k'' with
                        | String d rest =>
                            if (code d =? 125)%N then Parsed [(key, v)] rest
                            else if (code d =? 44)%N then
                              match parse_members fuel depth rest with
                              | Parsed ms rest' => Parsed ((key, v) :: ms) rest'
                              | SyntaxError => SyntaxError
                              | OutOfFuel => OutOfFuel
                              end
                            else SyntaxError
                        | EmptyString => SyntaxError
                        end
                    | SyntaxError => SyntaxError
                    | OutOfFuel => OutOfFuel
                    end
                  else SyntaxError
              | EmptyString => SyntaxError
              end
          | SyntaxError => SyntaxError
          | OutOfFuel => OutOfFuel
          end
        else SyntaxError
    | EmptyString => SyntaxError
    end
end
with parse_elements (fuel : nat) (depth : N) (s : string) : parsed (list json) :=
match fuel with
| O => OutOfFuel
| S fuel =>
    match parse_value fuel depth s with
    | Parsed v k =>
        match skip_space k with
        | String d rest =>
            if (code d =? 93)%N then Parsed [v] rest
            else if (code d =? 44)%N then
              match parse_elements fuel depth rest with
              | Parsed es rest' => Parsed (v :: es) rest'
              | SyntaxError => SyntaxError
              | OutOfFuel => OutOfFuel
              end
            else SyntaxError
        | EmptyString => SyntaxError
        end
    | SyntaxError => SyntaxError
    | OutOfFuel => OutOfFuel
    end
end.

(** A parser's answer that is no want of fuel, and one that leaves less
    than it was given. *)
Definition in_fuel {A} (p : parsed A) : Prop := p ≠ OutOfFuel.

Definition shorter {A} (p : parsed A) (s : string) : Prop :=
∀ a r, p = Parsed a r → (String.length r < String.length s)%nat.

(** The counter that [json_parse] starts with. *)
Definition parse_fuel (data : string) : nat := 2 * String.length data + 2.

(** The value a byte string spells, when it is one JSON text. *)
Definition json_parse (data : string) : option json :=
match parse_value (parse_fuel data) 0 data with
| Parsed v rest =>
    match skip_space rest with
    | EmptyString => Some v
    | String _ _ => None
    end
| SyntaxError | OutOfFuel => None
end.

(** [json.Valid]. *)
Definition json_Valid (data : string) : bool :=
bool_decide (is_Some (json_parse data)).

(** *** Numbers

    [strconv.ParseFloat(literal, 64)] on a literal of the grammar: the
    float64 nearest to the decimal value, ties to even; [None] when that is
    an infinity (the library's range error). *)

Fixpoint digits_value (s : string) (acc : Z) : Z :=
match s with
| String c s' => digits_value s' (10 * acc + Z.of_N (code c - 48))
| EmptyString => acc
end.

(** Sign, digits and decimal exponent of a literal: its value is
    [± digits * 10 ^ exponent]. *)
Definition decimal_of_literal (lit : string) : bool * string * Z :=
let '(neg, s1) :=
  match lit with
  | String c r => if (code c =? 45)%N then (true, r) else (false, lit)
  | EmptyString => (false, lit)
  end in
let '(int, s2) := take_digits s1 in
let '(frac, s3) :=
  match s2 with
  | String c r => if (code c =? 46)%N then take_digits r else (EmptyString, s2)
  | EmptyString => (EmptyString, s2)
  end in
let exp :=
  match s3 with
  | String _ (String g r) =>
      if (code g =? 45)%N then - digits_value r 0
      else if (code g =? 43)%N then digits_value r 0
      else digits_value (String g r) 0
  | _ => 0
  end in
(neg, int +:+ frac, exp - Z.of_nat (String.length frac)).

Definition ParseFloat (lit : string) : option float64 :=
let '(neg, ds, e) := decimal_of_literal lit in
let m := digits_value ds 0 in
if m =? 0 then Some (S754_zero neg)
else if 400 <? e then None
else if Z.of_nat (String.length ds) + e <? -400 then Some (S754_zero neg)
else
  let x :=
    if 0 <=? e then binary_normalize prec emax ((if neg then -1 else 1) * (m * 10 ^ e)) 0 false
    else
      let '(q, e', l) := SFdiv_core_binary prec emax m 0 (10 ^ (- e)) 0 in
      binary_round_aux prec emax neg q e' l in
  match x with
  | S754_infinity _ | S754_nan => None
  | _ => Some x
  end.

(** *** Go values

    What the decoder stores in an [interface{}]: nil, bool, float64, string,
    [[]interface{}] and [map[string]interface{}]. *)
Inductive value :=
| VNil
| VBool (b : bool)
| VFloat (f : float64)
| VString (s : string)
| VSlice (l : list value)
| VMap (m : gmap string value).

(** The members of an object go into a map one after the other: of members
    with one key, the last one stays. *)
Fixpoint decode_members (decode : json → option value) (ms : list (string * json))
  (acc : gmap string value) : option (gmap string value) :=
match ms with
| [] => Some acc
| (k, j) :: ms' =>
    match decode j with
    | Some v => decode_members decode ms' (<[k := v]> acc)
    | None => None
    end
end.

(** The Go value of a JSON value; [None] when a number is out of range. *)
Fixpoint to_value (j : json) : option value :=
match j with
| JNull => Some VNil
| JBool b => Some (VBool b)
| JNumber lit => VFloat <$> ParseFloat lit
| JString s => Some (VString s)
| JArray es => VSlice <$> mapM to_value es
| JObject ms => VMap <$> decode_members to_value ms ∅
end.

(** Sizes, for induction on nested values. *)
Fixpoint json_size (j : json) : nat :=
match j with
| JArray es => S (foldr (λ x n, json_size x + n)%nat 0%nat es)
| JObject ms => S (foldr (λ kv n, (let '(_, x) := kv in json_size x) + n)%nat 0%nat ms)
| _ => 1%nat
end.

Fixpoint value_size (v : value) : nat :=
match v with
| VSlice l => S (foldr (λ x n, value_size x + n)%nat 0%nat l)
| VMap m => S (map_fold (λ _ x n, value_size x + n)%nat 0%nat m)
| _ => 1%nat
end.

(** A value all of whose floats are finite; the encoder refuses the others. *)
Fixpoint encodable (v : value) : bool :=
match v with
| VFloat f => is_finite f
| VSlice l => forallb encodable l
| VMap m => map_fold (λ _ x b, encodable x && b) true m
| _ => true
end.

(** [json.Unmarshal(data, &obj)] for [var obj map[string]interface{}]: a
    syntax error for bytes outside the grammar; [null] leaves the map nil and
    is no error; an object fills the map; any other value is a type error. *)
Definition json_Unmarshal_map (data : string) : result (gmap string value) :=
match json_parse data with
| None => Err (ErrLibrary "json: syntax error")
| Some JNull => Ok ∅
| Some (JObject ms) =>
    match to_value (JObject ms) with
    | Some (VMap m) => Ok m
    | _ => Err (ErrLibrary "json: cannot unmarshal number into Go value of type float64")
    end
| Some _ => Err (ErrLibrary "json: cannot unmarshal into Go value of type map[string]interface {}")
end.

(** *** Writing values *)

Definition hex_char (n : N) : ascii :=
ascii_of_N (if n <? 10 then 48 + n else 87 + n)%N.

(** A byte below 128 that a string literal shows as it is (the HTML-safe
    set of the encoder). *)
Definition html_safe (c : ascii) : bool :=
let n := code c in
(32 <=? n)%N && negb (bool_decide (n ∈ [34; 92; 60; 62; 38]%N)).

(** The inside of the string literal the encoder writes for [s]. *)
Fixpoint escape (fuel : nat) (s : string) : string :=
match fuel with
| O => EmptyString
| S fuel =>
    match s with
    | EmptyString => EmptyString
    | String c r =>
        let n := code c in
        if (n <? 128)%N then
          (if html_safe c then String c EmptyString
           else if (n =? 92)%N || (n =? 34)%N then of_codes [92%N; n]
           else if (n =? 8)%N then of_codes [92; 98]%N
           else if (n =? 12)%N then of_codes [92; 102]%N
           else if (n =? 10)%N then of_codes [92; 110]%N
           else if (n =? 13)%N then of_codes [92; 114]%N
           else if (n =? 9)%N then of_codes [92; 116]%N
           else of_codes [92; 117; 48; 48]%N +:+
                String (hex_char (n / 16)) (String (hex_char (n mod 16)) EmptyString))
          +:+ escape fuel r
        else
          match utf8_length s with
          | None => of_codes [92; 117; 102; 102; 102; 100]%N +:+ escape fuel r
          | Some k =>
              let u := take k s in
              (if String.eqb u (of_codes [226; 128; 168]%N) then of_codes [92; 117; 50; 48; 50; 56]%N
               else if String.eqb u (of_codes [226; 128; 169]%N) then of_codes [92; 117; 50; 48; 50; 57]%N
               else u) +:+ escape fuel (drop k s)
          end
    end
end.

Definition quote (s : string) : string :=
of_codes [34]%N +:+ escape (String.length s) s +:+ of_codes [34]%N.

Definition join (sep : string) (l : list string) : string :=
match l with
| [] => EmptyString
| x :: l' => foldl (λ acc y, acc +:+ sep +:+ y) x l'
end.

Definition key_le (a b : string * string) : Prop := String.leb a.1 b.1 = true.

#[global] Instance key_le_dec a b : Decision (key_le a b).
Proof. unfold key_le. apply _. Defined.

(** The value of key [k] in the latest of [objs] that has the key. *)
Definition latest (objs : list (gmap string value)) (k : string) : option value :=
foldl (λ found obj, match obj !! k with Some v => Some v | None => found end) None objs.

Section Marshal.

(** The decimal text the encoder writes for a finite float64
    ([strconv.AppendFloat] with the shortest digits that read back). *)
Variable FormatFloat : float64 -> string.

(** [json.Marshal] on a decoded value: object keys come sorted; a float that
    is not finite is refused. *)
Fixpoint encode (v : value) : option string :=
match v with
| VNil => Some "null"
| VBool true => Some "true"
| VBool false => Some "false"
| VFloat f => if is_finite f then Some (FormatFloat f) else None
| VString s => Some (quote s)
| VSlice l =>
    (λ es, "[" +:+ join "," es +:+ "]") <$> mapM encode l
| VMap m =>
    (λ kvs, "{" +:+ join "," ((λ kv : string * string, quote kv.1 +:+ ":" +:+ kv.2) <$>
                                merge_sort key_le kvs) +:+ "}")
      <$> mapM (λ kv : string * option string, (λ t, (kv.1, t)) <$> kv.2)
               (map_to_list (encode <$> m))
end.

Definition json_Marshal (v : value) : result string :=
match encode v with
| Some data => Ok data
| None => Err (ErrLibrary "json: unsupported value")
end.

(** [ValidateJSON]. *)
Definition ValidateJSON (jsonData : string) : bool := json_Valid jsonData.

(** [for k, v := range obj { result[k] = v }]. *)
Definition merge_into (merged obj : gmap string value) : gmap string value :=
map_fold (λ k v acc, <[k := v]> acc) merged obj.

(** The loop of [MergeJSON]. *)
Fixpoint merge_loop (jsonObjects : list string) (merged : gmap string value)
  : result (gmap string value) :=
match jsonObjects with
| [] => Ok merged
| jsonData :: rest =>
    if negb (ValidateJSON jsonData) then Err (ErrText "invalid JSON data")
    else
      match json_Unmarshal_map jsonData with
      | Err err => Err (Errorf "failed to unmarshal JSON object" (Some err))
      | Ok obj => merge_loop rest (merge_into merged obj)
      end
end.

(** [MergeJSON]. *)
Definition MergeJSON (jsonObjects : list string) : result string :=
if (length jsonObjects =? 0)%nat then Ok "{}"
else
  match merge_loop jsonObjects ∅ with
  | Err e => Err e
  | Ok merged => json_Marshal (VMap merged)
  end.

End Marshal.

End Helpers.

(** ** Package [logger] *)

Module Logger.

(** A [zap.Field] made by [zap.String]. *)
Record Field := { field_key : string; field_value : string }.

(** A [zap.Logger]: its core (levels and outputs) and the fields it adds to
    every record. *)
Record ZapLogger := { zap_core : positive; zap_fields : list Field }.

(** The method [With] of a logger. *)
Definition With (l : ZapLogger) (fs : list Field) : ZapLogger :=
match fs with
| [] => l
| _ => {| zap_core := zap_core l; zap_fields := zap_fields l ++ fs |}
end.

(** Context keys: the package's own [loggerKey], a plain string, or a key of
    some other type. *)
Inductive key :=
| loggerKey
| StringKey (s : string)
| OtherKey (n : positive).

#[global] Instance key_eq_dec : EqDecision key.
Proof. solve_decision. Defined.

(** What a context holds under a key, by dynamic type; a [*zap.Logger] may be
    a nil pointer. *)
Inductive any :=
| AnyNil
| AnyLogger (l : option ZapLogger)
| AnyString (s : string)
| AnyOther (n : positive).

(** A non-nil [context.Context], as far as [Value] sees it. *)
Inductive Context :=
| Background
| WithValue (parent : Context) (k : key) (v : any).

Fixpoint Value (ctx : Context) (k : key) : any :=
match ctx with
| Background => AnyNil
| WithValue parent k' v => if decide (k = k') then v else Value parent k
end.

(** [WithContext]. *)
Definition WithContext (ctx : Context) (logger : option ZapLogger) : Context :=
WithValue ctx loggerKey (AnyLogger logger).

Definition RequestID : key := StringKey "RequestID".

Section Global.

(** The process-wide [Logger], after [InitLogger] made it. *)
Variable Logger : ZapLogger.

(** [FromContext]; a nil context is [None]. *)
Definition FromContext (ctx : option Context) : option ZapLogger :=
match ctx with
| None => Some Logger
| Some ctx =>
    match Value ctx loggerKey with
    | AnyLogger logger => logger
    | _ =>
        match Value ctx RequestID with
        | AnyString requestID =>
            if negb (String.eqb requestID EmptyString)
            then Some (With Logger [{| field_key := "request_id"; field_value := requestID |}])
            else Some Logger
        | _ => Some Logger
        end
    end
end.

End Global.

End Logger.

(** ** Inputs of the examples *)

Module Examples.

Import Client.

(** The text of an integral float below [2^53] in magnitude, which is all
    the examples print. *)
Definition FormatFloat_integral (f : float64) : string :=
match trunc f with
| Some z => pretty z
| None => EmptyString
end.

(** A platform: no context but the background, values as the JSON decoder
    makes them, URLs that [http.NewRequest] accepts and that carry no query of
    their own, maps visited in the order of [map_to_list], and the
    out-of-range conversion of amd64. *)
Definition platform : Library :=
{| Context := unit;
   Background := tt;
   Reader := unit;
   Value := Helpers.value;
   json_Marshal := Helpers.json_Marshal FormatFloat_integral;
   newRequest_error := λ _ _, None;
   range := map_to_list;
   url_Query := λ _, ∅;
   Values_Encode := λ q, Helpers.join "&" ((λ kv : string * list string,
                                              kv.1 +:+ "=" +:+ Helpers.join "," kv.2) <$> map_to_list q);
   undef := min_int64 |}.

Definition answer (status : Z) (body : string) : HttpResponse :=
{| resp_StatusCode := status; resp_Header := ∅; resp_ReadAll := Ok body |}.

(** A server that answers 500 to every request; the context is never done. *)
Definition always_500 : World (lib := platform) :=
{| client_Do := λ _ _, Ok (answer 500 "Server Error");
   breaker_rejects := λ _ _, None;
   ctx_Done := λ _ _ _, None |}.

(** The same server, and a context that is done during the wait before loop
    index 2. *)
Definition cancelled_at_2 : World (lib := platform) :=
{| client_Do := λ _ _, Ok (answer 500 "Server Error");
   breaker_rejects := λ _ _, None;
   ctx_Done := λ _ n _, if (n =? 2)%nat then Some DeadlineExceeded else None |}.

(** A server that answers 200 to every request. *)
Definition always_200 : World (lib := platform) :=
{| client_Do := λ _ _, Ok (answer 200 "ok");
   breaker_rejects := λ _ _, None;
   ctx_Done := λ _ _ _, None |}.

Definition builder0 : ClientBuilder := (NewClientBuilder ∅).1.
Definition store0 : store := (NewClientBuilder ∅).2.

(** A client with the default retry policy, and one without a policy. *)
Definition retrying : RESTClient := Build (WithDefaultRetry (WithBaseURL "http://api" builder0)).
Definition plain : RESTClient := Build (WithBaseURL "http://api" builder0).

(** A retry policy like the default one, with a negative [MaxBackoff]. *)
Definition negative_max : RESTClient :=
Build (WithRetry {| MaxAttempts := 3;
                    InitialBackoff := 100 * Millisecond;
                    MaxBackoff := -1;
                    BackoffFactor := two |} builder0).

Definition get_users : RequestConfig (lib := platform) :=
@Build_RequestConfig platform GET "/users" None ∅ ∅ 0 None.

Definition get_users_request : HttpRequest (lib := platform) :=
@Build_HttpRequest platform tt "GET" "http://api/users" None None ∅.

(** JSON text written with apostrophes for its quotation marks. *)
Definition js (s : string) : string :=
string_of_list_ascii
  ((λ c, if Ascii.eqb c "'" then ascii_of_N 34 else c) <$> list_ascii_of_string s).

(** The inputs of the package's merge test. *)
Definition merge_inputs : list string :=
[js "{'a':1,'b':2}"; js "{'b':3,'c':4}"; js "{'c':5,'d':6}"].

(** A call with a structured body and a content type set to the empty
    string by the caller. *)
Definition post_with_empty_content_type : RequestConfig (lib := platform) :=
@Build_RequestConfig platform POST "/users"
  (Some (@BodyValue platform (Helpers.VMap {[ "name" := Helpers.VString "John" ]})))
  {[ "Content-Type" := EmptyString ]} ∅ 0 None.

(** The same call without headers. *)
Definition post_user : RequestConfig (lib := platform) :=
@Build_RequestConfig platform POST "/users"
  (Some (@BodyValue platform (Helpers.VMap {[ "name" := Helpers.VString "John" ]})))
  ∅ ∅ 0 None.

(** A parent client with two default headers, in the store that holds its
    header map. *)
Definition parent_store : store :=
WithDefaultHeader "Authorization" "Bearer base-token" builder0
  (WithDefaultHeader "User-Agent" "base-client/1.0" builder0 store0).

Definition parent_client : RESTClient :=
Build (WithTimeout (20 * Second) (WithDefaultRetry (WithBaseURL "http://base/" builder0))).

(** The process-wide logger of the examples and a logger of a request. *)
Definition global_logger : Logger.ZapLogger :=
{| Logger.zap_core := 1; Logger.zap_fields := [] |}.

Definition request_logger : Logger.ZapLogger :=
{| Logger.zap_core := 2;
   Logger.zap_fields := [{| Logger.field_key := "handler"; Logger.field_value := "orders" |}] |}.

(** A context with a request identifier. *)
Definition ctx_with_id : Logger.Context :=
Logger.WithValue Logger.Background Logger.RequestID (Logger.AnyString "req-123").

End Examples.

(** ** Package [client]: request options, verbs and ready-made clients *)

Module Options.

Import Client.

Section Options.

Context `{lib : Library}.

(** [RequestOption]: a function that changes the configuration of one
    request.  A verb applies its options to a configuration it has just
    made, whose maps are nil, so the maps an option fills are the call's
    own; a nil map and an empty map read alike. *)
Definition RequestOption : Type := RequestConfig → RequestConfig.

Definition set_Headers (hs : headers) (config : RequestConfig) : RequestConfig :=
{| cfg_Method := cfg_Method config;
   cfg_URL := cfg_URL config;
   cfg_Body := cfg_Body config;
   cfg_Headers := hs;
   cfg_QueryParams := cfg_QueryParams config;
   cfg_Timeout := cfg_Timeout config;
   cfg_Context := cfg_Context config |}.

Definition set_QueryParams (ps : headers) (config : RequestConfig) : RequestConfig :=
{| cfg_Method := cfg_Method config;
   cfg_URL := cfg_URL config;
   cfg_Body := cfg_Body config;
   cfg_Headers := cfg_Headers config;
   cfg_QueryParams := ps;
   cfg_Timeout := cfg_Timeout config;
   cfg_Context := cfg_Context config |}.

(** [WithHeader]: [config.Headers[key] = value]. *)
Definition WithHeader (key value : string) : RequestOption :=
λ config, set_Headers (<[key := value]> (cfg_Headers config)) config.

(** [WithHeaders]: [for k, v := range headers { config.Headers[k] = v }]. *)
Definition WithHeaders (hs : headers) : RequestOption :=
λ config, set_Headers (map_fold (λ k v m, <[k := v]> m) (cfg_Headers config) hs) config.

(** [WithQueryParam]. *)
Definition WithQueryParam (key value : string) : RequestOption :=
λ config, set_QueryParams (<[key := value]> (cfg_QueryParams config)) config.

(** [WithQueryParams]. *)
Definition WithQueryParams (params : headers) : RequestOption :=
λ config, set_QueryParams (map_fold (λ k v m, <[k := v]> m) (cfg_QueryParams config) params) config.

(** The request option [WithTimeout]: [config.Timeout = timeout]. *)
Definition WithTimeout (timeout : Duration) : RequestOption :=
λ config,
{| cfg_Method := cfg_Method config;
   cfg_URL := cfg_URL config;
   cfg_Body := cfg_Body config;
   cfg_Headers := cfg_Headers config;
   cfg_QueryParams := cfg_QueryParams config;
   cfg_Timeout := timeout;
   cfg_Context := cfg_Context config |}.

(** [WithContext]: [config.Context = ctx]; the context may be nil. *)
Definition WithContext (ctx : option Context) : RequestOption :=
λ config,
{| cfg_Method := cfg_Method config;
   cfg_URL := cfg_URL config;
   cfg_Body := cfg_Body config;
   cfg_Headers := cfg_Headers config;
   cfg_QueryParams := cfg_QueryParams config;
   cfg_Timeout := cfg_Timeout config;
   cfg_Context := ctx |}.

(** The options the package makes. *)
Inductive OptionCall :=
| OptWithHeader (key value : string)
| OptWithHeaders (hs : headers)
| OptWithQueryParam (key value : string)
| OptWithQueryParams (params : headers)
| OptWithTimeout (timeout : Duration)
| OptWithContext (ctx : option Context).

Definition option_of (c : OptionCall) : RequestOption :=
match c with
| OptWithHeader k v => WithHeader k v
| OptWithHeaders hs => WithHeaders hs
| OptWithQueryParam k v => WithQueryParam k v
| OptWithQueryParams ps => WithQueryParams ps
| OptWithTimeout t => WithTimeout t
| OptWithContext ctx => WithContext ctx
end.

(** Two configurations that differ in the field [Timeout] at most. *)
Definition same_but_timeout (c1 c2 : RequestConfig) : Prop :=
cfg_Method c1 = cfg_Method c2 ∧ cfg_URL c1 = cfg_URL c2 ∧ cfg_Body c1 = cfg_Body c2 ∧
cfg_Headers c1 = cfg_Headers c2 ∧ cfg_QueryParams c1 = cfg_QueryParams c2 ∧
cfg_Context c1 = cfg_Context c2.

(** [for _, opt := range options { opt(&config) }]. *)
Definition with_options (options : list RequestOption) (config : RequestConfig) : RequestConfig :=
foldl (λ config opt, opt config) config options.

(** [RequestConfig{Method: m, URL: url, Body: body}]: the other fields are
    zero. *)
Definition new_request (m : HTTPMethod) (url : string) (body : option Payload) : RequestConfig :=
{| cfg_Method := m;
   cfg_URL := url;
   cfg_Body := body;
   cfg_Headers := ∅;
   cfg_QueryParams := ∅;
   cfg_Timeout := 0;
   cfg_Context := None |}.

End Options.

End Options.

Module Verbs.

Import Client Options.

Section Verbs.

Context `{lib : Library} {world : World}.

(** The methods [GET], [POST], [PUT], [PATCH], [DELETE], [HEAD] and
    [OPTIONS] of a client; a nil body is [None]. *)
Definition GET (σ : store) (rc : RESTClient) (url : string) (options : list RequestOption)
  (lg : Log) : result Response * Log :=
Request σ rc (with_options options (new_request Client.GET url None)) lg.

Definition POST (σ : store) (rc : RESTClient) (url : string) (body : option Payload)
  (options : list RequestOption) (lg : Log) : result Response * Log :=
Request σ rc (with_options options (new_request Client.POST url body)) lg.

Definition PUT (σ : store) (rc : RESTClient) (url : string) (body : option Payload)
  (options : list RequestOption) (lg : Log) : result Response * Log :=
Request σ rc (with_options options (new_request Client.PUT url body)) lg.

Definition PATCH (σ : store) (rc : RESTClient) (url : string) (body : option Payload)
  (options : list RequestOption) (lg : Log) : result Response * Log :=
Request σ rc (with_options options (new_request Client.PATCH url body)) lg.

Definition DELETE (σ : store) (rc : RESTClient) (url : string) (options : list RequestOption)
  (lg : Log) : result Response * Log :=
Request σ rc (with_options options (new_request Client.DELETE url None)) lg.

Definition HEAD (σ : store) (rc : RESTClient) (url : string) (options : list RequestOption)
  (lg : Log) : result Response * Log :=
Request σ rc (with_options options (new_request Client.HEAD url None)) lg.

Definition OPTIONS (σ : store) (rc : RESTClient) (url : string) (options : list RequestOption)
  (lg : Log) : result Response * Log :=
Request σ rc (with_options options (new_request Client.OPTIONS url None)) lg.

End Verbs.

(** [NewDefaultRESTClient]. *)
Definition NewDefaultRESTClient (σ : store) : RESTClient * store :=
let '(b, σ) := NewClientBuilder σ in
(Build b, σ).

(** [NewProductionRESTClient]. *)
Definition NewProductionRESTClient (baseURL : string) (σ : store) : RESTClient * store :=
let '(b, σ) := NewClientBuilder σ in
let b := WithBaseURL baseURL b in
let b := WithDatadog true b in
let b := WithDefaultRetry b in
let b := WithDefaultCircuitBreaker "production-client" b in
let σ := WithDefaultHeader "User-Agent" "core-rest-client/1.0" b σ in
(Build b, σ).

End Verbs.

(** ** Floats that are whole numbers *)

Module Exact.

(** The float [x] is the positive integer [n], held without rounding: a
    normal number whose mantissa of 53 bits times two to its exponent is
    [n]. *)
Definition exact (x : float64) (n : Z) : Prop :=
∃ q e, x = S754_finite false q e ∧ Z.pos (digits2_pos q) = 53 ∧ -1074 ≤ e ≤ 0 ∧
       Z.pos q = n * 2 ^ (- e).

End Exact.

(** Header names, as [net/textproto] reads them. *)
Module Names.

Import Client.

(** A name in lower case ([strings.ToLower] on ASCII). *)
Fixpoint lower (s : string) : string :=
match s with
| String c s' => String (to_lower c) (lower s')
| EmptyString => EmptyString
end.

(** A name made of token bytes only; the others are not canonicalized. *)
Definition token (s : string) : bool :=
forallb validHeaderFieldByte (list_ascii_of_string s).

End Names.

(** Counts of a breaker in which [requests] requests were made and
    [failures] of them failed, one after the other at the end. *)
Module Breaker.

Import Client.

Definition counts_of (requests failures : Z) : Counts :=
{| Requests := requests;
   TotalSuccesses := requests - failures;
   TotalFailures := failures;
   ConsecutiveSuccesses := 0;
   ConsecutiveFailures := failures |}.

(** Whether the default trip predicate agrees with the exact threshold of
    three requests and three fifths of failures, for [requests] requests and
    every number of failures among them. *)
Definition threshold_row (requests : Z) : bool :=
forallb (λ failures,
           Bool.eqb (defaultReadyToTrip (counts_of requests failures))
                    ((3 <=? requests) && (3 * requests <=? 5 * failures)))
        (Z.of_nat <$> seq 0 (Z.to_nat requests + 1)).

End Breaker.

(** The delay that precedes the dispatch of loop index [i] in
    [executeWithRetry]. *)
Module Timing.

Import Client.

Definition delay_before `{lib : Library} (rc : RESTClient) (i : nat) : Duration :=
calculateBackoff rc (Z.of_nat i).

End Timing.

(** ** Package [helpers]: empty JSON *)

Module Emptiness.

Import Helpers.

(** White space as [unicode.IsSpace] has it, in UTF-8: the six ASCII
    characters, U+0085 and U+00A0 in two bytes, and U+1680, U+2000 to U+200A,
    U+2028, U+2029, U+202F, U+205F and U+3000 in three. *)
Definition ascii_space (a : ascii) : bool :=
bool_decide (code a ∈ [9; 10; 11; 12; 13; 32]%N).

Definition space2 (a b : ascii) : bool :=
((code a =? 194) && ((code b =? 133) || (code b =? 160)))%N.

Definition space3 (a b c : ascii) : bool :=
((code a =? 225) && (code b =? 154) && (code c =? 128)
 || (code a =? 226) && (code b =? 128) &&
    ((128 <=? code c) && (code c <=? 138) || (code c =? 168) || (code c =? 169) || (code c =? 175))
 || (code a =? 226) && (code b =? 129) && (code c =? 159)
 || (code a =? 227) && (code b =? 128) && (code c =? 128))%N.

(** [strings.TrimLeftFunc(s, unicode.IsSpace)]. *)
Fixpoint TrimLeftSpace (s : string) : string :=
match s with
| String a r1 =>
    if ascii_space a then TrimLeftSpace r1
    else
      match r1 with
      | String b r2 =>
          if space2 a b then TrimLeftSpace r2
          else
            match r2 with
            | String c r3 => if space3 a b c then TrimLeftSpace r3 else s
            | EmptyString => s
            end
      | EmptyString => s
      end
| EmptyString => s
end.

(** The same from the end, on the bytes in reverse order: a character is
    met last byte first. *)
Fixpoint trim_reversed (s : string) : string :=
match s with
| String c r1 =>
    if ascii_space c then trim_reversed r1
    else
      match r1 with
      | String b r2 =>
          if space2 b c then trim_reversed r2
          else
            match r2 with
            | String a r3 => if space3 a b c then trim_reversed r3 else s
            | EmptyString => s
            end
      | EmptyString => s
      end
| EmptyString => s
end.

(** [strings.TrimRightFunc(s, unicode.IsSpace)]. *)
Definition TrimRightSpace (s : string) : string :=
String.rev (trim_reversed (String.rev s)).

(** [strings.TrimSpace]. *)
Definition TrimSpace (s : string) : string := TrimRightSpace (TrimLeftSpace s).

(** [ValidateJSONString]. *)
Definition ValidateJSONString (jsonStr : string) : bool := json_Valid jsonStr.

(** [IsEmptyJSON]. *)
Definition IsEmptyJSON (jsonData : string) : bool :=
if negb (ValidateJSON jsonData) then false
else
  let trimmed := TrimSpace jsonData in
  String.eqb trimmed "{}" || String.eqb trimmed "[]" || String.eqb trimmed "null".

(** A byte string of JSON white space only: space, tab, line feed and
    carriage return. *)
Fixpoint blank (s : string) : bool :=
match s with
| String c s' => is_space c && blank s'
| EmptyString => true
end.

(** A byte string made of the bytes of white space: ASCII white space and
    bytes of characters past ASCII. *)
Fixpoint space_bytes (s : string) : bool :=
match s with
| String c s' => (ascii_space c || (128 <=? code c)%N) && space_bytes s'
| EmptyString => true
end.

(** The JSON texts that [IsEmptyJSON] compares with. *)
Definition empty_texts : list string := ["{}"; "[]"; "null"].

End Emptiness.


(** ** Package [helpers]: values of any type

    The generic functions of the package at the type [interface{}], whose
    values are those the decoder makes. *)

Module Generic.

Import Helpers.

#[global] Instance float64_eq_dec : EqDecision float64.
Proof. solve_decision. Defined.

(** [utf8.ValidString], on a counter that the length of the string tops. *)
Fixpoint valid_utf8 (fuel : nat) (s : string) : bool :=
match fuel with
| O => match s with EmptyString => true | String _ _ => false end
| S fuel =>
    match s with
    | EmptyString => true
    | String _ _ =>
        match utf8_length s with
        | Some k => valid_utf8 fuel (drop k s)
        | None => false
        end
    end
end.

Definition ValidString (s : string) : bool := valid_utf8 (String.length s) s.

(** How deep arrays and objects are nested in a value. *)
Fixpoint depth (v : value) : N :=
match v with
| VSlice l => 1 + foldr (λ x n, N.max (depth x) n) 0%N l
| VMap m => 1 + map_fold (λ _ x n, N.max (depth x) n) 0%N m
| _ => 0
end.

(** Bytes that may follow a value inside a text: none, a comma, or a
    closing bracket or brace. *)
Definition delimited (X : string) : Prop :=
match X with
| EmptyString => True
| String c _ => code c = 44%N ∨ code c = 93%N ∨ code c = 125%N
end.

(** One character of a string as the encoder writes it. *)
Definition escaped (c : ascii) : string := escape 1 (String c EmptyString).

Section Generic.

Variable FormatFloat : float64 -> string.

(** The text of a float is a number of the grammar, and reads back as the
    float. *)
Definition reads_back (f : float64) : bool :=
bool_decide (scan_number (FormatFloat f) = Some (FormatFloat f, EmptyString) ∧
             ParseFloat (FormatFloat f) = Some f).

(** A value whose strings and keys are valid UTF-8 and whose floats are
    finite and read back. *)
Fixpoint round_trips (v : value) : bool :=
match v with
| VFloat f => is_finite f && reads_back f
| VString s => ValidString s
| VSlice l => forallb round_trips l
| VMap m => map_fold (λ k x b, (ValidString k && round_trips x) && b) true m
| _ => true
end.

(** [ToJSON]. *)
Definition ToJSON (data : value) : result string := json_Marshal FormatFloat data.

(** What the round trip of a value takes of the parser: given a counter it
    does not exhaust, it reads the text the encoder wrote for a value, for
    the elements of a slice and for the entries of a map, to the end of that
    text, as JSON that decodes to the same. *)
Definition reads_value (fuel : nat) : Prop :=
∀ (v : value) (text : string) (d : N) (X : string),
  encode FormatFloat v = Some text →
  round_trips v = true →
  (d + depth v ≤ maxNestingDepth)%N →
  delimited X →
  in_fuel (parse_value fuel d (text +:+ X)) →
  ∃ j, parse_value fuel d (text +:+ X) = Parsed j X ∧ to_value j = Some v.

Definition reads_elements (fuel : nat) : Prop :=
∀ (l : list value) (es : list string) (d : N) (X : string),
  Forall2 (λ x e, encode FormatFloat x = Some e) l es →
  l ≠ [] →
  Forall (λ x, round_trips x = true ∧ (d + depth x ≤ maxNestingDepth)%N) l →
  in_fuel (parse_elements fuel d (join "," es +:+ "]" +:+ X)) →
  ∃ js, parse_elements fuel d (join "," es +:+ "]" +:+ X) = Parsed js X ∧
        Forall2 (λ j x, to_value j = Some x) js l.

Definition reads_members (fuel : nat) : Prop :=
∀ (kvs : list (string * value)) (ts : list (string * string)) (d : N) (X : string),
  Forall2 (λ kv t, t.1 = kv.1 ∧ encode FormatFloat kv.2 = Some t.2) kvs ts →
  kvs ≠ [] →
  Forall (λ kv, ValidString kv.1 = true ∧ round_trips kv.2 = true ∧
                (d + depth kv.2 ≤ maxNestingDepth)%N) kvs →
  in_fuel (parse_members fuel d
             (join "," ((λ kv : string * string, quote kv.1 +:+ ":" +:+ kv.2) <$> ts)
              +:+ "}" +:+ X)) →
  ∃ ms, parse_members fuel d
          (join "," ((λ kv : string * string, quote kv.1 +:+ ":" +:+ kv.2) <$> ts)
           +:+ "}" +:+ X) = Parsed ms X ∧
        ∀ acc, decode_members to_value ms acc =
               Some (foldl (λ a (kv : string * value), <[kv.1 := kv.2]> a) acc kvs).

End Generic.

(** [json.Unmarshal(jsonData, &result)] for [var result interface{}]. *)
Definition json_Unmarshal_any (jsonData : string) : result value :=
match json_parse jsonData with
| None => Err (ErrLibrary "json: syntax error")
| Some j =>
    match to_value j with
    | Some v => Ok v
    | None => Err (ErrLibrary "json: cannot unmarshal number into Go value of type float64")
    end
end.

(** [FromJSON]; the result stands for the value its pointer leads to. *)
Definition FromJSON (jsonData : string) : result value :=
match json_Unmarshal_any jsonData with
| Err err => Err (Errorf "failed to unmarshal JSON" (Some err))
| Ok v => Ok v
end.

End Generic.

(** ** Inputs of further examples *)

Module MoreExamples.

Import Client Options.

(** A server that answers 404 to every request, and the response a call
    makes of its answer. *)
Definition not_found : World (lib := Examples.platform) :=
{| client_Do := λ _ _, Ok (Examples.answer 404 "Not Found");
   breaker_rejects := λ _ _, None;
   ctx_Done := λ _ _ _, None |}.

Definition answer_404 : Response :=
{| Response_http := Examples.answer 404 "Not Found";
   Body := "Not Found";
   StatusCode := 404;
   Headers := ∅ |}.

(** A server that answers 503 to the first dispatch and 200 to every later
    one, and the response a call makes of the second answer. *)
Definition recovering : World (lib := Examples.platform) :=
{| client_Do := λ _ n, match n with
                       | O => Ok (Examples.answer 503 "Service Unavailable")
                       | S _ => Ok (Examples.answer 200 "ok")
                       end;
   breaker_rejects := λ _ _, None;
   ctx_Done := λ _ _ _, None |}.

Definition answer_200 : Response :=
{| Response_http := Examples.answer 200 "ok";
   Body := "ok";
   StatusCode := 200;
   Headers := ∅ |}.

(** A retry policy that allows no attempt. *)
Definition no_attempts : RESTClient :=
Build (WithRetry {| MaxAttempts := 0;
                    InitialBackoff := 100 * Millisecond;
                    MaxBackoff := 5 * Second;
                    BackoffFactor := two |} (WithBaseURL "http://api" Examples.builder0)).

(** A client with the default retry policy and the default breaker, and a
    world in which the breaker is open. *)
Definition guarded : RESTClient :=
Build (WithDefaultCircuitBreaker "api" (WithDefaultRetry (WithBaseURL "http://api" Examples.builder0))).

Definition guarded_breaker : CircuitBreaker :=
{| cb_settings := {| Name := "api";
                     MaxRequests := 3;
                     Interval := 10 * Second;
                     Timeout := 60 * Second;
                     ReadyToTrip := defaultReadyToTrip |} |}.

Definition breaker_open : World (lib := Examples.platform) :=
{| client_Do := λ _ _, Ok (Examples.answer 200 "ok");
   breaker_rejects := λ _ _, Some (ErrLibrary "circuit breaker is open");
   ctx_Done := λ _ _ _, None |}.

(** A store in which the builder of the examples has one default header,
    and a call that gives the header in another spelling. *)
Definition accept_store : store :=
WithDefaultHeader "accept" "text/plain" Examples.builder0 Examples.store0.

Definition get_json : RequestConfig (lib := Examples.platform) :=
WithHeader "Accept" "application/json" (new_request GET "/users" None).

(** A call with a query parameter. *)
Definition get_page : RequestConfig (lib := Examples.platform) :=
WithQueryParam "page" "2" (new_request GET "/users" None).

(** A value of every kind the decoder makes: a map with a string that has
    bytes the encoder escapes, a string of two bytes for one character, a
    slice, a number, a truth value and nil. *)
Definition profile : Helpers.value :=
Helpers.VMap {[ "name" := Helpers.VString "R&D <team>";
                "city" := Helpers.VString (Helpers.of_codes [90; 195; 188; 114; 105; 99; 104]%N);
                "tags" := Helpers.VSlice [Helpers.VString "a"; Helpers.VBool true; Helpers.VNil;
                                          Helpers.VSlice []; Helpers.VMap ∅];
                "age" := Helpers.VFloat (Float64.of_int 42) ]}.

(** A string of one byte that is no UTF-8. *)
Definition invalid_text : Helpers.value := Helpers.VString (Helpers.of_codes [255]%N).

(** A context with a logger, and a request identifier stored after it. *)
Definition ctx_with_logger : Logger.Context :=
Logger.WithContext Examples.ctx_with_id (Some Examples.request_logger).

End MoreExamples.


(** * Properties *)

(** ** Floats of integers *)

Module Float64Facts.

Lemma digits2_pos_le (p : positive) : ∀ k, Z.pos p < 2 ^ k → Z.pos (digits2_pos p) ≤ k.
Proof.
  induction p as [p IH | p IH |]; intros k Hk; cbn [digits2_pos].
  - assert (0 < k) by (destruct (Z.lt_trichotomy k 0) as [?|[->|?]];
      [rewrite Z.pow_neg_r in Hk by done; lia | simpl in Hk; lia | done]).
    replace k with (Z.succ (k - 1)) in Hk by lia.
    rewrite Z.pow_succ_r in Hk by lia.
    specialize (IH (k - 1)). lia.
  - assert (0 < k) by (destruct (Z.lt_trichotomy k 0) as [?|[->|?]];
      [rewrite Z.pow_neg_r in Hk by done; lia | simpl in Hk; lia | done]).
    replace k with (Z.succ (k - 1)) in Hk by lia.
    rewrite Z.pow_succ_r in Hk by lia.
    specialize (IH (k - 1)). lia.
  - destruct (Z.lt_trichotomy k 0) as [?|[->|?]];
      [rewrite Z.pow_neg_r in Hk by done; lia | simpl in Hk; lia | lia].
Qed.

Lemma Zdigits2_le (m k : Z) : 0 ≤ m < 2 ^ k → 0 ≤ k → Zdigits2 m ≤ k.
Proof.
  intros [H0 Hk] ?. destruct m as [|p|p]; simpl; [done| |lia].
  by apply digits2_pos_le.
Qed.

Lemma Zdigits2_nonneg (m : Z) : 0 ≤ Zdigits2 m.
Proof. destruct m; simpl; lia. Qed.

Lemma shr_1_bounds (mrs : shr_record) :
  0 ≤ shr_m mrs → 0 ≤ shr_m (shr_1 mrs) ≤ shr_m mrs.
Proof.
  destruct mrs as [m r s]. simpl. intros Hm.
  destruct m as [|[p|p|]|p]; simpl; lia.
Qed.

Lemma iter_shr_1_bounds (p : positive) : ∀ mrs,
  0 ≤ shr_m mrs → 0 ≤ shr_m (SpecFloat.iter_pos shr_1 p mrs) ≤ shr_m mrs.
Proof.
  induction p as [p IH | p IH |]; intros mrs Hm; cbn [SpecFloat.iter_pos].
  - pose proof (shr_1_bounds mrs Hm) as H1.
    pose proof (IH _ (proj1 H1)) as H2.
    pose proof (IH _ (proj1 H2)) as H3. lia.
  - pose proof (IH _ Hm) as H2.
    pose proof (IH _ (proj1 H2)) as H3. lia.
  - by apply shr_1_bounds.
Qed.

Lemma shr_record_of_loc_m (m : Z) (l : location) : shr_m (shr_record_of_loc m l) = m.
Proof. by destruct l as [|[]]. Qed.

(** A shift keeps a non-negative mantissa non-negative and no larger, and
    lifts the exponent to the one the format asks for, if at all. *)
Lemma shr_fexp_bounds (m e : Z) (l : location) :
  0 ≤ m →
  let '(mrs, e') := shr_fexp prec emax m e l in
  0 ≤ shr_m mrs ≤ m ∧ e' ≤ Z.max e (fexp prec emax (Zdigits2 m + e)).
Proof.
  intros Hm. unfold shr_fexp, shr.
  destruct (fexp prec emax (Zdigits2 m + e) - e) as [|p|p] eqn:Hs.
  - rewrite shr_record_of_loc_m. lia.
  - pose proof (iter_shr_1_bounds p (shr_record_of_loc m l)) as H.
    rewrite shr_record_of_loc_m in H. specialize (H Hm). lia.
  - rewrite shr_record_of_loc_m. lia.
Qed.

Lemma round_nearest_even_bounds (m : Z) (l : location) :
  0 ≤ m → m ≤ round_nearest_even m l ≤ m + 1.
Proof. intros. unfold round_nearest_even. destruct l as [|[]]; try destruct (Z.even m); lia. Qed.

Lemma fexp_le (x b : Z) : x ≤ b + 53 → -1074 ≤ b → fexp prec emax x ≤ b.
Proof. unfold fexp, SpecFloat.emin, prec, emax. lia. Qed.

(** Rounding a mantissa below [2^k] at an exponent of at most [0] stays
    clear of the infinities when [k] is small. *)
Lemma binary_round_aux_finite (s : bool) (m e : Z) (l : location) :
  0 ≤ m < 2 ^ 200 → e ≤ 0 →
  is_finite (binary_round_aux prec emax s m e l) = true.
Proof.
  intros [Hm0 Hm] He. unfold binary_round_aux.
  pose proof (shr_fexp_bounds m e l Hm0) as H1.
  destruct (shr_fexp prec emax m e l) as [mrs' e'].
  destruct H1 as [[H1a H1b] H1c].
  pose proof (round_nearest_even_bounds (shr_m mrs') (loc_of_shr_record mrs') H1a) as Hr.
  set (m' := round_nearest_even (shr_m mrs') (loc_of_shr_record mrs')) in *.
  assert (Hm' : 0 ≤ m') by lia.
  pose proof (shr_fexp_bounds m' e' loc_Exact Hm') as H2.
  destruct (shr_fexp prec emax m' e' loc_Exact) as [mrs'' e''].
  destruct H2 as [[H2a H2b] H2c].
  assert (Zdigits2 m ≤ 200) by (apply Zdigits2_le; lia).
  assert (Zdigits2 m' ≤ 201).
  { apply Zdigits2_le; [|lia]. split; [done|].
    replace 201 with (Z.succ 200) by lia. rewrite Z.pow_succ_r by lia. lia. }
  pose proof (Zdigits2_nonneg m). pose proof (Zdigits2_nonneg m').
  assert (e' ≤ 200).
  { etrans; [exact H1c|]. apply Z.max_lub; [lia|]. apply fexp_le; lia. }
  assert (e'' ≤ 400).
  { etrans; [exact H2c|]. apply Z.max_lub; [lia|]. apply fexp_le; lia. }
  destruct (shr_m mrs'') as [|p|p]; [done| |lia].
  destruct (Z.leb_spec e'' (emax - prec)); [done|]. unfold emax, prec in *. lia.
Qed.

Lemma iter_xO (p d : positive) : Z.pos (Pos.iter xO p d) = Z.pos p * 2 ^ Z.pos d.
Proof.
  rewrite <- Z.shiftl_mul_pow2 by lia. simpl.
  by rewrite (Pos.iter_swap_gen _ _ Z.pos xO (Z.mul 2)).
Qed.

Lemma binary_round_finite (s : bool) (p : positive) :
  Z.pos p < 2 ^ 64 → is_finite (binary_round prec emax s p 0) = true.
Proof.
  intros Hp. unfold binary_round, shl_align.
  pose proof (digits2_pos_le p 64 Hp) as Hd.
  assert (0 < Z.pos (digits2_pos p)) by lia.
  destruct (fexp prec emax (Z.pos (digits2_pos p) + 0) - 0) as [|d|d] eqn:Hs.
  - apply binary_round_aux_finite; [|lia]. split; [lia|].
    eapply Z.lt_le_trans; [exact Hp|]. apply Z.pow_le_mono_r; lia.
  - apply binary_round_aux_finite; [|lia]. split; [lia|].
    eapply Z.lt_le_trans; [exact Hp|]. apply Z.pow_le_mono_r; lia.
  - apply binary_round_aux_finite.
    + rewrite iter_xO. split; [lia|].
      assert (Z.pos d ≤ 1074).
      { unfold fexp, SpecFloat.emin, prec, emax in Hs. lia. }
      replace 200 with (64 + 136) by lia. rewrite Z.pow_add_r by lia.
      assert (2 ^ Z.pos d ≤ 2 ^ 136); [|nia].
      apply Z.pow_le_mono_r; [lia|].
      unfold fexp, SpecFloat.emin, prec, emax in Hs. lia.
    + unfold fexp, SpecFloat.emin, prec, emax in *. lia.
Qed.

(** The float of a 64-bit integer is zero or finite. *)
Lemma of_int_finite (i : Z) : in_int64 i = true → is_finite (of_int i) = true.
Proof.
  unfold in_int64, min_int64, max_int64. intros H.
  apply andb_true_iff in H as [H1 H2].
  apply Z.leb_le in H1. apply Z.leb_le in H2.
  unfold of_int, binary_normalize. destruct i as [|p|p]; [done| |].
  - apply binary_round_finite. lia.
  - apply binary_round_finite. lia.
Qed.

End Float64Facts.

(** ** Strings *)

Module StringFacts.

Lemma append_cons (x : ascii) (a b : string) : String x a +:+ b = String x (a +:+ b).
Proof. reflexivity. Qed.

Lemma append_assoc (a b c : string) : (a +:+ b) +:+ c = a +:+ (b +:+ c).
Proof. induction a as [|x a IH]; [done|]. by rewrite !append_cons, IH. Qed.

Lemma append_empty_r (a : string) : a +:+ EmptyString = a.
Proof. induction a as [|x a IH]; [done|]. by rewrite append_cons, IH. Qed.

Lemma rev_app_spec (s1 : string) : ∀ s2, String.rev_app s1 s2 = String.rev s1 +:+ s2.
Proof.
  induction s1 as [|a s1 IH]; intros s2; [done|].
  change (String.rev (String a s1)) with (String.rev_app s1 (String a EmptyString)).
  cbn [String.rev_app]. rewrite (IH (String a s2)), (IH (String a EmptyString)).
  by rewrite append_assoc.
Qed.

Lemma rev_append (s1 s2 : string) : String.rev (s1 +:+ s2) = String.rev s2 +:+ String.rev s1.
Proof.
  induction s1 as [|a s1 IH].
  - change (String.rev EmptyString) with EmptyString. by rewrite append_empty_r.
  - rewrite append_cons.
    change (String.rev (String a (s1 +:+ s2)))
      with (String.rev_app (s1 +:+ s2) (String a EmptyString)).
    change (String.rev (String a s1)) with (String.rev_app s1 (String a EmptyString)).
    rewrite !rev_app_spec, IH. by rewrite append_assoc.
Qed.

Lemma rev_involutive (s : string) : String.rev (String.rev s) = s.
Proof.
  induction s as [|a s IH]; [done|].
  change (String.rev (String a s)) with (String.rev_app s (String a EmptyString)).
  rewrite rev_app_spec, rev_append, IH. done.
Qed.

Lemma TrimSuffix_slash (u : string) : TrimSuffix (u +:+ slash) slash = u.
Proof.
  unfold TrimSuffix. rewrite rev_append.
  change (String.rev slash) with slash. unfold slash. rewrite append_cons.
  unfold TrimPrefix. cbn [strip_prefix Ascii.eqb Bool.eqb default].
  apply rev_involutive.
Qed.

Lemma TrimSuffix_no_slash (u : string) : HasSuffix u slash = false → TrimSuffix u slash = u.
Proof.
  unfold HasSuffix, HasPrefix, TrimSuffix, TrimPrefix. intros H.
  apply bool_decide_eq_false in H.
  destruct (strip_prefix (String.rev slash) (String.rev u)) eqn:E.
  - exfalso. apply H. by eexists.
  - simpl. apply rev_involutive.
Qed.

Lemma TrimPrefix_slash (p : string) : TrimPrefix (slash +:+ p) slash = p.
Proof. done. Qed.

Lemma TrimPrefix_no_slash (path : string) : HasPrefix path slash = false → TrimPrefix path slash = path.
Proof.
  unfold HasPrefix, TrimPrefix. intros H. apply bool_decide_eq_false in H.
  destruct (strip_prefix slash path) eqn:E; [|done].
  exfalso. apply H. by eexists.
Qed.

End StringFacts.

(** ** The retry loop *)
Module ClientFacts.
Import Client StringFacts.

Section Retry.
Context `{lib : Library} `{world : !World}.
Implicit Types (rc : RESTClient) (req : HttpRequest) (lg : Log).

Lemma executeRequest_result rc req lg :
  (executeRequest rc req lg).1 = attempt_result rc req (dispatched lg).
Proof.
  unfold attempt_result, executeRequest. simpl.
  destruct (circuitBreaker rc) as [cb|].
  - destruct (breaker_rejects cb (dispatched lg)); [done|].
    by destruct (client_Do req (dispatched lg)).
  - by destruct (client_Do req (dispatched lg)).
Qed.

Lemma executeRequest_log rc req lg :
  let lg' := (executeRequest rc req lg).2 in
  dispatched lg' = S (dispatched lg) ∧ waited lg' = waited lg ∧
  (round_trips lg ≤ round_trips lg' ≤ S (round_trips lg))%nat.
Proof.
  unfold executeRequest. cbv zeta.
  destruct (circuitBreaker rc) as [cb|].
  - destruct (breaker_rejects cb (dispatched lg)); [simpl; split_and!; (done || lia)|].
    destruct (client_Do req (dispatched lg)); simpl; split_and!; (done || lia).
  - destruct (client_Do req (dispatched lg)); simpl; split_and!; (done || lia).
Qed.

Lemma executeRequest_round_trip rc req lg :
  circuitBreaker rc = None →
  round_trips (executeRequest rc req lg).2 = S (round_trips lg).
Proof.
  intros Hcb. unfold executeRequest. rewrite Hcb.
  by destruct (client_Do req (dispatched lg)).
Qed.

Lemma backoff_wait_log req n d lg :
  dispatched (backoff_wait req n d lg).2 = dispatched lg.
Proof. unfold backoff_wait. by destruct (ctx_Done req n d). Qed.

(** One turn of the loop, case by case. *)
Lemma retry_loop_step rc req todo a lastErr lg :
  retry_loop rc req (S todo) a lastErr lg =
  match (if (0 <? a)%nat then ctx_Done req a (calculateBackoff rc (Z.of_nat a)) else None) with
  | Some c => (Err (ErrContext c), lg)
  | None =>
      let lg1 := if (0 <? a)%nat
                 then (backoff_wait req a (calculateBackoff rc (Z.of_nat a)) lg).2 else lg in
      let r := attempt_result rc req (dispatched lg) in
      let lg2 := (executeRequest rc req lg1).2 in
      if retryable r
      then retry_loop rc req todo (S a) (failure_error r) lg2
      else (r, lg2)
  end.
Proof.
  cbn [retry_loop]. destruct (0 <? a)%nat.
  - unfold backoff_wait.
    destruct (ctx_Done req a (calculateBackoff rc (Z.of_nat a))) as [c|] eqn:Hd; [done|].
    cbv zeta. cbn [snd dispatched].
    match goal with |- context [executeRequest rc req ?l] =>
      pose proof (executeRequest_result rc req l) as Hr;
      destruct (executeRequest rc req l) as [r lg2] end.
    simpl in Hr. subst r.
    destruct (attempt_result rc req (dispatched lg)) as [resp|e]; simpl; [|done].
    by destruct (shouldRetry (StatusCode resp)).
  - pose proof (executeRequest_result rc req lg) as Hr.
    destruct (executeRequest rc req lg) as [r lg2]. simpl in Hr. subst r. simpl.
    destruct (attempt_result rc req (dispatched lg)) as [resp|e]; simpl; [|done].
    by destruct (shouldRetry (StatusCode resp)).
Qed.

Lemma step_log rc req a lg :
  dispatched (executeRequest rc req
     (if (0 <? a)%nat then (backoff_wait req a (calculateBackoff rc (Z.of_nat a)) lg).2 else lg)).2
  = S (dispatched lg).
Proof.
  destruct (executeRequest_log rc req
     (if (0 <? a)%nat then (backoff_wait req a (calculateBackoff rc (Z.of_nat a)) lg).2 else lg))
    as [-> _].
  destruct (0 <? a)%nat; [by rewrite backoff_wait_log | done].
Qed.

(** The loop dispatches at most [todo] times. *)
Lemma retry_loop_bound rc req todo : ∀ a lastErr lg,
  (dispatched (retry_loop rc req todo a lastErr lg).2 ≤ dispatched lg + todo)%nat.
Proof.
  induction todo as [|todo IH]; intros a lastErr lg; [simpl; lia|].
  rewrite retry_loop_step.
  destruct (if (0 <? a)%nat then _ else None); [simpl; lia|].
  cbv zeta. destruct (retryable _).
  - etrans; [apply IH|]. rewrite step_log. lia.
  - cbn [snd]. rewrite step_log. lia.
Qed.

(** A response comes out of the loop only as the answer of the last
    dispatch, when that answer is no retryable failure and every dispatch
    before it was one. *)
Lemma retry_loop_success rc req todo : ∀ a lastErr lg resp lg',
  retry_loop rc req todo a lastErr lg = (Ok resp, lg') →
  shouldRetry (StatusCode resp) = false ∧
  (dispatched lg < dispatched lg')%nat ∧
  attempt_result rc req (dispatched lg' - 1) = Ok resp ∧
  ∀ n, (dispatched lg ≤ n < dispatched lg' - 1)%nat →
       retryable (attempt_result rc req n) = true.
Proof.
  induction todo as [|todo IH]; intros a lastErr lg resp lg' H; [done|].
  rewrite retry_loop_step in H.
  destruct (if (0 <? a)%nat then _ else None); [done|].
  cbv zeta in H. destruct (retryable _) eqn:Hr.
  - apply IH in H as (H1 & H2 & H3 & H4). rewrite step_log in H2, H4.
    split_and!; [done|lia|done|].
    intros n Hn. destruct (decide (n = dispatched lg)) as [->|]; [done|].
    apply H4. lia.
  - injection H as H <-. rewrite step_log.
    replace (S (dispatched lg) - 1)%nat with (dispatched lg) by lia.
    rewrite H in Hr. simpl in Hr. split_and!; [done|lia|done|lia].
Qed.

(** When every dispatch is a retryable failure and no wait is cut short,
    the loop runs out and wraps the error of the last dispatch. *)
Lemma retry_loop_exhausted rc req todo : ∀ a lastErr lg,
  dispatched lg = a →
  (∀ n, (a ≤ n < a + todo)%nat → retryable (attempt_result rc req n) = true) →
  (∀ n, (0 < n)%nat → (a ≤ n < a + todo)%nat →
        ctx_Done req n (calculateBackoff rc (Z.of_nat n)) = None) →
  let out := retry_loop rc req todo a lastErr lg in
  dispatched out.2 = (a + todo)%nat ∧
  out.1 = Err (Errorf "max retries exceeded"
                 (match todo with
                  | O => lastErr
                  | S _ => failure_error (attempt_result rc req (a + todo - 1))
                  end)).
Proof.
  induction todo as [|todo IH]; intros a lastErr lg Ha Hfail Hwait.
  { simpl. split; [lia|done]. }
  cbv zeta. rewrite retry_loop_step.
  destruct (0 <? a)%nat eqn:H0.
  - rewrite Hwait by (apply Nat.ltb_lt in H0; lia).
    cbv zeta. rewrite Ha, Hfail by lia.
    edestruct (IH (S a) (failure_error (attempt_result rc req a))) as [E1 E2];
      [| | |split; [rewrite E1; lia | rewrite E2]].
    + pose proof (step_log rc req a lg) as E. rewrite H0 in E. rewrite E. lia.
    + intros. apply Hfail. lia.
    + intros. apply Hwait; lia.
    + destruct todo; [by replace (a + 1 - 1)%nat with a by lia|].
      do 3 f_equal. f_equal. lia.
  - cbv zeta. rewrite Ha, Hfail by lia.
    edestruct (IH (S a) (failure_error (attempt_result rc req a))) as [E1 E2];
      [| | |split; [rewrite E1; lia | rewrite E2]].
    + pose proof (step_log rc req a lg) as E. rewrite H0 in E. rewrite E. lia.
    + intros. apply Hfail. lia.
    + intros. apply Hwait; lia.
    + destruct todo; [by replace (a + 1 - 1)%nat with a by lia|].
      do 3 f_equal. f_equal. lia.
Qed.

(** When the context is done during the wait before loop index [k], after
    failures only, the loop ends there with the context's error. *)
Lemma retry_loop_cancelled rc req (k : nat) (c : ctxError) todo : ∀ a lastErr lg,
  dispatched lg = a →
  (0 < k)%nat → (a ≤ k < a + todo)%nat →
  (∀ n, (a ≤ n < k)%nat → retryable (attempt_result rc req n) = true) →
  (∀ n, (0 < n)%nat → (a ≤ n < k)%nat →
        ctx_Done req n (calculateBackoff rc (Z.of_nat n)) = None) →
  ctx_Done req k (calculateBackoff rc (Z.of_nat k)) = Some c →
  let out := retry_loop rc req todo a lastErr lg in
  out.1 = Err (ErrContext c) ∧ dispatched out.2 = k.
Proof.
  induction todo as [|todo IH]; intros a lastErr lg Ha Hk Hak Hfail Hwait Hdone; [lia|].
  cbv zeta. rewrite retry_loop_step.
  destruct (decide (a = k)) as [->|Hne].
  - apply Nat.ltb_lt in Hk as ->. rewrite Hdone. done.
  - assert (Hnone : (if (0 <? a)%nat then ctx_Done req a (calculateBackoff rc (Z.of_nat a))
                     else None) = None).
    { destruct (0 <? a)%nat eqn:H0; [|done]. apply Nat.ltb_lt in H0. apply Hwait; lia. }
    rewrite Hnone. cbv zeta. rewrite Ha, Hfail by lia.
    apply IH; try done.
    + by rewrite step_log, Ha.
    + lia.
    + intros. apply Hfail. lia.
    + intros. apply Hwait; lia.
Qed.


Lemma executeRequest_admitted rc req lg :
  (∀ cb, circuitBreaker rc = Some cb → breaker_rejects cb (dispatched lg) = None) →
  round_trips (executeRequest rc req lg).2 = S (round_trips lg).
Proof.
  intros Hcb. unfold executeRequest.
  destruct (circuitBreaker rc) as [cb|].
  - rewrite (Hcb cb eq_refl). by destruct (client_Do req (dispatched lg)).
  - by destruct (client_Do req (dispatched lg)).
Qed.

(** [shouldRetry] picks the statuses from 500 on, 429 and 408, and no
    other. *)
Lemma shouldRetry_statuses (statusCode : Z) :
  shouldRetry statusCode = true ↔
  500 ≤ statusCode ∨ statusCode = 429 ∨ statusCode = 408.
Proof.
  unfold shouldRetry. rewrite !orb_true_iff, Z.leb_le, !Z.eqb_eq. tauto.
Qed.

(** After failures only, and waits that the context lets pass, the first
    answer that is no retryable failure ends the loop and is returned. *)
Lemma retry_loop_answer rc req (k : nat) (resp : Response) todo : ∀ a lastErr lg,
  dispatched lg = a →
  (a ≤ k < a + todo)%nat →
  (∀ n, (a ≤ n < k)%nat → retryable (attempt_result rc req n) = true) →
  (∀ n, (0 < n)%nat → (a ≤ n ≤ k)%nat →
        ctx_Done req n (calculateBackoff rc (Z.of_nat n)) = None) →
  attempt_result rc req k = Ok resp →
  retryable (Ok resp) = false →
  let out := retry_loop rc req todo a lastErr lg in
  out.1 = Ok resp ∧ dispatched out.2 = S k.
Proof.
  induction todo as [|todo IH]; intros a lastErr lg Ha Hak Hfail Hwait Hk Hresp; [lia|].
  cbv zeta. rewrite retry_loop_step.
  assert (Hnone : (if (0 <? a)%nat then ctx_Done req a (calculateBackoff rc (Z.of_nat a))
                   else None) = None).
  { destruct (0 <? a)%nat eqn:H0; [|done]. apply Nat.ltb_lt in H0. apply Hwait; lia. }
  rewrite Hnone. cbv zeta. rewrite Ha.
  destruct (decide (a = k)) as [->|Hne].
  - rewrite Hk, Hresp. cbn [fst snd]. split; [done|]. by rewrite step_log, Ha.
  - rewrite Hfail by lia.
    apply IH; try done.
    + by rewrite step_log, Ha.
    + lia.
    + intros. apply Hfail. lia.
    + intros. apply Hwait; lia.
Qed.

(** C2. Without a retry policy a call dispatches exactly once (one round
    trip of the transport, unless a breaker turns the dispatch away).  With a
    policy it dispatches at most [MaxAttempts] times; an error of the
    dispatch and a response of status 5xx, 429 or 408 are failures that send
    the loop on, and among the responses [shouldRetry] picks exactly the
    statuses from 500 on, 429 and 408; the first answer of another status,
    after failures only and waits that the context lets pass, ends the loop
    and is the result of the call, with no dispatch after it; a response
    comes back only from a dispatch that is no such failure; and when every
    dispatch fails, with the policy's invariant [MaxAttempts >= 1], the call
    ends after [MaxAttempts] dispatches with the error
    [max retries exceeded] wrapping the last error or status. *)
Theorem Request_attempts (σ : store) rc (config : RequestConfig) req :
  createRequest σ rc config = Ok req →
  let out := Request σ rc config no_Log in
  (retry rc = None →
     dispatched out.2 = 1%nat ∧
     (round_trips out.2 ≤ 1)%nat ∧
     ((∀ cb, circuitBreaker rc = Some cb → breaker_rejects cb 0%nat = None) →
      round_trips out.2 = 1%nat) ∧
     out.1 = attempt_result rc req 0) ∧
  (∀ r, retry rc = Some r →
     (dispatched out.2 ≤ Z.to_nat (MaxAttempts r))%nat ∧
     (∀ resp, out.1 = Ok resp →
        shouldRetry (StatusCode resp) = false ∧
        attempt_result rc req (dispatched out.2 - 1) = Ok resp ∧
        ∀ n, (n < dispatched out.2 - 1)%nat → retryable (attempt_result rc req n) = true) ∧
     (∀ (k : nat) resp,
        (k < Z.to_nat (MaxAttempts r))%nat →
        (∀ n, (n < k)%nat → retryable (attempt_result rc req n) = true) →
        (∀ n, (0 < n ≤ k)%nat → ctx_Done req n (calculateBackoff rc (Z.of_nat n)) = None) →
        attempt_result rc req k = Ok resp →
        StatusCode resp < 500 → StatusCode resp ≠ 429 → StatusCode resp ≠ 408 →
        out.1 = Ok resp ∧ dispatched out.2 = S k) ∧
     (1 ≤ MaxAttempts r →
      (∀ n, (n < Z.to_nat (MaxAttempts r))%nat → retryable (attempt_result rc req n) = true) →
      (∀ n, (0 < n < Z.to_nat (MaxAttempts r))%nat →
            ctx_Done req n (calculateBackoff rc (Z.of_nat n)) = None) →
      dispatched out.2 = Z.to_nat (MaxAttempts r) ∧
      out.1 = Err (Errorf "max retries exceeded"
                     (failure_error (attempt_result rc req (Z.to_nat (MaxAttempts r) - 1)))))) ∧
  (∀ e, retryable (Err e) = true) ∧
  (∀ resp, 500 ≤ StatusCode resp ≤ 599 ∨ StatusCode resp = 429 ∨ StatusCode resp = 408 →
           retryable (Ok resp) = true) ∧
  (∀ resp, retryable (Ok resp) = true ↔
           500 ≤ StatusCode resp ∨ StatusCode resp = 429 ∨ StatusCode resp = 408).
Proof.
  intros Hreq. unfold Request. rewrite Hreq. cbv zeta. split_and!.
  - intros ->.
    destruct (executeRequest_log rc req no_Log) as (Hd & _ & Hr).
    split_and!; [done|simpl in Hr; lia| |apply executeRequest_result].
    intros Hcb. by rewrite executeRequest_admitted.
  - intros r Hr. rewrite Hr. unfold executeWithRetry, getMaxAttempts. rewrite Hr.
    split_and!.
    + apply (retry_loop_bound rc req _ 0%nat None no_Log).
    + intros resp Hout.
      destruct (retry_loop rc req (Z.to_nat (MaxAttempts r)) 0 None no_Log) as [res lg] eqn:E.
      simpl in Hout. subst res.
      apply retry_loop_success in E as (H1 & H2 & H3 & H4).
      split_and!; [done|done|]. intros n Hn. apply H4. simpl in *. lia.
    + intros k resp Hk Hfail Hwait Hres H500 H429 H408.
      apply (retry_loop_answer rc req k resp _ 0%nat None no_Log); try done.
      * lia.
      * intros n Hn. apply Hfail. lia.
      * intros n ? Hn. apply Hwait. lia.
      * apply not_true_is_false. cbn [retryable]. rewrite shouldRetry_statuses. lia.
    + intros Hmax Hfail Hwait.
      destruct (retry_loop_exhausted rc req (Z.to_nat (MaxAttempts r)) 0%nat None no_Log)
        as [E1 E2]; [done| | |].
      { intros n Hn. apply Hfail. lia. }
      { intros n ? Hn. apply Hwait. lia. }
      split; [by rewrite E1|]. rewrite E2.
      destruct (Z.to_nat (MaxAttempts r)) eqn:En; [lia|done].
  - done.
  - intros resp H. simpl. unfold shouldRetry.
    destruct H as [[H1 H2]|[->| ->]]; [|done..].
    apply Z.leb_le in H1. by rewrite H1.
  - intros resp. apply shouldRetry_statuses.
Qed.

(** C5. When the context is done during the wait before a retry, after
    attempts that all failed, the call ends there: it returns the context's
    own error, not a retry error, and dispatches nothing more. *)
Theorem cancellation_during_backoff rc req (r : RetryConfig) (k : nat) (c : ctxError) :
  retry rc = Some r →
  (0 < k)%nat → (k < Z.to_nat (MaxAttempts r))%nat →
  (∀ n, (n < k)%nat → retryable (attempt_result rc req n) = true) →
  (∀ n, (0 < n < k)%nat → ctx_Done req n (calculateBackoff rc (Z.of_nat n)) = None) →
  ctx_Done req k (calculateBackoff rc (Z.of_nat k)) = Some c →
  let out := executeWithRetry rc req no_Log in
  out.1 = Err (ErrContext c) ∧ dispatched out.2 = k.
Proof.
  intros Hr Hk Hmax Hfail Hwait Hdone.
  unfold executeWithRetry, getMaxAttempts. rewrite Hr.
  apply retry_loop_cancelled; try done.
  - lia.
  - intros n Hn. apply Hfail. lia.
  - intros n ? Hn. apply Hwait. lia.
Qed.

End Retry.

(** *** Backoff *)

Lemma mul_zero_r (x : float64) (s : bool) :
  is_finite x = true → ∃ s', mul x (S754_zero s) = S754_zero s'.
Proof. destruct x; intros H; try done; by eexists. Qed.

Lemma to_int64_zero (undef : Z) (s : bool) : to_int64 undef (S754_zero s) = 0.
Proof. done. Qed.

(** C10 (as amended). For a retry policy whose factor is a finite number
    and whose [MaxBackoff] is not negative, the delay computed before the
    second attempt (loop index 1) is exactly zero, whatever the initial
    backoff and the factor are: the factor is multiplied by [attempt - 1],
    which is zero there. *)
Theorem first_retry_delay_is_zero `{lib : Library} (rc : RESTClient) (r : RetryConfig) :
  retry rc = Some r →
  is_finite (BackoffFactor r) = true →
  in_int64 (InitialBackoff r) = true →
  0 ≤ MaxBackoff r →
  calculateBackoff rc 1 = 0.
Proof.
  intros Hr Hf Hi Hmax. unfold calculateBackoff. rewrite Hr.
  change (of_int (wrap64 (1 - 1))) with (S754_zero false).
  destruct (mul_zero_r (BackoffFactor r) false Hf) as [s ->].
  destruct (mul_zero_r (of_int (InitialBackoff r)) s) as [s' ->].
  { by apply Float64Facts.of_int_finite. }
  rewrite to_int64_zero. destruct (Z.ltb_spec (MaxBackoff r) 0); [lia|done].
Qed.

Lemma first_retry_delay_is_zero_witness :
  retry Examples.retrying = Some defaultRetry ∧
  is_finite (BackoffFactor defaultRetry) = true ∧
  in_int64 (InitialBackoff defaultRetry) = true ∧
  0 ≤ MaxBackoff defaultRetry ∧
  calculateBackoff (lib := Examples.platform) Examples.retrying 1 = 0.
Proof.
  assert (H1 : retry Examples.retrying = Some defaultRetry) by reflexivity.
  assert (H2 : is_finite (BackoffFactor defaultRetry) = true) by reflexivity.
  assert (H3 : in_int64 (InitialBackoff defaultRetry) = true) by reflexivity.
  assert (H4 : 0 ≤ MaxBackoff defaultRetry) by (vm_compute; discriminate).
  exact (conj H1 (conj H2 (conj H3 (conj H4
    (first_retry_delay_is_zero (lib := Examples.platform) _ _ H1 H2 H3 H4))))).
Defined.

(** With a negative [MaxBackoff] the clamp takes over and the delay before
    the second attempt is that negative value. *)
Lemma first_retry_delay_negative_max :
  calculateBackoff (lib := Examples.platform) Examples.negative_max 1 = -1 ∧
  calculateBackoff (lib := Examples.platform) Examples.negative_max 1 ≠ 0.
Proof. split; [by vm_compute | by vm_compute]. Qed.

(** With an infinite factor the product is not a number, and the delay is
    what the platform makes of it (unless the clamp is lower). *)
Lemma first_retry_delay_infinite_factor `{lib : Library} (rc : RESTClient) (r : RetryConfig) (s : bool) :
  retry rc = Some r →
  BackoffFactor r = S754_infinity s →
  calculateBackoff rc 1 = if MaxBackoff r <? undef then MaxBackoff r else undef.
Proof.
  intros Hr Hf. unfold calculateBackoff. rewrite Hr, Hf.
  change (of_int (wrap64 (1 - 1))) with (S754_zero false).
  replace (mul (of_int (InitialBackoff r)) (mul (S754_infinity s) (S754_zero false)))
    with S754_nan; [done|].
  simpl. by destruct (of_int (InitialBackoff r)).
Qed.

(** C1. The delays of the default policy (3 attempts, 100ms, factor 2):
    the code waits 0 before the second attempt and 200ms before the third,
    where [min(maxBackoff, initialBackoff * factor^(attempt-1))] is 200ms
    and 400ms.  The code multiplies by [factor * (attempt - 1)]; it does not
    raise the factor to a power. *)
Theorem calculateBackoff_is_linear :
  calculateBackoff (lib := Examples.platform) Examples.retrying 1 = 0 ∧
  backoff_contract (lib := Examples.platform) defaultRetry 2 = 200 * Millisecond ∧
  calculateBackoff (lib := Examples.platform) Examples.retrying 2 = 200 * Millisecond ∧
  backoff_contract (lib := Examples.platform) defaultRetry 3 = 400 * Millisecond ∧
  waited (executeWithRetry (world := Examples.always_500)
            Examples.retrying Examples.get_users_request no_Log).2
    = [0; 200 * Millisecond].
Proof. split_and!; by vm_compute. Qed.

(** The code's delay is linear in the loop index as long as the product is
    exact, as it is for the default policy. *)
Lemma calculateBackoff_default_linear :
  ∀ k, (k ∈ [1; 2; 3; 4; 5; 6; 7; 8; 9; 10]) →
  calculateBackoff (lib := Examples.platform) Examples.retrying k
  = Z.min (5 * Second) (100 * Millisecond * (2 * (k - 1))).
Proof. intros k Hk. repeat (apply elem_of_cons in Hk as [->|Hk]; [by vm_compute|]). by apply elem_of_nil in Hk. Qed.

(** *** URLs *)



(** *** Bodies and content types *)

Lemma Header_Get_Set (h : Header) (key value : string) :
  Header_Get (Header_Set key value h) key = value.
Proof. unfold Header_Get, Header_Set. by rewrite lookup_insert_eq. Qed.

(** Headers set from maps none of whose keys is a spelling of
    [Content-Type] hold no content type. *)
Lemma set_all_absent `{lib : Library} (m : headers) (h : Header) :
  (∀ k v, (k, v) ∈ range m → CanonicalMIMEHeaderKey k ≠ CanonicalMIMEHeaderKey ContentType) →
  Header_Get h ContentType = EmptyString →
  Header_Get (set_all m h) ContentType = EmptyString.
Proof.
  unfold set_all. generalize (range m) as l. intros l. revert h.
  induction l as [|[k v] l IH]; intros h Hl Hh; [done|].
  cbn [foldl]. apply IH.
  - intros k' v' Hin. apply (Hl k' v'). by right.
  - unfold Header_Get, Header_Set in *. cbn [fst snd].
    rewrite lookup_insert_ne; [done|]. apply (Hl k v). by left.
Qed.

Lemma merged_headers_absent `{lib : Library} (σ : store) (rc : RESTClient)
    (config : RequestConfig) :
  (∀ k v, (k, v) ∈ range (deref σ (defaultHeaders rc)) →
          CanonicalMIMEHeaderKey k ≠ CanonicalMIMEHeaderKey ContentType) →
  (∀ k v, (k, v) ∈ range (cfg_Headers config) →
          CanonicalMIMEHeaderKey k ≠ CanonicalMIMEHeaderKey ContentType) →
  Header_Get (merged_headers σ rc config) ContentType = EmptyString.
Proof.
  intros H1 H2. unfold merged_headers.
  apply set_all_absent; [done|]. apply set_all_absent; [done|].
  unfold Header_Get. by rewrite lookup_empty.
Qed.

(** C6 (as amended). A string, a byte slice and a stream go to the
    transport as they are, and the headers stay as merged.  Any other value
    is marshalled to JSON; its request gets the JSON content type exactly
    when [Get] finds no content type among the merged default and per-call
    headers, that is when there is none or its first value is the empty
    string; otherwise the merged headers stay. *)
Theorem createRequest_body_and_content_type `{lib : Library}
    (σ : store) (rc : RESTClient) (config : RequestConfig) (req : HttpRequest) :
  createRequest σ rc config = Ok req →
  let h := merged_headers σ rc config in
  match cfg_Body config with
  | None => req_Body req = None ∧ req_Header req = h
  | Some (BodyString v) => req_Body req = Some (StringsReader v) ∧ req_Header req = h
  | Some (BodyBytes v) => req_Body req = Some (BytesReader v) ∧ req_Header req = h
  | Some (BodyReader v) => req_Body req = Some (SameReader v) ∧ req_Header req = h
  | Some (BodyValue v) =>
      ∃ jsonData, json_Marshal v = Ok jsonData ∧
        req_Body req = Some (BytesReader jsonData) ∧
        (Header_Get h ContentType = EmptyString →
           req_Header req = Header_Set ContentType applicationJSON h ∧
           Header_Get (req_Header req) ContentType = applicationJSON) ∧
        (Header_Get h ContentType ≠ EmptyString → req_Header req = h)
  end.
Proof.
  unfold createRequest. intros H.
  destruct (cfg_Body config) as [[v|v|v|v]|] eqn:Hb; simpl in H.
  - destruct (newRequest_error _ _); [done|]. injection H as <-. simpl.
    split; [done|]. by destruct (String.eqb _ _).
  - destruct (newRequest_error _ _); [done|]. injection H as <-. simpl.
    split; [done|]. by destruct (String.eqb _ _).
  - destruct (newRequest_error _ _); [done|]. injection H as <-. simpl.
    split; [done|]. by destruct (String.eqb _ _).
  - destruct (json_Marshal v) as [jsonData|e] eqn:Hm; [|done].
    destruct (newRequest_error _ _); [done|]. injection H as <-. simpl.
    exists jsonData. split_and!; [done|done| |].
    + intros ->. simpl. split; [done|]. apply Header_Get_Set.
    + intros Hne. destruct (String.eqb_spec (Header_Get (merged_headers σ rc config) ContentType)
                               EmptyString); done.
  - destruct (newRequest_error _ _); [done|]. injection H as <-. by simpl.
Qed.

Lemma createRequest_body_and_content_type_witness :
  ∃ req, createRequest (lib := Examples.platform) Examples.store0 Examples.plain Examples.post_user
         = Ok req ∧
         Header_Get (req_Header req) ContentType = applicationJSON.
Proof.
  eexists. split; [reflexivity|].
  pose proof (createRequest_body_and_content_type (lib := Examples.platform)
                Examples.store0 Examples.plain Examples.post_user _ eq_refl) as H.
  destruct H as (jsonData & _ & _ & H & _).
  exact (proj2 (H eq_refl)).
Defined.

(** A caller's content type with an empty value is a header that is there,
    and the JSON content type is set over it. *)
Lemma content_type_set_over_empty_value :
  merged_headers (lib := Examples.platform) Examples.store0 Examples.plain
    Examples.post_with_empty_content_type !! ContentType = Some [EmptyString] ∧
  ∃ req, createRequest (lib := Examples.platform) Examples.store0 Examples.plain
           Examples.post_with_empty_content_type = Ok req ∧
         req_Header req !! ContentType = Some [applicationJSON].
Proof. split; [by vm_compute|]. eexists. split; [reflexivity| by vm_compute]. Qed.

(** *** Builders and the clients they make *)

Lemma call_frame (c : BuilderCall) (b : ClientBuilder) (σ : store) :
  b_defaultHeaders (call c (b, σ)).1 = b_defaultHeaders b ∧
  ∀ l, l ≠ b_defaultHeaders b → (call c (b, σ)).2 !! l = σ !! l.
Proof.
  destruct c; simpl; (split; [done|]); intros l Hl; try done.
  - unfold WithDefaultHeader. by rewrite lookup_insert_ne.
  - unfold WithDefaultHeaders. by rewrite lookup_insert_ne.
Qed.

Lemma calls_frame (cs : list BuilderCall) : ∀ (b : ClientBuilder) (σ : store),
  b_defaultHeaders (calls cs (b, σ)).1 = b_defaultHeaders b ∧
  ∀ l, l ≠ b_defaultHeaders b → (calls cs (b, σ)).2 !! l = σ !! l.
Proof.
  induction cs as [|c cs IH]; intros b σ; [done|].
  unfold calls. cbn [foldl]. fold (calls cs (call c (b, σ))).
  destruct (call_frame c b σ) as [H1 H2].
  destruct (call c (b, σ)) as [b1 σ1]. simpl in H1, H2.
  destruct (IH b1 σ1) as [H3 H4]. split; [congruence|].
  intros l Hl. rewrite H4 by congruence. by apply H2.
Qed.

Lemma fresh_loc_fresh (σ : store) : σ !! fresh_loc σ = None.
Proof. apply not_elem_of_dom. unfold fresh_loc. apply is_fresh. Qed.

(** C3. The builder that [FromSharedClient] derives from a finalized
    client starts with the parent's default headers, timeout, retry policy
    and circuit-breaker policy (and its base URL when none is given), and no
    chain of calls on the derived builder changes the parent's header map or
    any other map the store held. *)
Theorem FromSharedClient_inherits (σ : store) (parent : RESTClient) (name url : string)
    (cs : list BuilderCall) :
  is_Some (σ !! defaultHeaders parent) →
  let derived := FromSharedClient parent name url σ in
  let later := calls cs derived in
  deref derived.2 (b_defaultHeaders derived.1) = deref σ (defaultHeaders parent) ∧
  b_timeout derived.1 = client_Timeout (client parent) ∧
  b_retry derived.1 = retry parent ∧
  b_circuitBreaker derived.1 = cb_settings <$> circuitBreaker parent ∧
  b_baseURL derived.1 = (if String.eqb url EmptyString then baseURL parent
                         else TrimSuffix url slash) ∧
  b_defaultHeaders derived.1 ≠ defaultHeaders parent ∧
  deref later.2 (defaultHeaders parent) = deref σ (defaultHeaders parent) ∧
  ∀ l, is_Some (σ !! l) → later.2 !! l = σ !! l.
Proof.
  intros Hp. cbv zeta.
  pose proof (fresh_loc_fresh σ) as Hfresh.
  assert (Hne : fresh_loc σ ≠ defaultHeaders parent).
  { intros E. rewrite E in Hfresh. rewrite Hfresh in Hp. by destruct Hp. }
  assert (Hd : (FromSharedClient parent name url σ).2
               = <[fresh_loc σ := deref σ (defaultHeaders parent)]> (<[fresh_loc σ := ∅]> σ)).
  { unfold FromSharedClient, NewClientBuilder. cbn -[fresh_loc].
    destruct (String.eqb url EmptyString); cbn -[fresh_loc];
      unfold deref; by rewrite lookup_insert_ne. }
  assert (Hb : b_defaultHeaders (FromSharedClient parent name url σ).1 = fresh_loc σ).
  { unfold FromSharedClient, NewClientBuilder. cbn -[fresh_loc].
    by destruct (String.eqb url EmptyString). }
  destruct (calls_frame cs (FromSharedClient parent name url σ).1
              (FromSharedClient parent name url σ).2) as [_ Hframe].
  rewrite <- surjective_pairing in Hframe. rewrite Hb, Hd in Hframe.
  assert (Hkeep : ∀ l, is_Some (σ !! l) →
            (calls cs (FromSharedClient parent name url σ)).2 !! l = σ !! l).
  { intros l Hl. assert (l ≠ fresh_loc σ).
    { intros ->. rewrite Hfresh in Hl. by destruct Hl. }
    rewrite Hframe by done. by rewrite !lookup_insert_ne. }
  split_and!.
  - rewrite Hb, Hd. unfold deref at 1. by rewrite lookup_insert_eq.
  - unfold FromSharedClient, NewClientBuilder. cbn -[fresh_loc].
    by destruct (String.eqb url EmptyString).
  - unfold FromSharedClient, NewClientBuilder. cbn -[fresh_loc].
    by destruct (String.eqb url EmptyString).
  - unfold FromSharedClient, NewClientBuilder. cbn -[fresh_loc].
    by destruct (String.eqb url EmptyString).
  - unfold FromSharedClient, NewClientBuilder. cbn -[fresh_loc].
    by destruct (String.eqb url EmptyString).
  - by rewrite Hb.
  - unfold deref. by rewrite Hkeep.
  - exact Hkeep.
Qed.

(** [Build] hands the builder's own header map to the client: a header
    added to the same builder after [Build] shows in the client built
    before. *)
Lemma Build_shares_the_header_map (b : ClientBuilder) (σ : store) (key value : string) :
  deref (WithDefaultHeader key value b σ) (defaultHeaders (Build b)) !! key = Some value.
Proof.
  unfold WithDefaultHeader, deref. simpl. rewrite lookup_insert_eq. simpl.
  by rewrite lookup_insert_eq.
Qed.

Lemma FromSharedClient_inherits_witness :
  let σ := Examples.parent_store in
  let cs := [CallWithTimeout (30 * Second); CallWithDefaultHeader "X-Service" "plex"] in
  let derived := FromSharedClient Examples.parent_client "plex-service" "http://plex" σ in
  is_Some (σ !! defaultHeaders Examples.parent_client) ∧
  deref derived.2 (b_defaultHeaders derived.1) !! "Authorization" = Some "Bearer base-token" ∧
  b_timeout derived.1 = 20 * Second ∧
  b_retry derived.1 = Some defaultRetry ∧
  deref (calls cs derived).2 (defaultHeaders Examples.parent_client)
    = deref σ (defaultHeaders Examples.parent_client) ∧
  deref (calls cs derived).2 (b_defaultHeaders (calls cs derived).1) !! "X-Service" = Some "plex" ∧
  deref σ (defaultHeaders Examples.parent_client) !! "X-Service" = None.
Proof.
  cbv zeta.
  assert (H : is_Some (Examples.parent_store !! defaultHeaders Examples.parent_client)).
  { eexists. vm_compute. reflexivity. }
  pose proof (FromSharedClient_inherits Examples.parent_store Examples.parent_client
                "plex-service" "http://plex"
                [CallWithTimeout (30 * Second); CallWithDefaultHeader "X-Service" "plex"] H)
    as (H1 & H2 & H3 & _ & _ & _ & H7 & _).
  split_and!.
  - exact H.
  - rewrite H1. by vm_compute.
  - exact H2.
  - exact H3.
  - exact H7.
  - by vm_compute.
  - by vm_compute.
Defined.

Lemma Request_attempts_witness :
  createRequest (lib := Examples.platform) Examples.store0 Examples.retrying Examples.get_users
    = Ok Examples.get_users_request ∧
  (let out := Request (world := Examples.always_500) Examples.store0 Examples.retrying
                Examples.get_users no_Log in
   dispatched out.2 = 3%nat ∧
   out.1 = Err (Errorf "max retries exceeded" (Some (ErrHTTP 500)))) ∧
  (let out := Request (world := Examples.always_200) Examples.store0 Examples.plain
                Examples.get_users no_Log in
   dispatched out.2 = 1%nat ∧ round_trips out.2 = 1%nat) ∧
  (let out := Request (world := MoreExamples.recovering) Examples.store0 Examples.retrying
                Examples.get_users no_Log in
   out.1 = Ok MoreExamples.answer_200 ∧ dispatched out.2 = 2%nat) ∧
  (let out := Request (world := MoreExamples.not_found) Examples.store0 Examples.retrying
                Examples.get_users no_Log in
   out.1 = Ok MoreExamples.answer_404 ∧ dispatched out.2 = 1%nat).
Proof.
  split; [reflexivity|]. split_and!.
  - pose proof (Request_attempts (world := Examples.always_500) Examples.store0
                  Examples.retrying Examples.get_users Examples.get_users_request eq_refl)
      as (_ & H & _).
    destruct (H defaultRetry eq_refl) as (_ & _ & _ & H3).
    destruct H3 as [E1 E2].
    + vm_compute. discriminate.
    + intros n _. reflexivity.
    + intros n _. reflexivity.
    + split; [exact E1 | exact E2].
  - pose proof (Request_attempts (world := Examples.always_200) Examples.store0
                  Examples.plain Examples.get_users Examples.get_users_request eq_refl)
      as (H & _).
    destruct (H eq_refl) as (E1 & _ & E3 & _).
    split; [exact E1|]. apply E3. intros cb Hcb. discriminate Hcb.
  - pose proof (Request_attempts (world := MoreExamples.recovering) Examples.store0
                  Examples.retrying Examples.get_users Examples.get_users_request eq_refl)
      as (_ & H & _).
    destruct (H defaultRetry eq_refl) as (_ & _ & H3 & _).
    apply (H3 1%nat MoreExamples.answer_200).
    + vm_compute. lia.
    + intros n Hn. assert (n = 0%nat) as -> by lia. reflexivity.
    + intros n _. reflexivity.
    + reflexivity.
    + vm_compute. reflexivity.
    + discriminate.
    + discriminate.
  - pose proof (Request_attempts (world := MoreExamples.not_found) Examples.store0
                  Examples.retrying Examples.get_users Examples.get_users_request eq_refl)
      as (_ & H & _).
    destruct (H defaultRetry eq_refl) as (_ & _ & H3 & _).
    apply (H3 0%nat MoreExamples.answer_404).
    + vm_compute. lia.
    + intros n Hn. lia.
    + intros n Hn. lia.
    + reflexivity.
    + vm_compute. reflexivity.
    + discriminate.
    + discriminate.
Defined.

Lemma cancellation_during_backoff_witness :
  ctx_Done (World := Examples.cancelled_at_2) Examples.get_users_request 2
    (calculateBackoff (lib := Examples.platform) Examples.retrying 2) = Some DeadlineExceeded ∧
  (let out := executeWithRetry (world := Examples.cancelled_at_2) Examples.retrying
                Examples.get_users_request no_Log in
   out.1 = Err (ErrContext DeadlineExceeded) ∧ dispatched out.2 = 2%nat).
Proof.
  split; [reflexivity|].
  apply (cancellation_during_backoff (world := Examples.cancelled_at_2)
           Examples.retrying Examples.get_users_request defaultRetry 2 DeadlineExceeded).
  - reflexivity.
  - lia.
  - vm_compute. lia.
  - intros n _. reflexivity.
  - intros n Hn. assert (n = 1%nat) as -> by lia. reflexivity.
  - reflexivity.
Defined.

End ClientFacts.

(** ** The JSON parser *)

Module ParserFacts.

Import Helpers.

Local Open Scope nat_scope.

Lemma length_cons (c : ascii) (s : string) : String.length (String c s) = S (String.length s).
Proof. done. Qed.

Lemma length_app (a b : string) : String.length (a +:+ b) = String.length a + String.length b.
Proof. induction a as [|c a IH]; [done|]. rewrite StringFacts.append_cons, !length_cons, IH. done. Qed.

Lemma length_skip_space (s : string) : String.length (skip_space s) ≤ String.length s.
Proof.
  induction s as [|c s IH]; [done|]. cbn [skip_space].
  destruct (is_space c); rewrite ?length_cons; lia.
Qed.

Lemma take_digits_length (s d r : string) :
  take_digits s = (d, r) → String.length s = String.length d + String.length r.
Proof.
  revert d r. induction s as [|c s IH]; intros d r H; cbn [take_digits] in H.
  - by injection H as <- <-.
  - destruct (Helpers.is_digit c).
    + destruct (take_digits s) as [d' r'] eqn:E. injection H as <- <-.
      rewrite !length_cons, (IH d' r' eq_refl). done.
    + by injection H as <- <-.
Qed.

Lemma strip_prefix_length (p : string) : ∀ s r,
  strip_prefix p s = Some r → String.length s = String.length p + String.length r.
Proof.
  induction p as [|a p IH]; intros s r H; cbn [strip_prefix] in H.
  - by injection H as <-.
  - destruct s as [|b s]; [done|]. destruct (Ascii.eqb a b); [|done].
    rewrite !length_cons, (IH s r H). done.
Qed.

Lemma hex4_length (s r : string) (n : N) :
  hex4 s = Some (n, r) → String.length s = 4 + String.length r.
Proof.
  unfold hex4. intros H.
  destruct s as [|a [|b [|c [|d k]]]]; try done.
  destruct (hex_digit a), (hex_digit b), (hex_digit c), (hex_digit d); try done.
  by injection H as _ <-.
Qed.

Lemma escaped_rune_length (rr rune : N) (s rest : string) :
  escaped_rune rr s = (rune, rest) → String.length rest ≤ String.length s.
Proof.
  unfold escaped_rune, getu4. intros H.
  destruct ((55296 <=? rr)%N && (rr <=? 57343)%N); [|by injection H as _ <-].
  destruct s as [|a [|b k]]; try (by injection H as _ <-).
  destruct ((code a =? 92)%N && (code b =? 117)%N); [|by injection H as _ <-].
  destruct (hex4 k) as [[r1 s']|] eqn:E; [|by injection H as _ <-].
  apply hex4_length in E.
  destruct ((rr <? 56320)%N && (56320 <=? r1)%N && (r1 <=? 57343)%N);
    injection H as _ <-; rewrite ?length_cons; lia.
Qed.

Lemma utf8_length_bounds (s : string) (n : nat) :
  utf8_length s = Some n → 1 ≤ n ≤ String.length s.
Proof.
  unfold utf8_length. intros H.
  destruct s as [|a r]; [done|].
  destruct (code a <? 128)%N; [injection H as <-; rewrite length_cons; lia|].
  destruct r as [|b r]; [done|].
  destruct (between 194 223 a && between 128 191 b);
    [injection H as <-; rewrite !length_cons; lia|].
  destruct r as [|c r]; [done|].
  match type of H with (if ?x then _ else _) = _ => destruct x end;
    [injection H as <-; rewrite !length_cons; lia|].
  destruct r as [|d r]; [done|].
  match type of H with (if ?x then _ else _) = _ => destruct x end; [|done].
  injection H as <-. rewrite !length_cons. lia.
Qed.

Lemma drop_length (n : nat) : ∀ s, n ≤ String.length s →
  String.length (drop n s) = String.length s - n.
Proof.
  induction n as [|n IH]; intros s H; [by destruct s; simpl; lia|].
  destruct s as [|c s]; [simpl in H; lia|].
  cbn [drop]. rewrite length_cons in *. rewrite IH by lia. lia.
Qed.

(** A string literal is read to its end with a counter above the length of
    the input, and its closing quote is consumed. *)
Lemma unquote_fuel (fuel : nat) : ∀ s,
  (String.length s < fuel → unquote fuel s ≠ OutOfFuel) ∧
  (∀ t k, unquote fuel s = Parsed t k → String.length k < String.length s).
Proof.
  induction fuel as [|fuel IH]; intros s; [split; [lia|done]|].
  cbn [unquote]. destruct s as [|c r]; [done|]. rewrite length_cons.
  destruct (code c =? 34)%N.
  { split; [done|]. intros t k [= _ <-]. lia. }
  destruct (code c =? 92)%N.
  { destruct r as [|e r']; [done|]. rewrite length_cons.
    destruct (code e =? 117)%N.
    - destruct (hex4 r') as [[rr r'']|] eqn:E; [|done].
      apply hex4_length in E.
      destruct (escaped_rune rr r'') as [rune rest] eqn:Er.
      apply escaped_rune_length in Er.
      destruct (IH rest) as [H1 H2].
      destruct (unquote fuel rest) as [t k| |] eqn:Eu; [|done|].
      + split; [done|]. intros ? ? [= _ <-]. specialize (H2 _ _ eq_refl). lia.
      + split; [|done]. intros Hf. exfalso. apply H1; [lia|done].
    - destruct (simple_escape e); [|done].
      destruct (IH r') as [H1 H2].
      destruct (unquote fuel r') as [t k| |] eqn:Eu; [|done|].
      + split; [done|]. intros ? ? [= _ <-]. specialize (H2 _ _ eq_refl). lia.
      + split; [|done]. intros Hf. exfalso. apply H1; [lia|done]. }
  destruct (code c <? 32)%N; [done|].
  destruct (utf8_length (String c r)) as [n|] eqn:En.
  - apply utf8_length_bounds in En. rewrite length_cons in En.
    pose proof (drop_length n (String c r)) as Hd. rewrite length_cons in Hd.
    destruct (IH (drop n (String c r))) as [H1 H2].
    destruct (unquote fuel (drop n (String c r))) as [t k| |] eqn:Eu; [|done|].
    + split; [done|]. intros ? ? [= _ <-]. specialize (H2 _ _ eq_refl). lia.
    + split; [|done]. intros Hf. exfalso. apply H1; [lia|done].
  - destruct (IH r) as [H1 H2].
    destruct (unquote fuel r) as [t k| |] eqn:Eu; [|done|].
    + split; [done|]. intros ? ? [= _ <-]. specialize (H2 _ _ eq_refl). lia.
    + split; [|done]. intros Hf. exfalso. apply H1; [lia|done].
Qed.


Lemma scan_sign_length (s sign r : string) :
  scan_sign s = (sign, r) → String.length r ≤ String.length s.
Proof.
  unfold scan_sign. intros H. destruct s as [|c k]; [by injection H as _ <-|].
  destruct (code c =? 45)%N; injection H as _ <-; rewrite ?length_cons; lia.
Qed.

Lemma scan_fraction_length (s frac r : string) :
  scan_fraction s = Some (frac, r) → String.length r ≤ String.length s.
Proof.
  unfold scan_fraction. intros H. destruct s as [|c k]; [by injection H as _ <-|].
  destruct (code c =? 46)%N; [|by injection H as _ <-].
  destruct (take_digits k) as [fd r'] eqn:E. apply take_digits_length in E.
  destruct fd; [done|]. injection H as _ <-. rewrite !length_cons in *. lia.
Qed.

Lemma scan_exponent_length (s exp r : string) :
  scan_exponent s = Some (exp, r) → String.length r ≤ String.length s.
Proof.
  unfold scan_exponent, scan_exponent_sign. intros H.
  destruct s as [|c k]; [by injection H as _ <-|].
  destruct ((code c =? 101)%N || (code c =? 69)%N); [|by injection H as _ <-].
  assert (∀ esign r1 ed r2 (x : string), String.length r1 ≤ String.length k →
            take_digits r1 = (ed, r2) →
            match ed with
            | EmptyString => None
            | String _ _ => Some (String c esign +:+ ed, r2)
            end = Some (exp, r) → String.length r ≤ String.length (String c k)) as Haux.
  { intros esign r1 ed r2 _ Hr1 E Hm. apply take_digits_length in E.
    destruct ed; [done|]. injection Hm as _ <-. rewrite !length_cons in *. lia. }
  destruct k as [|g r'].
  - destruct (take_digits EmptyString) as [ed r2] eqn:E.
    eapply (Haux _ _ _ _ EmptyString); [|exact E|exact H]. done.
  - destruct ((code g =? 43)%N || (code g =? 45)%N).
    + destruct (take_digits r') as [ed r2] eqn:E.
      eapply (Haux _ _ _ _ EmptyString); [|exact E|exact H]. rewrite length_cons. lia.
    + destruct (take_digits (String g r')) as [ed r2] eqn:E.
      eapply (Haux _ _ _ _ EmptyString); [|exact E|exact H]. done.
Qed.

(** A number literal takes at least one byte. *)
Lemma scan_number_length (s lit k : string) :
  scan_number s = Some (lit, k) → String.length k < String.length s.
Proof.
  unfold scan_number. intros H.
  destruct (scan_sign s) as [sign s1] eqn:E1. apply scan_sign_length in E1.
  destruct (take_digits s1) as [int s2] eqn:E2. apply take_digits_length in E2.
  destruct int as [|d ds]; [done|]. rewrite length_cons in E2.
  destruct ((code d =? 48)%N && negb (String.eqb ds EmptyString)).
  - injection H as _ <-. rewrite length_app. lia.
  - destruct (scan_fraction s2) as [[frac s3]|] eqn:E3; [|done].
    apply scan_fraction_length in E3.
    destruct (scan_exponent s3) as [[exp s4]|] eqn:E4; [|done].
    apply scan_exponent_length in E4. injection H as _ <-. lia.
Qed.


Lemma literal_shorter (word : string) (v : json) (s : string) :
  0 < String.length word → shorter (literal word v s) s.
Proof.
  unfold literal, shorter. intros Hw a r H.
  destruct (strip_prefix word s) as [k|] eqn:E; [|done].
  injection H as _ <-. apply strip_prefix_length in E. lia.
Qed.

(** The parsers consume what they parse, and a counter of twice the length
    of the input (and two) never runs out. *)
Lemma parse_fuel_enough (fuel : nat) : ∀ (d : N) (s : string),
  ((2 * String.length s + 1 ≤ fuel → in_fuel (parse_value fuel d s)) ∧
   shorter (parse_value fuel d s) s) ∧
  ((2 * String.length s + 2 ≤ fuel → in_fuel (parse_members fuel d s)) ∧
   shorter (parse_members fuel d s) s) ∧
  ((2 * String.length s + 2 ≤ fuel → in_fuel (parse_elements fuel d s)) ∧
   shorter (parse_elements fuel d s) s).
Proof.
  induction fuel as [|fuel IH]; intros d s.
  { unfold in_fuel, shorter. repeat split; (lia || done). }
  pose proof (length_skip_space s) as Hs.
  split_and!.
  - (* a value, within the counter *)
    intros Hf. unfold in_fuel. cbn [parse_value].
    destruct (skip_space s) as [|c r] eqn:Es; [done|]. rewrite length_cons in Hs.
    destruct (code c =? 123)%N.
    { destruct (maxNestingDepth <=? d)%N; [done|].
      pose proof (length_skip_space r) as Hr.
      destruct (skip_space r) as [|c' r'] eqn:Er; [done|].
      destruct (code c' =? 125)%N; [done|].
      destruct (IH (d + 1)%N (String c' r')) as (_ & [H _] & _).
      destruct (parse_members fuel (d + 1) (String c' r')); try done.
      intros _. apply H; [lia|done]. }
    destruct (code c =? 91)%N.
    { destruct (maxNestingDepth <=? d)%N; [done|].
      pose proof (length_skip_space r) as Hr.
      destruct (skip_space r) as [|c' r'] eqn:Er; [done|].
      destruct (code c' =? 93)%N; [done|].
      destruct (IH (d + 1)%N (String c' r')) as (_ & _ & [H _]).
      destruct (parse_elements fuel (d + 1) (String c' r')); try done.
      intros _. apply H; [lia|done]. }
    destruct (code c =? 34)%N.
    { destruct (unquote_fuel (S (String.length r)) r) as [H _].
      destruct (unquote (S (String.length r)) r); try done.
      intros _. apply H; [lia|done]. }
    unfold literal.
    repeat match goal with |- context [if ?b then _ else _] => destruct b end;
      repeat match goal with |- context [match ?x with _ => _ end] => destruct x end; done.
  - (* a value is consumed *)
    unfold shorter. cbn [parse_value]. intros a k H.
    destruct (skip_space s) as [|c r] eqn:Es; [done|]. rewrite length_cons in Hs.
    destruct (code c =? 123)%N.
    { destruct (maxNestingDepth <=? d)%N; [done|].
      pose proof (length_skip_space r) as Hr.
      destruct (skip_space r) as [|c' r'] eqn:Er; [done|]. rewrite length_cons in Hr.
      destruct (code c' =? 125)%N; [injection H as _ <-; lia|].
      destruct (IH (d + 1)%N (String c' r')) as (_ & [_ H2] & _).
      destruct (parse_members fuel (d + 1) (String c' r')) as [ms k'| |]; try done.
      injection H as _ <-. specialize (H2 _ _ eq_refl). rewrite length_cons in H2. lia. }
    destruct (code c =? 91)%N.
    { destruct (maxNestingDepth <=? d)%N; [done|].
      pose proof (length_skip_space r) as Hr.
      destruct (skip_space r) as [|c' r'] eqn:Er; [done|]. rewrite length_cons in Hr.
      destruct (code c' =? 93)%N; [injection H as _ <-; lia|].
      destruct (IH (d + 1)%N (String c' r')) as (_ & _ & [_ H2]).
      destruct (parse_elements fuel (d + 1) (String c' r')) as [es k'| |]; try done.
      injection H as _ <-. specialize (H2 _ _ eq_refl). rewrite length_cons in H2. lia. }
    destruct (code c =? 34)%N.
    { destruct (unquote_fuel (S (String.length r)) r) as [_ H2].
      destruct (unquote (S (String.length r)) r) as [t k'| |]; try done.
      injection H as _ <-. specialize (H2 _ _ eq_refl). lia. }
    destruct (code c =? 116)%N.
    { apply literal_shorter in H; [|simpl; lia]. rewrite length_cons in H. lia. }
    destruct (code c =? 102)%N.
    { apply literal_shorter in H; [|simpl; lia]. rewrite length_cons in H. lia. }
    destruct (code c =? 110)%N.
    { apply literal_shorter in H; [|simpl; lia]. rewrite length_cons in H. lia. }
    destruct (scan_number (String c r)) as [[lit k']|] eqn:En; [|done].
    injection H as _ <-. apply scan_number_length in En. rewrite length_cons in En. lia.
  - (* members, within the counter *)
    intros Hf. unfold in_fuel. cbn [parse_members].
    destruct (skip_space s) as [|q r] eqn:Es; [done|]. rewrite length_cons in Hs.
    destruct (code q =? 34)%N; [|done].
    destruct (unquote_fuel (S (String.length r)) r) as [Hu1 Hu2].
    destruct (unquote (S (String.length r)) r) as [key k| |]; [|done|].
    2:{ intros _. apply Hu1; [lia|done]. }
    specialize (Hu2 _ _ eq_refl).
    pose proof (length_skip_space k) as Hk.
    destruct (skip_space k) as [|colon k'] eqn:Ek; [done|]. rewrite length_cons in Hk.
    destruct (code colon =? 58)%N; [|done].
    destruct (IH d k') as ([Hv1 Hv2] & _).
    destruct (parse_value fuel d k') as [v k''| |]; [|done|].
    2:{ intros _. apply Hv1; [lia|done]. }
    specialize (Hv2 _ _ eq_refl).
    pose proof (length_skip_space k'') as Hk''.
    destruct (skip_space k'') as [|dd rest] eqn:Ek''; [done|]. rewrite length_cons in Hk''.
    destruct (code dd =? 125)%N; [done|].
    destruct (code dd =? 44)%N; [|done].
    destruct (IH d rest) as (_ & [Hm1 _] & _).
    destruct (parse_members fuel d rest); try done.
    intros _. apply Hm1; [lia|done].
  - (* members are consumed *)
    unfold shorter. cbn [parse_members]. intros a kk H.
    destruct (skip_space s) as [|q r] eqn:Es; [done|]. rewrite length_cons in Hs.
    destruct (code q =? 34)%N; [|done].
    destruct (unquote_fuel (S (String.length r)) r) as [_ Hu2].
    destruct (unquote (S (String.length r)) r) as [key k| |]; try done.
    specialize (Hu2 _ _ eq_refl).
    pose proof (length_skip_space k) as Hk.
    destruct (skip_space k) as [|colon k'] eqn:Ek; [done|]. rewrite length_cons in Hk.
    destruct (code colon =? 58)%N; [|done].
    destruct (IH d k') as ([_ Hv2] & _).
    destruct (parse_value fuel d k') as [v k''| |]; try done.
    specialize (Hv2 _ _ eq_refl).
    pose proof (length_skip_space k'') as Hk''.
    destruct (skip_space k'') as [|dd rest] eqn:Ek''; [done|]. rewrite length_cons in Hk''.
    destruct (code dd =? 125)%N; [injection H as _ <-; lia|].
    destruct (code dd =? 44)%N; [|done].
    destruct (IH d rest) as (_ & [_ Hm2] & _).
    destruct (parse_members fuel d rest) as [ms rest'| |]; try done.
    injection H as _ <-. specialize (Hm2 _ _ eq_refl). lia.
  - (* elements, within the counter *)
    intros Hf. unfold in_fuel. cbn [parse_elements].
    destruct (IH d s) as ([Hv1 Hv2] & _).
    destruct (parse_value fuel d s) as [v k| |]; [|done|].
    2:{ intros _. apply Hv1; [lia|done]. }
    specialize (Hv2 _ _ eq_refl).
    pose proof (length_skip_space k) as Hk.
    destruct (skip_space k) as [|dd rest] eqn:Ek; [done|]. rewrite length_cons in Hk.
    destruct (code dd =? 93)%N; [done|].
    destruct (code dd =? 44)%N; [|done].
    destruct (IH d rest) as (_ & _ & [He1 _]).
    destruct (parse_elements fuel d rest); try done.
    intros _. apply He1; [lia|done].
  - (* elements are consumed *)
    unfold shorter. cbn [parse_elements]. intros a kk H.
    destruct (IH d s) as ([_ Hv2] & _).
    destruct (parse_value fuel d s) as [v k| |]; try done.
    specialize (Hv2 _ _ eq_refl).
    pose proof (length_skip_space k) as Hk.
    destruct (skip_space k) as [|dd rest] eqn:Ek; [done|]. rewrite length_cons in Hk.
    destruct (code dd =? 93)%N; [injection H as _ <-; lia|].
    destruct (code dd =? 44)%N; [|done].
    destruct (IH d rest) as (_ & _ & [_ He2]).
    destruct (parse_elements fuel d rest) as [es rest'| |]; try done.
    injection H as _ <-. specialize (He2 _ _ eq_refl). lia.
Qed.

(** [json_parse] never answers for want of fuel: where it gives [None], the
    bytes are not one JSON text. *)
Lemma json_parse_in_fuel (data : string) :
  parse_value (parse_fuel data) 0 data ≠ OutOfFuel.
Proof.
  destruct (parse_fuel_enough (parse_fuel data) 0%N data) as ([H _] & _).
  apply H. unfold parse_fuel. lia.
Qed.

End ParserFacts.

(** ** The JSON encoder *)

Module EncoderFacts.

Import Helpers.

Local Open Scope nat_scope.

Lemma all_of_map (P : value → bool) (m : gmap string value) :
  map_fold (λ _ x b, P x && b) true m = true ↔ ∀ k v, m !! k = Some v → P v = true.
Proof.
  apply (map_fold_weak_ind
           (λ r m, r = true ↔ ∀ k v, m !! k = Some v → P v = true)).
  - split; [intros _ k v; by rewrite lookup_empty | done].
  - intros i x m' r Hi IH. rewrite andb_true_iff, IH. split.
    + intros [Hx Hm] k v. destruct (decide (i = k)) as [->|Hne].
      * rewrite lookup_insert_eq. by intros [= <-].
      * rewrite lookup_insert_ne by done. apply Hm.
    + intros H. split.
      * apply (H i). by rewrite lookup_insert_eq.
      * intros k v Hk. apply (H k). rewrite lookup_insert_ne; [done|].
        intros ->. by rewrite Hi in Hk.
Qed.

Lemma value_size_lookup (m : gmap string value) (k : string) (v : value) :
  m !! k = Some v → value_size v < value_size (VMap m).
Proof.
  intros H. cbn [value_size].
  rewrite (map_fold_delete_L _ _ k v m); [lia| |done].
  intros. lia.
Qed.

Lemma value_size_elem (l : list value) (v : value) :
  v ∈ l → value_size v < value_size (VSlice l).
Proof.
  intros H. cbn [value_size]. induction H as [v l|v w l _ IH]; cbn [foldr]; lia.
Qed.

Section Encode.

Variable FormatFloat : float64 → string.

(** The encoder writes every value whose floats are finite. *)
Lemma encode_total (n : nat) : ∀ v,
  value_size v < n → encodable v = true → is_Some (encode FormatFloat v).
Proof.
  induction n as [|n IH]; intros v Hn Hv; [lia|].
  destruct v as [| [] |f|s|l|m]; cbn [encode]; try by eexists.
  - cbn [encodable] in Hv. rewrite Hv. by eexists.
  - apply fmap_is_Some, mapM_is_Some, Forall_forall. intros x Hx.
    cbn [encodable] in Hv. apply IH.
    + pose proof (value_size_elem l x Hx). lia.
    + rewrite forallb_forall in Hv. apply Hv. by apply list_elem_of_In.
  - apply fmap_is_Some, mapM_is_Some, Forall_forall. intros [k o] Hko.
    apply elem_of_map_to_list in Hko. rewrite lookup_fmap in Hko.
    destruct (m !! k) as [x|] eqn:Hk; [|done]. injection Hko as <-.
    cbn [encodable] in Hv. rewrite all_of_map in Hv.
    apply fmap_is_Some. apply IH.
    + pose proof (value_size_lookup m k x Hk). lia.
    + by apply (Hv k).
Qed.

End Encode.

Lemma ParseFloat_finite (lit : string) (f : float64) :
  ParseFloat lit = Some f → is_finite f = true.
Proof.
  unfold ParseFloat. intros H.
  destruct (decimal_of_literal lit) as [[neg ds] e].
  destruct (digits_value ds 0 =? 0)%Z; [by injection H as <-|].
  destruct (400 <? e)%Z; [done|].
  destruct (Z.of_nat (String.length ds) + e <? -400)%Z; [by injection H as <-|].
  match type of H with match ?x with _ => _ end = _ => destruct x end;
    try done; by injection H as <-.
Qed.

Lemma json_size_elem (es : list json) (j : json) :
  j ∈ es → json_size j < json_size (JArray es).
Proof.
  intros H. cbn [json_size]. induction H as [j l|j w l _ IH]; cbn [foldr]; lia.
Qed.

Lemma json_size_member (ms : list (string * json)) (k : string) (j : json) :
  (k, j) ∈ ms → json_size j < json_size (JObject ms).
Proof.
  intros H. cbn [json_size].
  induction ms as [|[k' j'] ms IH]; [by apply elem_of_nil in H|].
  cbn [foldr]. apply elem_of_cons in H as [[= -> ->]|H]; [lia|].
  specialize (IH H). lia.
Qed.

Definition all_encodable (m : gmap string value) : Prop :=
  ∀ k v, m !! k = Some v → encodable v = true.

Lemma decode_members_encodable (ms : list (string * json)) : ∀ acc m,
  (∀ k j v, (k, j) ∈ ms → to_value j = Some v → encodable v = true) →
  all_encodable acc →
  decode_members to_value ms acc = Some m →
  all_encodable m.
Proof.
  induction ms as [|[k j] ms IH]; intros acc m Hms Hacc H; cbn [decode_members] in H.
  - by injection H as <-.
  - destruct (to_value j) as [v|] eqn:Ev; [|done].
    apply (IH (<[k := v]> acc) m); [| |done].
    + intros k' j' v' Hin. apply (Hms k' j' v'). by right.
    + intros k' v'. destruct (decide (k = k')) as [->|Hne].
      * rewrite lookup_insert_eq. intros [= <-]. apply (Hms k' j v); [by left|done].
      * rewrite lookup_insert_ne by done. apply Hacc.
Qed.

(** The decoder makes values with finite floats only. *)
Lemma to_value_encodable (n : nat) : ∀ j v,
  json_size j < n → to_value j = Some v → encodable v = true.
Proof.
  induction n as [|n IH]; intros j v Hn H; [lia|].
  destruct j as [|b|lit|s|es|ms]; cbn [to_value] in H.
  - by injection H as <-.
  - by injection H as <-.
  - destruct (ParseFloat lit) as [f|] eqn:Ef; [|done]. injection H as <-.
    by apply ParseFloat_finite in Ef.
  - by injection H as <-.
  - destruct (mapM to_value es) as [l|] eqn:El; [|done]. injection H as <-.
    apply mapM_Some_1 in El. cbn [encodable]. apply forallb_forall.
    intros x Hx. apply list_elem_of_In in Hx.
    apply list_elem_of_lookup in Hx as [i Hi].
    destruct (Forall2_lookup_r _ _ _ _ _ El Hi) as (j & Hj & Hjx).
    apply (IH j); [|done].
    pose proof (json_size_elem es j (list_elem_of_lookup_2 _ _ _ Hj)). lia.
  - destruct (decode_members to_value ms ∅) as [m|] eqn:Em; [|done].
    injection H as <-. cbn [encodable]. apply all_of_map.
    apply (decode_members_encodable ms ∅ m); [| |done].
    + intros k j v Hin Hv. apply (IH j); [|done].
      pose proof (json_size_member ms k j Hin). lia.
    + intros k v. by rewrite lookup_empty.
Qed.

End EncoderFacts.

(** ** Merging JSON objects *)

Module HelpersFacts.

Import Helpers EncoderFacts.

Lemma merge_into_lookup (merged obj : gmap string value) (k : string) :
  merge_into merged obj !! k =
  match obj !! k with Some v => Some v | None => merged !! k end.
Proof.
  unfold merge_into. revert k.
  apply (map_fold_weak_ind
           (λ r m, ∀ k, r !! k = match m !! k with Some v => Some v | None => merged !! k end)).
  - intros k. by rewrite lookup_empty.
  - intros i x m r Hi IH k. destruct (decide (i = k)) as [->|Hne].
    + by rewrite !lookup_insert_eq.
    + rewrite !lookup_insert_ne by done. apply IH.
Qed.

Lemma Unmarshal_map_valid (data : string) (obj : gmap string value) :
  json_Unmarshal_map data = Ok obj → ValidateJSON data = true.
Proof.
  unfold json_Unmarshal_map, ValidateJSON, json_Valid. intros H.
  apply bool_decide_eq_true. destruct (json_parse data); [by eexists | done].
Qed.

(** When [json.Unmarshal] into a map fails: on bytes that are not JSON, on
    a value that is neither an object nor [null], and on an object with a
    number that no float64 holds. *)
Lemma Unmarshal_map_fails (data : string) :
  is_Err (json_Unmarshal_map data) = true ↔
  ValidateJSON data = false ∨
  ∃ j, json_parse data = Some j ∧
       match j with
       | JNull => False
       | JObject _ => to_value j = None
       | _ => True
       end.
Proof.
  unfold json_Unmarshal_map, ValidateJSON, json_Valid.
  destruct (json_parse data) as [j|] eqn:E.
  - split.
    + intros H. right. exists j. split; [done|].
      destruct j as [| | | | |ms]; try done.
      cbn [to_value] in *.
      match goal with |- context [fmap VMap ?x] => destruct x end; done.
    + intros [H|(j' & [= <-] & H)].
      { apply bool_decide_eq_false in H. destruct H. by eexists. }
      destruct j as [| | | | |ms]; try done. by rewrite H.
  - split; [intros _; left; apply bool_decide_eq_false; by intros [? ?] | done].
Qed.

(** What [json.Unmarshal] puts in a map can be written again. *)
Lemma Unmarshal_map_encodable (data : string) (obj : gmap string value) :
  json_Unmarshal_map data = Ok obj → all_encodable obj.
Proof.
  unfold json_Unmarshal_map. intros H.
  destruct (json_parse data) as [[| | | | |ms]|]; try done.
  - injection H as <-. intros k v. by rewrite lookup_empty.
  - destruct (to_value (JObject ms)) as [[| | | | |m]|] eqn:E; try done.
    injection H as <-.
    pose proof (to_value_encodable _ _ _ (Nat.lt_succ_diag_r _) E) as He.
    cbn [encodable] in He. exact (proj1 (all_of_map encodable m) He).
Qed.

Lemma latest_encodable (objs : list (gmap string value)) (k : string) :
  Forall all_encodable objs →
  ∀ found v,
    (∀ w, found = Some w → encodable w = true) →
    foldl (λ found obj, match obj !! k with Some v => Some v | None => found end)
          found objs = Some v →
    encodable v = true.
Proof.
  induction 1 as [|obj objs Hobj _ IH]; intros found v Hf H; cbn [foldl] in H.
  - by apply Hf.
  - apply (IH _ v) in H; [done|]. intros w.
    destruct (obj !! k) as [x|] eqn:Ex; [|apply Hf].
    intros [= <-]. by apply (Hobj k).
Qed.

Section Merge.

Variable FormatFloat : float64 → string.

(** The loop leaves, for every key, the value of the latest object that
    has it, or what was there before. *)
Lemma merge_loop_ok (jsonObjects : list string) (objs : list (gmap string value)) :
  Forall2 (λ data obj, json_Unmarshal_map data = Ok obj) jsonObjects objs →
  ∀ merged, ∃ merged',
    merge_loop jsonObjects merged = Ok merged' ∧
    ∀ k, merged' !! k =
         foldl (λ found obj, match obj !! k with Some v => Some v | None => found end)
               (merged !! k) objs.
Proof.
  induction 1 as [|data obj jsonObjects objs Hd _ IH]; intros merged.
  - by exists merged.
  - cbn [merge_loop foldl]. rewrite (Unmarshal_map_valid _ _ Hd), Hd. cbn [negb].
    destruct (IH (merge_into merged obj)) as (merged' & -> & Hk).
    exists merged'. split; [done|]. intros k. by rewrite Hk, merge_into_lookup.
Qed.

Lemma merge_loop_fails (jsonObjects : list string) (jsonData : string) :
  jsonData ∈ jsonObjects →
  is_Err (json_Unmarshal_map jsonData) = true →
  ∀ merged, is_Err (merge_loop jsonObjects merged) = true.
Proof.
  intros Hin Hbad. induction jsonObjects as [|d rest IH]; intros merged.
  - by apply elem_of_nil in Hin.
  - cbn [merge_loop]. destruct (negb (ValidateJSON d)); [done|].
    destruct (json_Unmarshal_map d) as [obj|e] eqn:Hd; [|done].
    apply elem_of_cons in Hin as [->|Hin].
    + by rewrite Hd in Hbad.
    + by apply IH.
Qed.

(** C4 (as amended). Merging no input gives [{}].  The merge fails when
    any input is not valid JSON, or is a JSON value other than an object or
    [null], or is an object with a number out of range; a [null] input is
    taken and adds no key.  Otherwise the merge succeeds, and its result is
    what [json.Marshal] writes for the map in which every key has the value
    of the latest input that has the key (one level deep: values are taken
    whole). *)
Theorem MergeJSON_merges (jsonObjects : list string) :
  (jsonObjects = [] → MergeJSON FormatFloat jsonObjects = Ok "{}") ∧
  (∀ jsonData, jsonData ∈ jsonObjects →
     ValidateJSON jsonData = false ∨
     (∃ j, json_parse jsonData = Some j ∧
           match j with
           | JNull => False
           | JObject _ => to_value j = None
           | _ => True
           end) →
     is_Err (MergeJSON FormatFloat jsonObjects) = true) ∧
  (∀ jsonData, json_parse jsonData = Some JNull → json_Unmarshal_map jsonData = Ok ∅) ∧
  (∀ objs, jsonObjects ≠ [] →
     Forall2 (λ data obj, json_Unmarshal_map data = Ok obj) jsonObjects objs →
     ∃ merged data,
       MergeJSON FormatFloat jsonObjects = Ok data ∧
       json_Marshal FormatFloat (VMap merged) = Ok data ∧
       ∀ k, merged !! k = latest objs k).
Proof.
  split_and!.
  - by intros ->.
  - intros jsonData Hin Hbad. apply Unmarshal_map_fails in Hbad.
    unfold MergeJSON. destruct jsonObjects as [|d rest]; [by apply elem_of_nil in Hin|].
    cbn [length Nat.eqb].
    pose proof (merge_loop_fails (d :: rest) jsonData Hin Hbad ∅) as H.
    by destruct (merge_loop (d :: rest) ∅).
  - intros jsonData H. unfold json_Unmarshal_map. by rewrite H.
  - intros objs Hne Hall. unfold MergeJSON.
    destruct jsonObjects as [|d rest]; [done|]. cbn [length Nat.eqb].
    destruct (merge_loop_ok (d :: rest) objs Hall ∅) as (merged & -> & Hk).
    assert (∀ k, merged !! k = latest objs k) as Hl.
    { intros k. rewrite Hk. by rewrite lookup_empty. }
    assert (all_encodable merged) as He.
    { intros k v Hv. rewrite Hl in Hv.
      apply (latest_encodable objs k) with (found := None) (v := v); [|done..].
      eapply Forall2_Forall_r; [exact Hall|]. apply Forall_forall.
      intros data _ obj. apply Unmarshal_map_encodable. }
    assert (encodable (VMap merged) = true) as Hm.
    { cbn [encodable]. exact (proj2 (all_of_map encodable merged) He). }
    destruct (encode_total FormatFloat _ (VMap merged) (Nat.lt_succ_diag_r _) Hm)
      as [data Hd].
    exists merged, data. unfold json_Marshal. by rewrite Hd.
Qed.

End Merge.

Lemma MergeJSON_merges_witness :
  (∃ merged data,
     MergeJSON Examples.FormatFloat_integral Examples.merge_inputs = Ok data ∧
     json_Marshal Examples.FormatFloat_integral (VMap merged) = Ok data ∧
     merged !! "b" = Some (VFloat (of_int 3)) ∧
     merged !! "c" = Some (VFloat (of_int 5))) ∧
  is_Err (MergeJSON Examples.FormatFloat_integral
            [Examples.js "{'a':1}"; Examples.js "{invalid}"]) = true.
Proof.
  split.
  - pose proof (MergeJSON_merges Examples.FormatFloat_integral Examples.merge_inputs)
      as (_ & _ & _ & H).
    edestruct H as (merged & data & Hm & Hd & Hk).
    + discriminate.
    + unfold Examples.merge_inputs.
      repeat (apply Forall2_cons; split; [vm_compute; reflexivity|]). apply Forall2_nil_2.
    + exists merged, data. split; [exact Hm|]. split; [exact Hd|].
      split; rewrite Hk; vm_compute; reflexivity.
  - pose proof (MergeJSON_merges Examples.FormatFloat_integral
                  [Examples.js "{'a':1}"; Examples.js "{invalid}"]) as (_ & H & _).
    apply (H (Examples.js "{invalid}")).
    + apply elem_of_cons. right. apply elem_of_cons. by left.
    + left. vm_compute. reflexivity.
Defined.

(** [null] is valid JSON and no object, and the merge takes it. *)
Lemma MergeJSON_takes_null :
  json_parse "null" = Some JNull ∧
  MergeJSON (λ _, EmptyString) ["null"] = Ok "{}" ∧
  is_Err (MergeJSON (λ _, EmptyString) ["null"]) = false.
Proof. split_and!; by vm_compute. Qed.

(** The formatter has no part in that. *)
Lemma MergeJSON_null (FormatFloat : float64 → string) :
  MergeJSON FormatFloat ["null"] = Ok "{}".
Proof. by vm_compute. Qed.

(** The merge of the package's test, as bytes. *)
Lemma MergeJSON_test :
  MergeJSON Examples.FormatFloat_integral Examples.merge_inputs
  = Ok (Examples.js "{'a':1,'b':3,'c':5,'d':6}").
Proof. by vm_compute. Qed.

End HelpersFacts.

(** ** Loggers of a context *)

Module LoggerFacts.

Import Logger.

(** C9. [FromContext] gives the logger attached to the context when there
    is one; otherwise, when the context holds a non-empty string under
    [RequestID], the process-wide logger with that string in the field
    [request_id]; otherwise (also for a nil context) the process-wide logger
    as it is. *)
Theorem FromContext_cases (Logger : ZapLogger) (ctx : option Context) :
  (∀ c logger, ctx = Some c → Value c loggerKey = AnyLogger logger →
     FromContext Logger ctx = logger) ∧
  (∀ c requestID, ctx = Some c →
     (∀ logger, Value c loggerKey ≠ AnyLogger logger) →
     Value c RequestID = AnyString requestID →
     requestID ≠ EmptyString →
     FromContext Logger ctx
     = Some (With Logger [{| field_key := "request_id"; field_value := requestID |}])) ∧
  (ctx = None ∨
   (∃ c, ctx = Some c ∧
         (∀ logger, Value c loggerKey ≠ AnyLogger logger) ∧
         (∀ requestID, Value c RequestID = AnyString requestID → requestID = EmptyString)) →
   FromContext Logger ctx = Some Logger) ∧
  (∀ c logger, FromContext Logger (Some (WithContext c logger)) = logger).
Proof.
  split_and!.
  - intros c logger -> H. simpl. by rewrite H.
  - intros c requestID -> Hno Hid Hne. simpl.
    destruct (Value c loggerKey) as [|l| |] eqn:E; try (by rewrite Hid;
      destruct (String.eqb_spec requestID EmptyString)).
    by destruct (Hno l).
  - intros [->|(c & -> & Hno & Hid)]; [done|]. simpl.
    destruct (Value c loggerKey) as [|l| |] eqn:E;
      try (destruct (Value c RequestID) as [| |requestID|] eqn:E2; try done;
           by rewrite (Hid requestID eq_refl)).
    by destruct (Hno l).
  - done.
Qed.

Lemma FromContext_cases_witness :
  FromContext Examples.global_logger
    (Some (WithContext Examples.ctx_with_id (Some Examples.request_logger)))
    = Some Examples.request_logger ∧
  FromContext Examples.global_logger (Some Examples.ctx_with_id)
    = Some {| zap_core := 1;
              zap_fields := [{| field_key := "request_id"; field_value := "req-123" |}] |} ∧
  FromContext Examples.global_logger (Some Background) = Some Examples.global_logger.
Proof.
  pose proof (FromContext_cases Examples.global_logger
                (Some (WithContext Examples.ctx_with_id (Some Examples.request_logger))))
    as (H1 & _).
  pose proof (FromContext_cases Examples.global_logger (Some Examples.ctx_with_id))
    as (_ & H2 & _).
  pose proof (FromContext_cases Examples.global_logger (Some Background))
    as (_ & _ & H3 & _).
  split_and!.
  - exact (H1 _ _ eq_refl eq_refl).
  - apply (H2 Examples.ctx_with_id "req-123" eq_refl); [|reflexivity|discriminate].
    intros logger. vm_compute. discriminate.
  - apply H3. right. exists Background. split; [reflexivity|]. split.
    + intros logger. vm_compute. discriminate.
    + intros requestID. vm_compute. discriminate.
Defined.

End LoggerFacts.

(** ** More on the retry loop *)

Module RetryFacts.

Import Client Timing StringFacts ClientFacts.

Section Loop.

Context `{lib : Library} `{world : !World}.
Implicit Types (rc : RESTClient) (req : HttpRequest) (lg : Log).

Lemma retry_loop_mono rc req todo : ∀ a lastErr lg,
  (dispatched lg ≤ dispatched (retry_loop rc req todo a lastErr lg).2)%nat.
Proof.
  induction todo as [|todo IH]; intros a lastErr lg; [done|].
  rewrite retry_loop_step.
  destruct (if (0 <? a)%nat then _ else None); [done|].
  cbv zeta. destruct (retryable _).
  - etrans; [|apply IH]. rewrite step_log. lia.
  - cbn [snd]. rewrite step_log. lia.
Qed.

Lemma step_waited rc req a lg :
  waited (executeRequest rc req
     (if (0 <? a)%nat then (backoff_wait req a (calculateBackoff rc (Z.of_nat a)) lg).2 else lg)).2
  = waited lg ++ (if (0 <? a)%nat
                  then match ctx_Done req a (calculateBackoff rc (Z.of_nat a)) with
                       | Some _ => []
                       | None => [delay_before rc a]
                       end
                  else []).
Proof.
  destruct (executeRequest_log rc req
     (if (0 <? a)%nat then (backoff_wait req a (calculateBackoff rc (Z.of_nat a)) lg).2 else lg))
    as (_ & -> & _).
  destruct (0 <? a)%nat; [|by rewrite app_nil_r].
  unfold backoff_wait. destruct (ctx_Done _ _ _); [by rewrite app_nil_r|done].
Qed.

(** The waits of the loop: one before every dispatch but that of index 0. *)
Lemma retry_loop_waits rc req todo : ∀ a lastErr lg,
  let out := retry_loop rc req todo a lastErr lg in
  waited out.2 =
  waited lg ++ (delay_before rc <$>
                  filter (λ i, (0 < i)%nat) (seq a (dispatched out.2 - dispatched lg))).
Proof.
  induction todo as [|todo IH]; intros a lastErr lg; cbv zeta.
  { cbn [retry_loop snd]. rewrite Nat.sub_diag. cbn. by rewrite app_nil_r. }
  rewrite retry_loop_step.
  destruct (0 <? a)%nat eqn:Ha.
  - destruct (ctx_Done req a (calculateBackoff rc (Z.of_nat a))) as [c|] eqn:Hd.
    { cbn [snd]. rewrite Nat.sub_diag. cbn. by rewrite app_nil_r. }
    cbv zeta. apply Nat.ltb_lt in Ha.
    pose proof (step_waited rc req a lg) as Hw.
    pose proof (step_log rc req a lg) as Hs.
    rewrite (proj2 (Nat.ltb_lt 0 a) Ha) in Hw, Hs. rewrite Hd in Hw.
    destruct (retryable _).
    + specialize (IH (S a) (failure_error (attempt_result rc req (dispatched lg)))
                     (executeRequest rc req (backoff_wait req a (calculateBackoff rc (Z.of_nat a)) lg).2).2).
      cbv zeta in IH.
      pose proof (retry_loop_mono rc req todo (S a)
                    (failure_error (attempt_result rc req (dispatched lg)))
                    (executeRequest rc req (backoff_wait req a (calculateBackoff rc (Z.of_nat a)) lg).2).2)
        as Hm.
      rewrite IH, Hw, Hs. rewrite Hs in Hm.
      replace (dispatched _ - dispatched lg)%nat
        with (S (dispatched (retry_loop rc req todo (S a)
                    (failure_error (attempt_result rc req (dispatched lg)))
                    (executeRequest rc req (backoff_wait req a (calculateBackoff rc (Z.of_nat a)) lg).2).2).2
                 - S (dispatched lg)))%nat by lia.
      cbn [seq]. rewrite filter_cons_True by done.
      rewrite fmap_cons, <- app_assoc. done.
    + cbn [snd]. rewrite Hw, Hs.
      replace (S (dispatched lg) - dispatched lg)%nat with 1%nat by lia.
      cbn [seq]. rewrite filter_cons_True by done. done.
  - cbv zeta. apply Nat.ltb_ge in Ha. assert (a = 0%nat) as -> by lia.
    pose proof (step_waited rc req 0 lg) as Hw.
    pose proof (step_log rc req 0 lg) as Hs.
    cbn [Nat.ltb Nat.leb] in Hw, Hs. rewrite app_nil_r in Hw.
    destruct (retryable _).
    + specialize (IH 1%nat (failure_error (attempt_result rc req (dispatched lg)))
                     (executeRequest rc req lg).2).
      cbv zeta in IH.
      pose proof (retry_loop_mono rc req todo 1
                    (failure_error (attempt_result rc req (dispatched lg)))
                    (executeRequest rc req lg).2) as Hm.
      rewrite IH, Hw, Hs. rewrite Hs in Hm.
      replace (dispatched _ - dispatched lg)%nat
        with (S (dispatched (retry_loop rc req todo 1
                    (failure_error (attempt_result rc req (dispatched lg)))
                    (executeRequest rc req lg).2).2
                 - S (dispatched lg)))%nat by lia.
      cbn [seq]. rewrite filter_cons_False by lia. done.
    + cbn [snd]. rewrite Hw, Hs.
      replace (S (dispatched lg) - dispatched lg)%nat with 1%nat by lia.
      cbn [seq]. rewrite filter_cons_False by lia. cbn. by rewrite app_nil_r.
Qed.

Lemma filter_positive_seq (n : nat) :
  filter (λ i, (0 < i)%nat) (seq 0 n) = seq 1 (n - 1).
Proof.
  assert (∀ m a, (0 < a)%nat → filter (λ i, (0 < i)%nat) (seq a m) = seq a m) as H.
  { induction m as [|m IH]; intros a Ha; [done|].
    cbn [seq]. rewrite filter_cons_True by done. rewrite IH by lia. done. }
  destruct n as [|n]; [done|].
  cbn [seq]. rewrite filter_cons_False by lia.
  replace (S n - 1)%nat with n by lia. apply H. lia.
Qed.

Lemma calculateBackoff_le_max rc (r : RetryConfig) (attempt : Z) :
  retry rc = Some r → calculateBackoff rc attempt ≤ MaxBackoff r.
Proof.
  intros Hr. unfold calculateBackoff. rewrite Hr. cbv zeta.
  destruct (MaxBackoff r <? _) eqn:E; [lia|]. by apply Z.ltb_ge in E.
Qed.

(** X1. The loop waits only between dispatches: before the dispatch of loop
    index [i], for [i] from 1 on, it sits through [calculateBackoff(i)], which
    is never more than [MaxBackoff]; it waits neither before the first
    dispatch nor after the last.  The first dispatch is always made when the
    policy allows one attempt: the context is looked at during waits only. *)
Theorem waits_between_attempts rc req (r : RetryConfig) lg :
  retry rc = Some r →
  let out := executeWithRetry rc req lg in
  let sent := (dispatched out.2 - dispatched lg)%nat in
  waited out.2 = waited lg ++ (delay_before rc <$> seq 1 (sent - 1)) ∧
  Forall (λ d, d ≤ MaxBackoff r) (delay_before rc <$> seq 1 (sent - 1)) ∧
  (sent ≤ Z.to_nat (MaxAttempts r))%nat ∧
  (1 ≤ MaxAttempts r → (1 ≤ sent)%nat).
Proof.
  intros Hr. cbv zeta. unfold executeWithRetry. split_and!.
  - rewrite retry_loop_waits. by rewrite filter_positive_seq.
  - apply Forall_fmap, Forall_forall. intros i _. by apply calculateBackoff_le_max.
  - pose proof (retry_loop_bound rc req (Z.to_nat (getMaxAttempts rc)) 0 None lg) as Hb.
    unfold getMaxAttempts in *. rewrite Hr in *. lia.
  - intros Hm. unfold getMaxAttempts. rewrite Hr.
    destruct (Z.to_nat (MaxAttempts r)) as [|todo] eqn:E; [lia|].
    rewrite retry_loop_step. cbn [Nat.ltb Nat.leb]. cbv zeta.
    pose proof (step_log rc req 0 lg) as Hs. cbn [Nat.ltb Nat.leb] in Hs.
    destruct (retryable _).
    + pose proof (retry_loop_mono rc req todo 1
                    (failure_error (attempt_result rc req (dispatched lg)))
                    (executeRequest rc req lg).2) as Hmono.
      rewrite Hs in Hmono. lia.
    + cbn [snd]. rewrite Hs. lia.
Qed.

Lemma shouldRetry_false (statusCode : Z) :
  shouldRetry statusCode = false ↔ statusCode < 500 ∧ statusCode ≠ 429 ∧ statusCode ≠ 408.
Proof. unfold shouldRetry. rewrite !orb_false_iff, Z.leb_gt, !Z.eqb_neq. tauto. Qed.

(** X2. Under a retry policy that allows an attempt, an answer whose status is
    below 500 and neither 429 nor 408 ends the call: it is returned after one
    dispatch and no wait, be it a success or a client error such as 404.  A
    2xx answer is always of that kind. *)
Theorem final_answer_is_not_retried rc req (r : RetryConfig) (resp : Response) lg :
  retry rc = Some r →
  1 ≤ MaxAttempts r →
  attempt_result rc req (dispatched lg) = Ok resp →
  StatusCode resp < 500 → StatusCode resp ≠ 429 → StatusCode resp ≠ 408 →
  let out := executeWithRetry rc req lg in
  out.1 = Ok resp ∧
  dispatched out.2 = S (dispatched lg) ∧
  waited out.2 = waited lg ∧
  (∀ resp' : Response, IsSuccess resp' = true → shouldRetry (StatusCode resp') = false).
Proof.
  intros Hr Hm Ha H5 H429 H408. cbv zeta. unfold executeWithRetry, getMaxAttempts. rewrite Hr.
  destruct (Z.to_nat (MaxAttempts r)) as [|todo] eqn:E; [lia|].
  rewrite retry_loop_step. cbn [Nat.ltb Nat.leb]. cbv zeta.
  rewrite Ha. cbn [retryable].
  rewrite (proj2 (shouldRetry_false (StatusCode resp))) by done.
  cbn [fst snd]. destruct (executeRequest_log rc req lg) as (Hd & Hw & _).
  split_and!; try done.
  intros resp'. unfold IsSuccess. rewrite andb_true_iff, Z.leb_le, Z.ltb_lt.
  intros [? ?]. apply shouldRetry_false. lia.
Qed.

(** X3. A retry policy whose [MaxAttempts] is zero or negative sends nothing:
    the call fails with [max retries exceeded] around a nil error. *)
Theorem no_attempt_without_max_attempts (σ : store) rc (config : RequestConfig)
    (r : RetryConfig) req lg :
  retry rc = Some r →
  MaxAttempts r ≤ 0 →
  createRequest σ rc config = Ok req →
  Request σ rc config lg = (Err (Errorf "max retries exceeded" None), lg).
Proof.
  intros Hr Hm Hreq. unfold Request. rewrite Hreq, Hr.
  unfold executeWithRetry, getMaxAttempts. rewrite Hr.
  by replace (Z.to_nat (MaxAttempts r)) with 0%nat by lia.
Qed.

Lemma rejected_attempt rc req (cb : CircuitBreaker) (n : nat) (e : error) :
  circuitBreaker rc = Some cb →
  breaker_rejects cb n = Some e →
  attempt_result rc req n = Err (Errorf "circuit breaker" (Some e)).
Proof.
  intros Hcb He. unfold attempt_result, executeRequest. cbn [dispatched].
  by rewrite Hcb, He.
Qed.

Lemma rejected_round_trips rc req (cb : CircuitBreaker) lg :
  circuitBreaker rc = Some cb →
  is_Some (breaker_rejects cb (dispatched lg)) →
  round_trips (executeRequest rc req lg).2 = round_trips lg.
Proof.
  intros Hcb [e He]. unfold executeRequest. by rewrite Hcb, He.
Qed.

Lemma backoff_wait_round_trips req n d lg :
  round_trips (backoff_wait req n d lg).2 = round_trips lg.
Proof. unfold backoff_wait. by destruct (ctx_Done req n d). Qed.

Lemma retry_loop_rejected rc req (cb : CircuitBreaker) todo : ∀ a lastErr lg,
  circuitBreaker rc = Some cb →
  (∀ n, is_Some (breaker_rejects cb n)) →
  round_trips (retry_loop rc req todo a lastErr lg).2 = round_trips lg.
Proof.
  induction todo as [|todo IH]; intros a lastErr lg Hcb Hrej; [done|].
  rewrite retry_loop_step.
  destruct (if (0 <? a)%nat then _ else None); [done|].
  cbv zeta.
  assert (round_trips (executeRequest rc req
            (if (0 <? a)%nat
             then (backoff_wait req a (calculateBackoff rc (Z.of_nat a)) lg).2 else lg)).2
          = round_trips lg) as Hrt.
  { rewrite (rejected_round_trips rc req cb) by done.
    destruct (0 <? a)%nat; [apply backoff_wait_round_trips | done]. }
  destruct (retryable _).
  - by rewrite IH.
  - done.
Qed.

(** X4. While the breaker turns every dispatch away, a client with a retry
    policy still spends all its attempts (and the waits between them) without
    one round trip of the transport, and fails with [max retries exceeded]
    around the breaker's last error. *)
Theorem open_breaker_is_retried rc req (r : RetryConfig) (cb : CircuitBreaker)
    (e : nat → error) :
  retry rc = Some r →
  circuitBreaker rc = Some cb →
  1 ≤ MaxAttempts r →
  (∀ n, breaker_rejects cb n = Some (e n)) →
  (∀ n, (0 < n < Z.to_nat (MaxAttempts r))%nat →
        ctx_Done req n (calculateBackoff rc (Z.of_nat n)) = None) →
  let out := executeWithRetry rc req no_Log in
  round_trips out.2 = 0%nat ∧
  dispatched out.2 = Z.to_nat (MaxAttempts r) ∧
  length (waited out.2) = (Z.to_nat (MaxAttempts r) - 1)%nat ∧
  out.1 = Err (Errorf "max retries exceeded"
                 (Some (Errorf "circuit breaker"
                          (Some (e (Z.to_nat (MaxAttempts r) - 1)%nat))))).
Proof.
  intros Hr Hcb Hm Hrej Hctx. cbv zeta.
  pose proof (retry_loop_waits rc req (Z.to_nat (getMaxAttempts rc)) 0 None no_Log) as Hw.
  cbv zeta in Hw. rewrite filter_positive_seq in Hw.
  unfold executeWithRetry in *. unfold getMaxAttempts in *. rewrite Hr in *.
  destruct (retry_loop_exhausted rc req (Z.to_nat (MaxAttempts r)) 0 None no_Log) as [Hd He].
  - done.
  - intros n _. by rewrite (rejected_attempt rc req cb n (e n)).
  - intros n Hn Hlt. apply Hctx. lia.
  - cbv zeta in Hd, He. split_and!.
    + rewrite (retry_loop_rejected rc req cb); [done..|]. intros n. by rewrite Hrej.
    + by rewrite Hd.
    + rewrite Hw, Hd. cbn [waited no_Log app]. rewrite length_fmap, length_seq. cbn. lia.
    + rewrite He. destruct (Z.to_nat (MaxAttempts r)) as [|m] eqn:E; [lia|].
      rewrite (rejected_attempt rc req cb _ (e (0 + S m - 1)%nat)) by done.
      cbn [failure_error]. by replace (0 + S m - 1)%nat with (S m - 1)%nat by lia.
Qed.

Lemma retry_loop_round_trips rc req todo : ∀ a lastErr lg,
  let out := retry_loop rc req todo a lastErr lg in
  (round_trips lg ≤ round_trips out.2)%nat ∧
  (round_trips out.2 - round_trips lg ≤ dispatched out.2 - dispatched lg)%nat ∧
  (circuitBreaker rc = None →
   round_trips out.2 - round_trips lg = dispatched out.2 - dispatched lg)%nat.
Proof.
  induction todo as [|todo IH]; intros a lastErr lg; cbv zeta.
  { cbn [retry_loop snd]. split_and!; [done|lia|intros; lia]. }
  rewrite retry_loop_step.
  destruct (if (0 <? a)%nat then _ else None); [cbn [snd]; split_and!; [done|lia|intros; lia]|].
  cbv zeta.
  set (lg1 := if (0 <? a)%nat
              then (backoff_wait req a (calculateBackoff rc (Z.of_nat a)) lg).2 else lg).
  assert (round_trips lg1 = round_trips lg) as H1.
  { unfold lg1. destruct (0 <? a)%nat; [apply backoff_wait_round_trips | done]. }
  pose proof (step_log rc req a lg) as Hs. fold lg1 in Hs.
  destruct (executeRequest_log rc req lg1) as (_ & _ & Hrt). rewrite H1 in Hrt.
  assert (circuitBreaker rc = None →
          round_trips (executeRequest rc req lg1).2 = S (round_trips lg)) as Hnb.
  { intros Hcb. rewrite executeRequest_round_trip by done. by rewrite H1. }
  destruct (retryable _).
  - specialize (IH (S a) (failure_error (attempt_result rc req (dispatched lg)))
                   (executeRequest rc req lg1).2).
    cbv zeta in IH. destruct IH as (IH1 & IH2 & IH3).
    pose proof (retry_loop_mono rc req todo (S a)
                  (failure_error (attempt_result rc req (dispatched lg)))
                  (executeRequest rc req lg1).2) as Hm.
    rewrite Hs in IH2, Hm. split_and!; [lia|lia|].
    intros Hcb. specialize (IH3 Hcb). specialize (Hnb Hcb). rewrite Hs in IH3. lia.
  - cbn [snd]. rewrite Hs. split_and!; [lia|lia|].
    intros Hcb. specialize (Hnb Hcb). lia.
Qed.

(** X5. What a call sends: the transport is reached at most once per dispatch
    and exactly once per dispatch when the client has no breaker; a call whose
    request cannot be made sends nothing and comes back with the error of
    [createRequest]. *)
Theorem round_trips_of_a_call (σ : store) rc (config : RequestConfig) lg :
  let out := Request σ rc config lg in
  (round_trips lg ≤ round_trips out.2)%nat ∧
  (dispatched lg ≤ dispatched out.2)%nat ∧
  (round_trips out.2 - round_trips lg ≤ dispatched out.2 - dispatched lg)%nat ∧
  (circuitBreaker rc = None →
   round_trips out.2 - round_trips lg = dispatched out.2 - dispatched lg)%nat ∧
  (∀ e, createRequest σ rc config = Err e → out = (Err e, lg)).
Proof.
  cbv zeta. unfold Request.
  destruct (createRequest σ rc config) as [req|e].
  - destruct (retry rc) as [r|].
    + unfold executeWithRetry.
      destruct (retry_loop_round_trips rc req (Z.to_nat (getMaxAttempts rc)) 0 None lg)
        as (H1 & H2 & H3).
      pose proof (retry_loop_mono rc req (Z.to_nat (getMaxAttempts rc)) 0 None lg).
      split_and!; try done.
    + destruct (executeRequest_log rc req lg) as (Hd & _ & Hrt).
      split_and!; [lia|lia|lia| |done].
      intros Hcb. rewrite executeRequest_round_trip by done. lia.
  - cbn [snd]. split_and!; [lia|lia|lia|intros; lia|]. by intros e' [= ->].
Qed.

End Loop.

End RetryFacts.

(** ** Maps filled key by key *)

Module MapFacts.

Section Fold.

Context {V W : Type}.

Lemma foldl_insert_lookup (g : V → W) (l : list (string * V)) : ∀ (m : gmap string W) (k : string),
  NoDup l.*1 →
  foldl (λ m (kv : string * V), <[kv.1 := g kv.2]> m) m l !! k =
  match (list_to_map l : gmap string V) !! k with
  | Some v => Some (g v)
  | None => m !! k
  end.
Proof.
  induction l as [|[k0 v0] l IH]; intros m k Hnd; [done|].
  apply NoDup_cons in Hnd as [Hk0 Hnd]. cbn [foldl fst snd].
  rewrite IH by done. rewrite list_to_map_cons.
  destruct (decide (k = k0)) as [->|Hne].
  - rewrite (not_elem_of_list_to_map_1 _ _ Hk0). by rewrite !lookup_insert_eq.
  - by rewrite !lookup_insert_ne.
Qed.

(** Writing the entries of a map into another, in any order. *)
Lemma foldl_insert_range (g : V → W) (l : list (string * V)) (ps : gmap string V)
    (m : gmap string W) (k : string) :
  l ≡ₚ map_to_list ps →
  foldl (λ m (kv : string * V), <[kv.1 := g kv.2]> m) m l !! k =
  match ps !! k with
  | Some v => Some (g v)
  | None => m !! k
  end.
Proof.
  intros Hp.
  assert (NoDup l.*1) as Hnd.
  { rewrite Hp. apply NoDup_fst_map_to_list. }
  rewrite foldl_insert_lookup by done.
  rewrite (list_to_map_proper l (map_to_list ps)) by done.
  by rewrite list_to_map_to_list.
Qed.

End Fold.

Lemma map_fold_insert_lookup {V} (m0 hs : gmap string V) (k : string) :
  map_fold (λ k v m, <[k := v]> m) m0 hs !! k =
  match hs !! k with Some v => Some v | None => m0 !! k end.
Proof.
  revert k.
  apply (map_fold_weak_ind
           (λ r m, ∀ k, r !! k = match m !! k with Some v => Some v | None => m0 !! k end)).
  - intros k. by rewrite lookup_empty.
  - intros i x m r Hi IH k. destruct (decide (i = k)) as [->|Hne].
    + by rewrite !lookup_insert_eq.
    + rewrite !lookup_insert_ne by done. apply IH.
Qed.

End MapFacts.

(** ** The builder and the clients it makes *)

Module BuilderFacts.

Import Client StringFacts ClientFacts MapFacts.

Lemma deref_insert (σ : store) (l : loc) (m : headers) : deref (<[l := m]> σ) l = m.
Proof. unfold deref. by rewrite lookup_insert_eq. Qed.

Lemma foldl_WithDefaultHeader (b : ClientBuilder) (l : list (string * string)) : ∀ σ,
  deref (foldl (λ σ kv, WithDefaultHeader kv.1 kv.2 b σ) σ l) (b_defaultHeaders b)
  = foldl (λ m (kv : string * string), <[kv.1 := kv.2]> m) (deref σ (b_defaultHeaders b)) l.
Proof.
  induction l as [|[k v] l IH]; intros σ; [done|].
  cbn [foldl fst snd]. rewrite IH. unfold WithDefaultHeader. by rewrite deref_insert.
Qed.

(** X7. [WithDefaultHeader] and [WithDefaultHeaders] add to the default headers
    the builder has: a key given again takes the new value, every other key
    stays; the order in which [WithDefaultHeaders] visits its argument makes
    no difference, and no other map of the store is touched. *)
Theorem default_headers_accumulate (b : ClientBuilder) (σ : store) (hs : headers)
    (key value k : string) :
  deref (WithDefaultHeader key value b σ) (b_defaultHeaders b) !! k
    = (if decide (k = key) then Some value else deref σ (b_defaultHeaders b) !! k) ∧
  deref (WithDefaultHeaders hs b σ) (b_defaultHeaders b) !! k
    = (match hs !! k with Some v => Some v | None => deref σ (b_defaultHeaders b) !! k end) ∧
  (∀ l, l ≡ₚ map_to_list hs →
     deref (foldl (λ σ kv, WithDefaultHeader kv.1 kv.2 b σ) σ l) (b_defaultHeaders b)
     = deref (WithDefaultHeaders hs b σ) (b_defaultHeaders b)) ∧
  (∀ l', l' ≠ b_defaultHeaders b →
     WithDefaultHeader key value b σ !! l' = σ !! l' ∧ WithDefaultHeaders hs b σ !! l' = σ !! l').
Proof.
  split_and!.
  - unfold WithDefaultHeader. rewrite deref_insert.
    destruct (decide (k = key)) as [->|Hne];
      [by rewrite lookup_insert_eq | by rewrite lookup_insert_ne].
  - unfold WithDefaultHeaders. rewrite deref_insert. apply map_fold_insert_lookup.
  - intros l Hl. rewrite foldl_WithDefaultHeader. unfold WithDefaultHeaders.
    rewrite deref_insert. apply map_eq. intros i.
    rewrite map_fold_insert_lookup.
    by rewrite (foldl_insert_range (λ v, v) l hs).
  - intros l' Hl'. unfold WithDefaultHeader, WithDefaultHeaders.
    by rewrite !lookup_insert_ne.
Qed.

(** X8. [Build] hands the builder's header map to the client and copies
    nothing: whatever is done to the builder after a client was built, that
    client and a client built later hold the same map, and a default header
    given to the builder after [Build] is a default header of the client built
    before. *)
Theorem Build_does_not_copy_headers `{lib : Library} (cs : list BuilderCall)
    (b : ClientBuilder) (σ : store) (config : RequestConfig) (key value : string) :
  let early := Build b in
  let after := calls cs (b, σ) in
  let late := Build after.1 in
  defaultHeaders early = defaultHeaders late ∧
  merged_headers after.2 early config = merged_headers after.2 late config ∧
  deref (calls (cs ++ [CallWithDefaultHeader key value]) (b, σ)).2 (defaultHeaders early) !! key
    = Some value.
Proof.
  cbv zeta. destruct (calls_frame cs b σ) as [Hl _].
  assert (defaultHeaders (Build b) = defaultHeaders (Build (calls cs (b, σ)).1)) as Heq.
  { cbn [Build defaultHeaders]. by rewrite Hl. }
  split_and!.
  - done.
  - unfold merged_headers. by rewrite Heq.
  - unfold calls in *. rewrite foldl_app. cbn [foldl].
    destruct (foldl (λ acc c, call c acc) (b, σ) cs) as [b' σ'] eqn:E.
    cbn [call snd fst] in *. cbn [Build defaultHeaders]. rewrite <- Hl.
    unfold WithDefaultHeader. rewrite deref_insert. by rewrite lookup_insert_eq.
Qed.

Lemma rev_empty (s : string) : String.rev s = EmptyString → s = EmptyString.
Proof. intros H. by rewrite <- (rev_involutive s), H. Qed.

Lemma TrimSuffix_empty (u : string) :
  TrimSuffix u slash = EmptyString ↔ u = EmptyString ∨ u = slash.
Proof.
  unfold TrimSuffix, TrimPrefix.
  destruct (String.rev u) as [|c s'] eqn:E.
  - apply rev_empty in E. subst u. split; [by left | done].
  - assert (u = String.rev (String c s')) as Hu by (by rewrite <- E, rev_involutive).
    change (String.rev slash) with slash. cbn [slash strip_prefix].
    destruct (Ascii.eqb "/" c) eqn:Hc.
    + apply Ascii.eqb_eq in Hc. subst c. cbn [default]. split.
      * intros H. apply rev_empty in H. unfold id in H. subst s'. right. by rewrite Hu.
      * intros [->| ->]; [done|]. cbn in E. by injection E as <-.
    + cbn [default]. rewrite <- Hu. split.
      * intros ->. done.
      * intros [->| ->]; [done|]. cbn in E. injection E as <- <-. done.
Qed.

Lemma buildURL_is_path (rc : RESTClient) (path : string) :
  buildURL rc path = path ↔ baseURL rc = EmptyString.
Proof.
  unfold buildURL. destruct (String.eqb (baseURL rc) EmptyString) eqn:E.
  - apply String.eqb_eq in E. done.
  - apply String.eqb_neq in E. split; [|done]. intros H. exfalso.
    assert (String.length (baseURL rc +:+ slash +:+ TrimPrefix path slash)
            = String.length path) as Hlen by (by rewrite H).
    rewrite !ParserFacts.length_app in Hlen.
    assert (String.length path ≤ S (String.length (TrimPrefix path slash)))%nat as Ht.
    { unfold TrimPrefix. destruct path as [|c p]; [cbn; lia|].
      cbn [slash strip_prefix]. destruct (Ascii.eqb "/" c); cbn; lia. }
    destruct (baseURL rc) as [|c s]; [done|].
    rewrite ParserFacts.length_cons in Hlen. change (String.length slash) with 1%nat in Hlen.
    lia.
Qed.

(** X9. A client leaves the path of a call as it is exactly when its builder
    was given no base URL, the empty one, or the single slash: [WithBaseURL] takes
    the slash off and [buildURL] reads the empty string as no base URL. *)
Theorem base_URL_is_ignored (u : string) (b : ClientBuilder) (path : string) :
  buildURL (Build (WithBaseURL u b)) path = path ↔ u = EmptyString ∨ u = slash.
Proof.
  rewrite buildURL_is_path. cbn [Build WithBaseURL set_baseURL baseURL b_baseURL].
  apply TrimSuffix_empty.
Qed.

End BuilderFacts.

(** ** Requests as [createRequest] makes them *)

Module RequestFacts.

Import Client StringFacts ClientFacts MapFacts BuilderFacts.

Section Headers.

Context `{lib : Library}.

Lemma foldl_Header_Set_other (l : list (string * string)) : ∀ (h : Header) (K : string),
  (∀ k v, (k, v) ∈ l → CanonicalMIMEHeaderKey k ≠ K) →
  foldl (λ h kv, Header_Set kv.1 kv.2 h) h l !! K = h !! K.
Proof.
  induction l as [|[k v] l IH]; intros h K H; [done|].
  cbn [foldl fst snd]. rewrite IH.
  - unfold Header_Set. rewrite lookup_insert_ne; [done|]. apply (H k v). by left.
  - intros k' v' Hin. apply (H k' v'). by right.
Qed.

Lemma foldl_Header_Set_agreed (l : list (string * string)) : ∀ (h : Header) (k v : string),
  (k, v) ∈ l →
  (∀ k' v', (k', v') ∈ l → CanonicalMIMEHeaderKey k' = CanonicalMIMEHeaderKey k → v' = v) →
  foldl (λ h kv, Header_Set kv.1 kv.2 h) h l !! CanonicalMIMEHeaderKey k = Some [v].
Proof.
  induction l as [|[k0 v0] l IH]; intros h k v Hin Hag; [by apply elem_of_nil in Hin|].
  cbn [foldl fst snd].
  destruct (decide (Exists (λ kv, CanonicalMIMEHeaderKey kv.1 = CanonicalMIMEHeaderKey k) l))
    as [Hex|Hno].
  - apply Exists_exists in Hex as ([k1 v1] & Hin1 & Hc1). cbn [fst] in Hc1.
    assert (v1 = v) as -> by (apply (Hag k1 v1); [by right | done]).
    rewrite <- Hc1. apply IH; [done|].
    intros k' v' Hin' Hc'. apply (Hag k' v'); [by right | congruence].
  - rewrite foldl_Header_Set_other.
    + apply elem_of_cons in Hin as [[= -> ->]|Hin].
      * unfold Header_Set. by rewrite lookup_insert_eq.
      * exfalso. apply Hno, Exists_exists. by exists (k, v).
    + intros k' v' Hin' Hc'. apply Hno, Exists_exists. by exists (k', v').
Qed.

Lemma elem_of_range (m : headers) (k v : string) :
  (∀ m, range m ≡ₚ map_to_list m) →
  (k, v) ∈ range m ↔ m !! k = Some v.
Proof. intros Hr. rewrite (Hr m). apply elem_of_map_to_list. Qed.

Lemma set_all_other (m : headers) (h : Header) (K : string) :
  (∀ m, range m ≡ₚ map_to_list m) →
  (∀ k, is_Some (m !! k) → CanonicalMIMEHeaderKey k ≠ K) →
  set_all m h !! K = h !! K.
Proof.
  intros Hr H. unfold set_all. apply foldl_Header_Set_other.
  intros k v Hin. apply H. apply elem_of_range in Hin; [by eexists | done].
Qed.

Lemma set_all_agreed (m : headers) (h : Header) (k v : string) :
  (∀ m, range m ≡ₚ map_to_list m) →
  m !! k = Some v →
  (∀ k' v', m !! k' = Some v' → CanonicalMIMEHeaderKey k' = CanonicalMIMEHeaderKey k → v' = v) →
  set_all m h !! CanonicalMIMEHeaderKey k = Some [v].
Proof.
  intros Hr Hk Hag. unfold set_all. apply foldl_Header_Set_agreed.
  - by apply elem_of_range.
  - intros k' v' Hin. apply Hag. by apply elem_of_range in Hin.
Qed.


(** X12. The query of a request, when [range] visits every entry of a map once:
    a call without query parameters leaves the query of its URL alone; with
    parameters, the query is written anew from the URL's own values, in which
    every parameter of the call has taken the place of all values of its
    key. *)
Theorem query_parameters (σ : store) (rc : RESTClient) (config : RequestConfig)
    (req : HttpRequest) :
  (∀ m, range m ≡ₚ map_to_list m) →
  createRequest σ rc config = Ok req →
  (cfg_QueryParams config = ∅ → req_RawQuery req = None) ∧
  (cfg_QueryParams config ≠ ∅ →
   ∃ q, req_RawQuery req = Some (Values_Encode q) ∧
        ∀ k, q !! k = match cfg_QueryParams config !! k with
                      | Some v => Some [v]
                      | None => url_Query (req_URL req) !! k
                      end).
Proof.
  intros Hr. unfold createRequest.
  destruct (request_body (cfg_Body config)) as [body|e]; [|done].
  destruct (newRequest_error _ _); [done|]. intros [= <-]. cbn [req_RawQuery req_URL].
  split.
  - intros ->. by rewrite map_size_empty.
  - intros Hne. destruct (0 <? size (cfg_QueryParams config))%nat eqn:E.
    + eexists. split; [done|]. intros k. unfold values_set_all.
      apply (foldl_insert_range (λ v, [v])). apply Hr.
    + apply Nat.ltb_ge in E. exfalso. apply Hne. apply map_size_empty_iff. lia.
Qed.

(** X13. When [createRequest] fails: on a body that [json.Marshal] refuses, with
    [failed to marshal body] around the encoder's error, and otherwise on a
    method or URL that [http.NewRequestWithContext] refuses, with [failed to
    create request] around its error; in no other case.  A request that is
    made has the client's URL for the path, the method of the call, and the
    context of the call or the background context. *)
Theorem createRequest_failures (σ : store) (rc : RESTClient) (config : RequestConfig) :
  let url := buildURL rc (cfg_URL config) in
  let m := method_string (cfg_Method config) in
  let marshals := ∀ v, cfg_Body config = Some (BodyValue v) → is_Err (json_Marshal v) = false in
  (∀ v e, cfg_Body config = Some (BodyValue v) → json_Marshal v = Err e →
     createRequest σ rc config = Err (Errorf "failed to marshal body" (Some e))) ∧
  (∀ e, marshals → newRequest_error m url = Some e →
     createRequest σ rc config = Err (Errorf "failed to create request" (Some e))) ∧
  (is_Err (createRequest σ rc config) = false ↔ marshals ∧ newRequest_error m url = None) ∧
  (∀ req, createRequest σ rc config = Ok req →
     req_URL req = url ∧ req_Method req = m ∧
     req_Context req = default Background (cfg_Context config)).
Proof.
  cbv zeta. unfold createRequest, request_body.
  destruct (cfg_Body config) as [[s|s|rd|v]|];
    try (destruct (newRequest_error _ _) as [e|];
         (split_and!;
          [ done
          | by intros e' _ [= <-] || done
          | split; [done || (intros _; split; [done|done]) | by intros [_ ?]]
          | by intros req [= <-] || done ])).
  destruct (json_Marshal v) as [data|e] eqn:Em.
  - destruct (newRequest_error _ _) as [e|]; split_and!.
    + intros v' e' [= <-]. by rewrite Em.
    + by intros e' _ [= <-].
    + split; [done | by intros [_ ?]].
    + done.
    + intros v' e' [= <-]. by rewrite Em.
    + done.
    + split; [|done]. intros _. split; [|done]. intros v' [= <-]. by rewrite Em.
    + by intros req [= <-].
  - split_and!.
    + intros v' e' [= <-]. rewrite Em. by intros [= <-].
    + intros e' Hm. specialize (Hm v eq_refl). by rewrite Em in Hm.
    + split; [done|]. intros [Hm _]. specialize (Hm v eq_refl). by rewrite Em in Hm.
    + done.
Qed.

End Headers.

End RequestFacts.

(** ** Request options, verbs and ready-made clients *)

Module VerbFacts.

Import Client Options Verbs Timing StringFacts ClientFacts MapFacts BuilderFacts RetryFacts.

Section Verbs.

Context `{lib : Library} `{world : !World}.

Lemma option_keeps (o : OptionCall) (config : RequestConfig) :
  cfg_Method (option_of o config) = cfg_Method config ∧
  cfg_URL (option_of o config) = cfg_URL config ∧
  cfg_Body (option_of o config) = cfg_Body config.
Proof. by destruct o. Qed.

Lemma with_options_cons (o : OptionCall) (opts : list OptionCall) (config : RequestConfig) :
  with_options (option_of <$> o :: opts) config
  = with_options (option_of <$> opts) (option_of o config).
Proof. done. Qed.

Lemma with_options_keeps (opts : list OptionCall) : ∀ config : RequestConfig,
  cfg_Method (with_options (option_of <$> opts) config) = cfg_Method config ∧
  cfg_URL (with_options (option_of <$> opts) config) = cfg_URL config ∧
  cfg_Body (with_options (option_of <$> opts) config) = cfg_Body config.
Proof.
  induction opts as [|o opts IH]; intros config; [done|].
  rewrite with_options_cons.
  destruct (IH (option_of o config)) as (-> & -> & ->). apply option_keeps.
Qed.

(** X14. The options of the package change the headers, the query parameters,
    the timeout and the context of a call, and never its method, URL or body.
    A header or parameter given again takes the new value and every other key
    stays, for the single and for the plural options; header options leave the
    parameters alone and parameter options the headers. *)
Theorem options_of_a_call (opts : list OptionCall) (m : HTTPMethod) (url : string)
    (body : option Payload) (key value k : string) (hs : headers) :
  let config := with_options (option_of <$> opts) (new_request m url body) in
  (cfg_Method config = m ∧ cfg_URL config = url ∧ cfg_Body config = body) ∧
  cfg_Headers (WithHeader key value config) !! k
    = (if decide (k = key) then Some value else cfg_Headers config !! k) ∧
  cfg_Headers (WithHeaders hs config) !! k
    = (match hs !! k with Some v => Some v | None => cfg_Headers config !! k end) ∧
  cfg_QueryParams (WithQueryParam key value config) !! k
    = (if decide (k = key) then Some value else cfg_QueryParams config !! k) ∧
  cfg_QueryParams (WithQueryParams hs config) !! k
    = (match hs !! k with Some v => Some v | None => cfg_QueryParams config !! k end) ∧
  cfg_QueryParams (WithHeader key value config) = cfg_QueryParams config ∧
  cfg_QueryParams (WithHeaders hs config) = cfg_QueryParams config ∧
  cfg_Headers (WithQueryParam key value config) = cfg_Headers config ∧
  cfg_Headers (WithQueryParams hs config) = cfg_Headers config.
Proof.
  cbv zeta. split; [apply (with_options_keeps opts (new_request m url body))|].
  split_and!; try done.
  - unfold WithHeader, set_Headers. cbn [cfg_Headers].
    destruct (decide (k = key)) as [->|Hne];
      [by rewrite lookup_insert_eq | by rewrite lookup_insert_ne].
  - unfold WithHeaders, set_Headers. cbn [cfg_Headers]. apply map_fold_insert_lookup.
  - unfold WithQueryParam, set_QueryParams. cbn [cfg_QueryParams].
    destruct (decide (k = key)) as [->|Hne];
      [by rewrite lookup_insert_eq | by rewrite lookup_insert_ne].
  - unfold WithQueryParams, set_QueryParams. cbn [cfg_QueryParams].
    apply map_fold_insert_lookup.
Qed.

Lemma option_same (o : OptionCall) (c1 c2 : RequestConfig) :
  same_but_timeout c1 c2 → same_but_timeout (option_of o c1) (option_of o c2).
Proof.
  intros (H1 & H2 & H3 & H4 & H5 & H6).
  destruct o; unfold same_but_timeout; cbn; rewrite ?H4, ?H5; done.
Qed.

Lemma with_options_same (opts : list OptionCall) : ∀ c1 c2 : RequestConfig,
  same_but_timeout c1 c2 →
  same_but_timeout (with_options (option_of <$> opts) c1) (with_options (option_of <$> opts) c2).
Proof.
  induction opts as [|o opts IH]; intros c1 c2 H; [done|].
  rewrite !with_options_cons. apply IH. by apply option_same.
Qed.

Lemma createRequest_same (σ : store) (rc : RESTClient) (c1 c2 : RequestConfig) :
  same_but_timeout c1 c2 → createRequest σ rc c1 = createRequest σ rc c2.
Proof.
  intros (H1 & H2 & H3 & H4 & H5 & H6).
  unfold createRequest, merged_headers. by rewrite H1, H2, H3, H4, H5, H6.
Qed.

Lemma Request_same (σ : store) (rc : RESTClient) (c1 c2 : RequestConfig) lg :
  same_but_timeout c1 c2 → Request σ rc c1 lg = Request σ rc c2 lg.
Proof. intros H. unfold Request. by rewrite (createRequest_same σ rc c1 c2). Qed.

Lemma timeout_dropped (opts1 opts2 : list OptionCall) (t : Duration) (config : RequestConfig) :
  same_but_timeout
    (with_options (option_of <$> opts1 ++ OptWithTimeout t :: opts2) config)
    (with_options (option_of <$> opts1 ++ opts2) config).
Proof.
  unfold with_options. rewrite !fmap_app, !foldl_app, fmap_cons. cbn [foldl].
  apply (with_options_same opts2). by unfold same_but_timeout.
Qed.

(** X15. The request option [WithTimeout] has no effect: nothing reads the field
    it sets, so a call with it does what the call without it does, for every
    verb and wherever the option stands among the others. *)
Theorem request_timeout_is_ignored (σ : store) (rc : RESTClient) (url : string)
    (body : option Payload) (opts1 opts2 : list OptionCall) (t : Duration) lg :
  let given := option_of <$> opts1 ++ OptWithTimeout t :: opts2 in
  let others := option_of <$> opts1 ++ opts2 in
  (∀ config, Request σ rc (WithTimeout t config) lg = Request σ rc config lg) ∧
  GET σ rc url given lg = GET σ rc url others lg ∧
  POST σ rc url body given lg = POST σ rc url body others lg ∧
  PUT σ rc url body given lg = PUT σ rc url body others lg ∧
  PATCH σ rc url body given lg = PATCH σ rc url body others lg ∧
  DELETE σ rc url given lg = DELETE σ rc url others lg ∧
  HEAD σ rc url given lg = HEAD σ rc url others lg ∧
  OPTIONS σ rc url given lg = OPTIONS σ rc url others lg.
Proof.
  cbv zeta. split_and!;
    [intros config; apply Request_same; by unfold same_but_timeout
    | apply Request_same, timeout_dropped ..].
Qed.

(** X16. A verb without a body argument sends no body and sets no content type
    of its own, whatever options it is given: [GET], [DELETE], [HEAD] and
    [OPTIONS] hand [Request] their method and URL, no body, and the headers and
    parameters the options gave. *)
Theorem verbs_without_body (σ : store) (rc : RESTClient) (url : string)
    (opts : list OptionCall) lg :
  let config m := with_options (option_of <$> opts) (new_request m url None) in
  (GET σ rc url (option_of <$> opts) lg = Request σ rc (config Client.GET) lg ∧
   DELETE σ rc url (option_of <$> opts) lg = Request σ rc (config Client.DELETE) lg ∧
   HEAD σ rc url (option_of <$> opts) lg = Request σ rc (config Client.HEAD) lg ∧
   OPTIONS σ rc url (option_of <$> opts) lg = Request σ rc (config Client.OPTIONS) lg) ∧
  ∀ m req, createRequest σ rc (config m) = Ok req →
    req_Method req = method_string m ∧
    req_URL req = buildURL rc url ∧
    req_Body req = None ∧
    req_Header req = merged_headers σ rc (config m).
Proof.
  cbv zeta. split; [done|]. intros m req.
  destruct (with_options_keeps opts (new_request m url None)) as (Hm & Hu & Hb).
  cbn [new_request cfg_Method cfg_URL cfg_Body] in Hm, Hu, Hb.
  unfold createRequest. rewrite Hm, Hu, Hb. cbn [request_body].
  destruct (newRequest_error _ _); [done|]. by intros [= <-].
Qed.

Lemma calculateBackoff_default (rc : RESTClient) :
  retry rc = Some defaultRetry →
  calculateBackoff rc 1 = 0 ∧ calculateBackoff rc 2 = 200 * Millisecond.
Proof.
  intros Hr. unfold calculateBackoff. rewrite Hr. split; by vm_compute.
Qed.

(** X17. A client of [NewDefaultRESTClient] has no base URL, no default header,
    no retry policy and no breaker: it sends a call to the URL as given,
    exactly once, without waiting, and an error of the transport comes back as
    it is. *)
Theorem default_client_sends_once (σ : store) (config : RequestConfig) (req : HttpRequest) lg :
  let rc := (NewDefaultRESTClient σ).1 in
  let σ' := (NewDefaultRESTClient σ).2 in
  createRequest σ' rc config = Ok req →
  let out := Request σ' rc config lg in
  req_URL req = cfg_URL config ∧
  deref σ' (defaultHeaders rc) = ∅ ∧
  dispatched out.2 = S (dispatched lg) ∧
  round_trips out.2 = S (round_trips lg) ∧
  waited out.2 = waited lg ∧
  (∀ e, client_Do req (dispatched lg) = Err e → out.1 = Err e).
Proof.
  cbv zeta. intros Hreq. unfold Request. rewrite Hreq.
  cbn [NewDefaultRESTClient NewClientBuilder fst snd Build retry b_retry].
  destruct (executeRequest_log (Build (NewClientBuilder σ).1) req lg) as (Hd & Hw & _).
  split_and!.
  - revert Hreq. unfold createRequest.
    destruct (request_body _); [|done]. destruct (newRequest_error _ _); [done|].
    by intros [= <-].
  - cbn. apply deref_insert.
  - exact Hd.
  - by apply executeRequest_round_trip.
  - exact Hw.
  - intros e He. unfold executeRequest. cbn [Build circuitBreaker b_circuitBreaker NewClientBuilder fst].
    by rewrite He.
Qed.

(** X18. A client of [NewProductionRESTClient] has the default retry policy, a
    breaker, the tracer around its transport and one default header: a call
    dispatches at most three times and waits nothing before the second and 200
    milliseconds before the third dispatch; a request carries the package's
    [User-Agent] unless the call gives a header of that name. *)
Theorem production_client_calls (base : string) (σ : store) (config : RequestConfig)
    (req : HttpRequest) :
  let rc := (NewProductionRESTClient base σ).1 in
  let σ' := (NewProductionRESTClient base σ).2 in
  createRequest σ' rc config = Ok req →
  let out := Request σ' rc config no_Log in
  (dispatched out.2 ≤ 3)%nat ∧
  waited out.2 `prefix_of` [0; 200 * Millisecond] ∧
  length (waited out.2) = (dispatched out.2 - 1)%nat ∧
  baseURL rc = TrimSuffix base slash ∧
  client_Transport (client rc) = Traced (HttpTransport 100 100 (90 * Second)) ∧
  deref σ' (defaultHeaders rc) = {[ "User-Agent" := "core-rest-client/1.0" ]} ∧
  ((∀ m, range m ≡ₚ map_to_list m) →
   (∀ k, is_Some (cfg_Headers config !! k) → CanonicalMIMEHeaderKey k ≠ "User-Agent") →
   Header_Get (merged_headers σ' rc config) "User-Agent" = "core-rest-client/1.0").
Proof.
  cbv zeta.
  set (rc := (NewProductionRESTClient base σ).1).
  set (σ' := (NewProductionRESTClient base σ).2).
  intros Hreq.
  assert (retry rc = Some defaultRetry) as Hr by done.
  assert (deref σ' (defaultHeaders rc) = {[ "User-Agent" := "core-rest-client/1.0" ]}) as Hh.
  { unfold σ', rc. cbn. unfold WithDefaultHeader. rewrite deref_insert. cbn.
    rewrite deref_insert. done. }
  unfold Request. rewrite Hreq, Hr.
  pose proof (retry_loop_waits rc req (Z.to_nat (getMaxAttempts rc)) 0 None no_Log) as Hw.
  pose proof (retry_loop_bound rc req (Z.to_nat (getMaxAttempts rc)) 0 None no_Log) as Hb.
  cbv zeta in Hw. rewrite filter_positive_seq in Hw. unfold executeWithRetry.
  replace (Z.to_nat (getMaxAttempts rc)) with 3%nat in * by done.
  cbn [no_Log dispatched waited app] in Hw, Hb.
  rewrite Nat.sub_0_r in Hw.
  destruct (calculateBackoff_default rc Hr) as [H1 H2].
  split_and!.
  - exact Hb.
  - rewrite Hw.
    destruct (dispatched (retry_loop rc req 3 0 None no_Log).2) as [|[|[|[|n]]]]; try lia;
      cbn [Nat.sub seq fmap list_fmap]; unfold delay_before; cbn [Z.of_nat Pos.of_succ_nat Pos.succ];
      rewrite ?H1, ?H2.
    + by exists [0; 200 * Millisecond].
    + by exists [0; 200 * Millisecond].
    + by exists [200 * Millisecond].
    + by exists [].
  - rewrite Hw. by rewrite length_fmap, length_seq.
  - done.
  - done.
  - exact Hh.
  - intros Hrange Hno. unfold merged_headers, Header_Get.
    rewrite RequestFacts.set_all_other; [|done|].
    + change "User-Agent" with (CanonicalMIMEHeaderKey "User-Agent") at 1.
      rewrite (RequestFacts.set_all_agreed _ _ "User-Agent" "core-rest-client/1.0"); [done|done|..].
      * by rewrite Hh.
      * rewrite Hh. intros k' v' Hk' _. by apply lookup_singleton_Some in Hk' as [_ <-].
    + intros k Hk. by apply Hno.
Qed.

End Verbs.

End VerbFacts.

(** ** Loggers carried by contexts *)

Module ContextFacts.

Import Logger.

Lemma Value_under_other_keys (kvs : list (key * any)) : ∀ (ctx : Context) (k : key),
  Forall (λ kv, kv.1 ≠ k) kvs →
  Value (foldl (λ c kv, WithValue c kv.1 kv.2) ctx kvs) k = Value ctx k.
Proof.
  induction kvs as [|[k' v] kvs IH]; intros ctx k H; [done|].
  apply Forall_cons in H as [Hk H]. cbn [foldl fst snd].
  rewrite IH by done. cbn [Value]. cbn [fst] in Hk.
  by destruct (decide (k = k')) as [->|_].
Qed.

(** X21. What [WithContext] puts into a context, [FromContext] gives back: the
    logger attached last, whatever the context held before (an earlier
    logger, a request identifier) and whatever values are stored under other
    keys afterwards.  That holds for a nil logger too: [FromContext] then
    gives nil and not the process-wide logger. *)
Theorem logger_round_trip (Logger : ZapLogger) (ctx : Context) (logger : option ZapLogger)
    (kvs : list (key * any)) :
  Forall (λ kv, kv.1 ≠ loggerKey) kvs →
  FromContext Logger (Some (foldl (λ c kv, WithValue c kv.1 kv.2) (WithContext ctx logger) kvs))
  = logger.
Proof.
  intros H. unfold FromContext. rewrite Value_under_other_keys by done.
  unfold WithContext. cbn [Value]. by destruct (decide (loggerKey = loggerKey)).
Qed.

End ContextFacts.

(** ** More on merging JSON objects *)

Module MergeFacts.

Import Helpers EncoderFacts HelpersFacts.

Lemma merge_into_empty (merged : gmap string value) : merge_into merged ∅ = merged.
Proof. unfold merge_into. by rewrite map_fold_empty. Qed.

Lemma merge_loop_app (xs ys : list string) : ∀ merged,
  merge_loop (xs ++ ys) merged =
  match merge_loop xs merged with
  | Ok merged' => merge_loop ys merged'
  | Err e => Err e
  end.
Proof.
  induction xs as [|x xs IH]; intros merged; [done|].
  cbn [app merge_loop]. destruct (negb (ValidateJSON x)); [done|].
  destruct (json_Unmarshal_map x); [apply IH | done].
Qed.

Lemma merge_loop_decoded (xs : list string) : ∀ merged merged',
  merge_loop xs merged = Ok merged' →
  ∃ objs, Forall2 (λ data obj, json_Unmarshal_map data = Ok obj) xs objs.
Proof.
  induction xs as [|x xs IH]; intros merged merged' H; [by exists []|].
  cbn [merge_loop] in H. destruct (negb (ValidateJSON x)); [done|].
  destruct (json_Unmarshal_map x) as [obj|] eqn:E; [|done].
  destruct (IH _ _ H) as [objs Hobjs]. exists (obj :: objs). by constructor.
Qed.

Lemma foldl_latest (objs : list (gmap string value)) (k : string) : ∀ found,
  foldl (λ found obj, match obj !! k with Some v => Some v | None => found end) found objs
  = match latest objs k with Some v => Some v | None => found end.
Proof.
  unfold latest. induction objs as [|obj objs IH]; intros found; [done|].
  cbn [foldl]. rewrite IH. rewrite (IH (match obj !! k with Some v => Some v | None => None end)).
  destruct (foldl _ None objs); [done|]. by destruct (obj !! k).
Qed.

Section Merge.

Variable FormatFloat : float64 → string.

Lemma MergeJSON_of_loop (xs ys : list string) :
  merge_loop xs ∅ = merge_loop ys ∅ →
  MergeJSON FormatFloat xs = MergeJSON FormatFloat ys.
Proof.
  intros H. unfold MergeJSON.
  destruct xs as [|x xs], ys as [|y ys]; cbn [length Nat.eqb].
  - done.
  - rewrite <- H. by vm_compute.
  - rewrite H. by vm_compute.
  - by rewrite H.
Qed.

(** X22. Inputs that change nothing: an input that holds no key, such as [{}]
    and [null], can be put in or left out anywhere; and merging a list of
    inputs twice over is merging it once.  Both hold for the errors too. *)
Theorem MergeJSON_neutral_and_repeated_inputs (xs ys : list string) (n : string) :
  (json_Unmarshal_map n = Ok ∅ →
   MergeJSON FormatFloat (xs ++ n :: ys) = MergeJSON FormatFloat (xs ++ ys)) ∧
  json_Unmarshal_map "{}" = Ok ∅ ∧
  json_Unmarshal_map "null" = Ok ∅ ∧
  MergeJSON FormatFloat (xs ++ xs) = MergeJSON FormatFloat xs.
Proof.
  split_and!.
  - intros Hn. apply MergeJSON_of_loop. rewrite !merge_loop_app.
    destruct (merge_loop xs ∅) as [merged|]; [|done].
    cbn [merge_loop]. rewrite (Unmarshal_map_valid _ _ Hn), Hn. cbn [negb].
    by rewrite merge_into_empty.
  - by vm_compute.
  - by vm_compute.
  - apply MergeJSON_of_loop. rewrite merge_loop_app.
    destruct (merge_loop xs ∅) as [merged|e] eqn:E; [|done].
    destruct (merge_loop_decoded _ _ _ E) as [objs Hobjs].
    destruct (merge_loop_ok xs objs Hobjs ∅) as (m1 & H1 & Hk1).
    destruct (merge_loop_ok xs objs Hobjs merged) as (m2 & H2 & Hk2).
    rewrite E in H1. injection H1 as <-. rewrite H2. f_equal.
    apply map_eq. intros k. rewrite Hk2, Hk1, lookup_empty, !foldl_latest.
    by destruct (latest objs k).
Qed.

(** X23. Two neighbouring inputs that share no key can change places: the
    result, or the error, is the same. *)
Theorem MergeJSON_commutes_on_disjoint_keys (xs ys : list string) (a b : string)
    (oa ob : gmap string value) :
  json_Unmarshal_map a = Ok oa →
  json_Unmarshal_map b = Ok ob →
  oa ##ₘ ob →
  MergeJSON FormatFloat (xs ++ a :: b :: ys) = MergeJSON FormatFloat (xs ++ b :: a :: ys).
Proof.
  intros Ha Hb Hdisj. apply MergeJSON_of_loop. rewrite !merge_loop_app.
  destruct (merge_loop xs ∅) as [merged|]; [|done].
  cbn [merge_loop].
  rewrite (Unmarshal_map_valid _ _ Ha), (Unmarshal_map_valid _ _ Hb), Ha, Hb. cbn [negb].
  f_equal. apply map_eq. intros k. rewrite !merge_into_lookup.
  destruct (oa !! k) as [va|] eqn:Ea, (ob !! k) as [vb|] eqn:Eb; try done.
  exfalso. by apply (map_disjoint_spec oa ob) with k va vb.
Qed.

(** X24. The first input that cannot be taken decides the error, and the inputs
    after it are not looked at: [invalid JSON data] when it is no JSON text,
    and otherwise [failed to unmarshal JSON object] around the decoder's
    error, which then is never a syntax error. *)
Theorem MergeJSON_first_failure (good rest : list string) (bad : string)
    (objs : list (gmap string value)) :
  Forall2 (λ data obj, json_Unmarshal_map data = Ok obj) good objs →
  (ValidateJSON bad = false →
   MergeJSON FormatFloat (good ++ bad :: rest) = Err (ErrText "invalid JSON data")) ∧
  (∀ e, ValidateJSON bad = true → json_Unmarshal_map bad = Err e →
   MergeJSON FormatFloat (good ++ bad :: rest)
     = Err (Errorf "failed to unmarshal JSON object" (Some e)) ∧
   e ≠ ErrLibrary "json: syntax error").
Proof.
  intros Hgood.
  assert (∀ e, (∀ m, merge_loop (bad :: rest) m = Err e) →
            MergeJSON FormatFloat (good ++ bad :: rest) = Err e) as Hloop.
  { intros e He. unfold MergeJSON.
    destruct (good ++ bad :: rest) as [|x l] eqn:El; [by destruct good|].
    cbn [length Nat.eqb]. rewrite <- El, merge_loop_app.
    destruct (merge_loop_ok good objs Hgood ∅) as (m1 & -> & _). by rewrite He. }
  split.
  - intros Hv. apply Hloop. intros m. cbn [merge_loop]. by rewrite Hv.
  - intros e Hv He. split.
    + apply Hloop. intros m. cbn [merge_loop]. by rewrite Hv, He.
    + intros ->. revert He Hv. unfold json_Unmarshal_map, ValidateJSON, json_Valid.
      destruct (json_parse bad) as [[| | | | |ms]|]; try done.
      destruct (to_value (JObject ms)) as [[| | | | |]|]; done.
Qed.

End Merge.

End MergeFacts.

(** ** Empty JSON *)

Module EmptinessFacts.

Import Helpers Emptiness StringFacts.

Lemma blank_skip_space (s : string) : blank s = true ↔ skip_space s = EmptyString.
Proof.
  induction s as [|c s IH]; [done|].
  cbn [blank skip_space]. destruct (is_space c); [apply IH | done].
Qed.

Lemma skip_space_app_blank (l X : string) :
  blank l = true → skip_space (l +:+ X) = skip_space X.
Proof.
  induction l as [|c l IH]; [done|].
  cbn [blank]. rewrite append_cons. cbn [skip_space].
  destruct (is_space c); [apply IH | done].
Qed.

Lemma parse_value_skip (fuel : nat) (d : N) (s1 s2 : string) :
  skip_space s1 = skip_space s2 → parse_value fuel d s1 = parse_value fuel d s2.
Proof.
  intros H. destruct fuel as [|fuel]; [done|]. cbn [parse_value]. by rewrite H.
Qed.

Lemma blank_app (a b : string) : blank (a +:+ b) = blank a && blank b.
Proof.
  induction a as [|c a IH]; [done|].
  rewrite append_cons. cbn [blank]. by rewrite IH, andb_assoc.
Qed.

Lemma space_bytes_app (a b : string) : space_bytes (a +:+ b) = space_bytes a && space_bytes b.
Proof.
  induction a as [|c a IH]; [done|].
  rewrite append_cons. cbn [space_bytes]. by rewrite IH, andb_assoc.
Qed.

Lemma rev_cons (c : ascii) (s : string) :
  String.rev (String c s) = String.rev s +:+ String c EmptyString.
Proof. exact (rev_append (String c EmptyString) s). Qed.

Lemma space_bytes_rev (s : string) : space_bytes (String.rev s) = space_bytes s.
Proof.
  induction s as [|c s IH]; [done|].
  rewrite rev_cons, space_bytes_app, IH. cbn [space_bytes].
  rewrite andb_true_r. apply andb_comm.
Qed.

Lemma blank_rev (s : string) : blank (String.rev s) = blank s.
Proof.
  induction s as [|c s IH]; [done|].
  rewrite rev_cons, blank_app, IH. cbn [blank].
  rewrite andb_true_r. apply andb_comm.
Qed.

Lemma space2_bytes (a b : ascii) :
  space2 a b = true → (128 ≤ code a)%N ∧ (128 ≤ code b)%N.
Proof.
  unfold space2. rewrite andb_true_iff, orb_true_iff, !N.eqb_eq. lia.
Qed.

Lemma space3_bytes (a b c : ascii) :
  space3 a b c = true → (128 ≤ code a)%N ∧ (128 ≤ code b)%N ∧ (128 ≤ code c)%N.
Proof.
  unfold space3.
  rewrite !orb_true_iff, !andb_true_iff, !orb_true_iff, !andb_true_iff, !N.eqb_eq, !N.leb_le.
  lia.
Qed.

Lemma is_space_ascii_space (c : ascii) : is_space c = true → ascii_space c = true.
Proof.
  unfold is_space, ascii_space. rewrite !bool_decide_eq_true.
  rewrite !elem_of_cons, !elem_of_nil. intros H. lia.
Qed.

Lemma past_ascii (c : ascii) : (128 ≤ code c)%N → (ascii_space c || (128 <=? code c)%N) = true.
Proof. intros H. apply orb_true_iff. right. by apply N.leb_le. Qed.

(** What the trimming takes off the front is made of white space bytes. *)
Lemma TrimLeftSpace_split (n : nat) : ∀ s, (String.length s ≤ n)%nat →
  ∃ l, s = l +:+ TrimLeftSpace s ∧ space_bytes l = true.
Proof.
  induction n as [|n IH]; intros s Hn.
  { destruct s; [by exists EmptyString | cbn in Hn; lia]. }
  destruct s as [|a r1]; [by exists EmptyString|].
  cbn [TrimLeftSpace]. cbn [String.length] in Hn.
  destruct (ascii_space a) eqn:Ea.
  { destruct (IH r1) as (l & Hl & Hs); [lia|].
    exists (String a l). rewrite append_cons, <- Hl. cbn [space_bytes]. by rewrite Ea, Hs. }
  destruct r1 as [|b r2]; [by exists EmptyString|]. cbn [String.length] in Hn.
  destruct (space2 a b) eqn:E2.
  { destruct (IH r2) as (l & Hl & Hs); [lia|]. apply space2_bytes in E2 as [Ha Hb].
    exists (String a (String b l)). rewrite !append_cons, <- Hl. cbn [space_bytes].
    by rewrite !past_ascii, Hs. }
  destruct r2 as [|c r3]; [by exists EmptyString|]. cbn [String.length] in Hn.
  destruct (space3 a b c) eqn:E3; [|by exists EmptyString].
  destruct (IH r3) as (l & Hl & Hs); [lia|]. apply space3_bytes in E3 as (Ha & Hb & Hc).
  exists (String a (String b (String c l))). rewrite !append_cons, <- Hl. cbn [space_bytes].
  by rewrite !past_ascii, Hs.
Qed.

Lemma trim_reversed_split (n : nat) : ∀ s, (String.length s ≤ n)%nat →
  ∃ l, s = l +:+ trim_reversed s ∧ space_bytes l = true.
Proof.
  induction n as [|n IH]; intros s Hn.
  { destruct s; [by exists EmptyString | cbn in Hn; lia]. }
  destruct s as [|c r1]; [by exists EmptyString|].
  cbn [trim_reversed]. cbn [String.length] in Hn.
  destruct (ascii_space c) eqn:Ec.
  { destruct (IH r1) as (l & Hl & Hs); [lia|].
    exists (String c l). rewrite append_cons, <- Hl. cbn [space_bytes]. by rewrite Ec, Hs. }
  destruct r1 as [|b r2]; [by exists EmptyString|]. cbn [String.length] in Hn.
  destruct (space2 b c) eqn:E2.
  { destruct (IH r2) as (l & Hl & Hs); [lia|]. apply space2_bytes in E2 as [Hb Hc].
    exists (String c (String b l)). rewrite !append_cons, <- Hl. cbn [space_bytes].
    by rewrite !past_ascii, Hs. }
  destruct r2 as [|a r3]; [by exists EmptyString|]. cbn [String.length] in Hn.
  destruct (space3 a b c) eqn:E3; [|by exists EmptyString].
  destruct (IH r3) as (l & Hl & Hs); [lia|]. apply space3_bytes in E3 as (Ha & Hb & Hc).
  exists (String c (String b (String a l))). rewrite !append_cons, <- Hl. cbn [space_bytes].
  by rewrite !past_ascii, Hs.
Qed.

(** White space bytes are JSON white space, or have among them a byte that
    no JSON text has outside a string. *)
Lemma space_bytes_cases (l : string) :
  space_bytes l = true →
  blank l = true ∨
  ∃ l1 c l2, l = l1 +:+ String c l2 ∧ blank l1 = true ∧
             (code c = 11 ∨ code c = 12 ∨ 128 ≤ code c)%N.
Proof.
  induction l as [|c l IH]; [by left|].
  cbn [space_bytes blank]. rewrite andb_true_iff. intros [Hc Hl].
  destruct (is_space c) eqn:Es.
  - destruct (IH Hl) as [Hb|(l1 & c' & l2 & -> & Hb & Hc')]; [by left|].
    right. exists (String c l1), c', l2. rewrite append_cons. cbn [blank]. by rewrite Es, Hb.
  - right. exists EmptyString, c, l. split_and!; [done..|].
    apply orb_true_iff in Hc as [Hc|Hc]; [|apply N.leb_le in Hc; lia].
    revert Hc Es. unfold ascii_space, is_space.
    rewrite bool_decide_eq_true, bool_decide_eq_false.
    rewrite !elem_of_cons, !elem_of_nil. lia.
Qed.

Lemma no_value_starts_so (fuel : nat) (d : N) (c : ascii) (X : string) :
  (code c = 11 ∨ code c = 12 ∨ 128 ≤ code c)%N →
  parse_value (S fuel) d (String c X) = SyntaxError.
Proof.
  intros Hc.
  assert (is_space c = false) as Hs.
  { unfold is_space. apply bool_decide_eq_false. rewrite !elem_of_cons, !elem_of_nil. lia. }
  cbn [parse_value skip_space]. rewrite Hs. cbv zeta.
  repeat match goal with
  | |- context [(code c =? ?k)%N] => rewrite (proj2 (N.eqb_neq (code c) k)) by lia
  end.
  unfold scan_number, scan_sign.
  rewrite (proj2 (N.eqb_neq (code c) 45)) by lia. cbn [take_digits].
  assert (is_digit c = false) as ->; [|done].
  unfold is_digit. apply andb_false_iff. rewrite N.leb_gt, N.leb_gt. lia.
Qed.

Lemma parse_empty_texts (fuel : nat) (r : string) :
  parse_value (S fuel) 0 ("{}" +:+ r) = Parsed (JObject []) r ∧
  parse_value (S fuel) 0 ("[]" +:+ r) = Parsed (JArray []) r ∧
  parse_value (S fuel) 0 ("null" +:+ r) = Parsed JNull r.
Proof. done. Qed.

Lemma parse_fuel_S (data : string) : ∃ fuel, parse_fuel data = S fuel.
Proof. exists (2 * String.length data + 1)%nat. unfold parse_fuel. lia. Qed.

Lemma TrimLeftSpace_blank (l X : string) :
  blank l = true → TrimLeftSpace (l +:+ X) = TrimLeftSpace X.
Proof.
  induction l as [|c l IH]; [done|].
  cbn [blank]. rewrite andb_true_iff. intros [Hc Hl].
  rewrite append_cons. cbn [TrimLeftSpace]. rewrite (is_space_ascii_space c Hc). by apply IH.
Qed.

Lemma trim_reversed_blank (l X : string) :
  blank l = true → trim_reversed (l +:+ X) = trim_reversed X.
Proof.
  induction l as [|c l IH]; [done|].
  cbn [blank]. rewrite andb_true_iff. intros [Hc Hl].
  rewrite append_cons. cbn [trim_reversed]. rewrite (is_space_ascii_space c Hc). by apply IH.
Qed.

Lemma TrimSpace_empty_texts (t l r : string) :
  t ∈ empty_texts → blank l = true → blank r = true →
  TrimSpace (l +:+ t +:+ r) = t.
Proof.
  intros Ht Hl Hr. unfold TrimSpace, TrimRightSpace.
  rewrite TrimLeftSpace_blank by done.
  assert (TrimLeftSpace (t +:+ r) = t +:+ r) as ->.
  { unfold empty_texts in Ht. rewrite !elem_of_cons, elem_of_nil in Ht.
    destruct Ht as [->|[->|[->|[]]]]; by destruct r. }
  rewrite rev_append, trim_reversed_blank by (by rewrite blank_rev).
  unfold empty_texts in Ht. rewrite !elem_of_cons, elem_of_nil in Ht.
  destruct Ht as [->|[->|[->|[]]]]; done.
Qed.

Lemma valid_empty_texts (t l r : string) :
  t ∈ empty_texts → blank l = true → blank r = true →
  ValidateJSON (l +:+ t +:+ r) = true.
Proof.
  intros Ht Hl Hr. unfold ValidateJSON, json_Valid. apply bool_decide_eq_true.
  unfold json_parse. destruct (parse_fuel_S (l +:+ t +:+ r)) as [fuel ->].
  rewrite (parse_value_skip _ _ _ (t +:+ r)) by (by apply skip_space_app_blank).
  destruct (parse_empty_texts fuel r) as (H1 & H2 & H3).
  apply blank_skip_space in Hr.
  unfold empty_texts in Ht. rewrite !elem_of_cons, elem_of_nil in Ht.
  destruct Ht as [->|[->|[->|[]]]]; rewrite ?H1, ?H2, ?H3, Hr; by eexists.
Qed.

Lemma eqb_empty_texts (t : string) :
  String.eqb t "{}" || String.eqb t "[]" || String.eqb t "null" = true ↔ t ∈ empty_texts.
Proof.
  unfold empty_texts. rewrite !orb_true_iff, !String.eqb_eq, !elem_of_cons, elem_of_nil. tauto.
Qed.

(** X25. [IsEmptyJSON] holds exactly of the texts [{}], [[]] and [null] with
    JSON white space before and after them.  An object or array with white
    space between its brackets is valid and has no member, and [IsEmptyJSON]
    says no to it. *)
Theorem IsEmptyJSON_exactly (jsonData : string) :
  (IsEmptyJSON jsonData = true ↔
   ∃ l t r, jsonData = l +:+ t +:+ r ∧ t ∈ empty_texts ∧ blank l = true ∧ blank r = true) ∧
  (∀ ws, blank ws = true → ws ≠ EmptyString →
     json_parse ("{" +:+ ws +:+ "}") = Some (JObject []) ∧
     IsEmptyJSON ("{" +:+ ws +:+ "}") = false).
Proof.
  assert (∀ data, IsEmptyJSON data = true ↔
            ∃ l t r, data = l +:+ t +:+ r ∧ t ∈ empty_texts ∧ blank l = true ∧ blank r = true)
    as Hiff.
  { intros data. split.
    - unfold IsEmptyJSON. destruct (ValidateJSON data) eqn:Hv; [|done]. cbn [negb]. cbv zeta.
      rewrite eqb_empty_texts. intros Ht.
      destruct (TrimLeftSpace_split _ data (le_n _)) as (l & Hl & Hsl).
      destruct (trim_reversed_split _ (String.rev (TrimLeftSpace data)) (le_n _))
        as (l2 & Hl2 & Hsl2).
      set (t := TrimSpace data) in *.
      assert (trim_reversed (String.rev (TrimLeftSpace data)) = String.rev t) as Hrt.
      { unfold t, TrimSpace, TrimRightSpace. by rewrite rev_involutive. }
      rewrite Hrt in Hl2.
      assert (TrimLeftSpace data = t +:+ String.rev l2) as Hd1.
      { rewrite <- (rev_involutive (TrimLeftSpace data)), Hl2, rev_append.
        by rewrite rev_involutive. }
      rewrite Hd1 in Hl.
      assert (space_bytes (String.rev l2) = true) as Hsr by (by rewrite space_bytes_rev).
      set (r := String.rev l2) in *.
      unfold ValidateJSON, json_Valid in Hv. apply bool_decide_eq_true in Hv as [j Hj].
      unfold json_parse in Hj. destruct (parse_fuel_S data) as [fuel Hf]. rewrite Hf in Hj.
      assert (blank l = true) as Hbl.
      { destruct (space_bytes_cases l Hsl) as [Hb|(l1 & c & l3 & -> & Hb & Hc)]; [done|].
        exfalso. rewrite Hl in Hj. rewrite append_assoc, append_cons in Hj.
        rewrite (parse_value_skip _ _ _ (String c (l3 +:+ t +:+ r))) in Hj
          by (by apply skip_space_app_blank).
        by rewrite no_value_starts_so in Hj. }
      exists l, t, r. split_and!; [done|done|done|].
      rewrite Hl in Hj.
      rewrite (parse_value_skip _ _ _ (t +:+ r)) in Hj by (by apply skip_space_app_blank).
      destruct (parse_empty_texts fuel r) as (H1 & H2 & H3).
      apply blank_skip_space.
      unfold empty_texts in Ht. rewrite !elem_of_cons, elem_of_nil in Ht.
      destruct Ht as [Ht|[Ht|[Ht|[]]]]; rewrite Ht in Hj; rewrite ?H1, ?H2, ?H3 in Hj;
        by destruct (skip_space r).
    - intros (l & t & r & -> & Ht & Hl & Hr). unfold IsEmptyJSON.
      rewrite valid_empty_texts by done. cbn [negb]. cbv zeta.
      rewrite TrimSpace_empty_texts by done. by apply eqb_empty_texts. }
  split; [apply Hiff|].
  intros ws Hws Hne. split.
  - unfold json_parse. destruct (parse_fuel_S ("{" +:+ ws +:+ "}")) as [fuel ->].
    change ("{" +:+ ws +:+ "}") with (String "{" (ws +:+ "}")).
    cbn [parse_value skip_space]. 
    change (is_space "{") with false. cbv iota zeta.
    change (code "{" =? 123)%N with true. cbv iota.
    change (maxNestingDepth <=? 0)%N with false. cbv iota.
    rewrite skip_space_app_blank by done. done.
  - apply not_true_iff_false. rewrite Hiff. intros (l & t & r & Heq & Ht & Hl & Hr).
    destruct l as [|c l].
    + unfold empty_texts in Ht. rewrite !elem_of_cons, elem_of_nil in Ht.
      destruct Ht as [->|[->|[->|[]]]]; try done.
      destruct ws as [|w ws]; [done|]. injection Heq as -> _. 
      cbn [blank] in Hws. done.
    + rewrite append_cons in Heq. injection Heq as <- _. done.
Qed.

End EmptinessFacts.

(** ** Header names, errors of a retrying call, the default breaker *)

Module NameFacts.

Import Client Names StringFacts ClientFacts RequestFacts.

Lemma to_lower_facts (c : ascii) :
  to_upper (to_lower c) = to_upper c ∧
  to_lower (to_lower c) = to_lower c ∧
  validHeaderFieldByte (to_lower c) = validHeaderFieldByte c.
Proof. destruct c as [[] [] [] [] [] [] [] []]; by vm_compute. Qed.

Lemma canonical_case_lower (s : string) : ∀ upper,
  canonical_case upper (lower s) = canonical_case upper s.
Proof.
  induction s as [|c s IH]; intros upper; [done|].
  cbn [lower canonical_case]. destruct (to_lower_facts c) as (Hu & Hl & _).
  destruct upper; rewrite ?Hu, ?Hl; cbv zeta; by rewrite IH.
Qed.

Lemma token_lower (s : string) : token (lower s) = token s.
Proof.
  unfold token. induction s as [|c s IH]; [done|].
  cbn [lower list_ascii_of_string forallb]. destruct (to_lower_facts c) as (_ & _ & ->).
  by rewrite IH.
Qed.

Lemma canonical_of_lower (k k' : string) :
  token k = true → lower k' = lower k →
  CanonicalMIMEHeaderKey k' = CanonicalMIMEHeaderKey k.
Proof.
  intros Ht Hl.
  assert (token k' = true) as Ht' by (by rewrite <- token_lower, Hl, token_lower).
  unfold CanonicalMIMEHeaderKey. unfold token in Ht, Ht'. rewrite Ht, Ht'.
  by rewrite <- (canonical_case_lower k'), Hl, canonical_case_lower.
Qed.

(** X11. Header names made of token bytes are read without regard to letter
    case: two spellings of a name are one header, so a header of a call is
    found under any spelling of its name, and it goes before a default header
    spelled another way. *)
Theorem header_names_ignore_case `{lib : Library} (σ : store) (rc : RESTClient)
    (config : RequestConfig) (k k' v : string) :
  (∀ m, range m ≡ₚ map_to_list m) →
  token k = true →
  lower k' = lower k →
  cfg_Headers config = {[ k' := v ]} →
  CanonicalMIMEHeaderKey k' = CanonicalMIMEHeaderKey k ∧
  Header_Get (merged_headers σ rc config) k = v.
Proof.
  intros Hr Ht Hl Hh. pose proof (canonical_of_lower k k' Ht Hl) as Hc.
  split; [done|]. unfold Header_Get, merged_headers. rewrite <- Hc, Hh.
  rewrite (set_all_agreed _ _ k' v); [done|done|..].
  - by rewrite lookup_singleton_eq.
  - intros k'' v' Hk'' _. by apply lookup_singleton_Some in Hk'' as [_ <-].
Qed.

End NameFacts.

Module ErrorFacts.

Import Client StringFacts ClientFacts RetryFacts.

Section Errors.

Context `{lib : Library} `{world : !World}.
Implicit Types (rc : RESTClient) (req : HttpRequest) (lg : Log).

Lemma retry_loop_errors rc req todo : ∀ a lastErr lg e,
  let out := retry_loop rc req todo a lastErr lg in
  out.1 = Err e →
  (∃ c, e = ErrContext c) ∨
  e = Errorf "max retries exceeded"
        (if decide (dispatched out.2 = dispatched lg) then lastErr
         else failure_error (attempt_result rc req (dispatched out.2 - 1))).
Proof.
  induction todo as [|todo IH]; intros a lastErr lg e; cbv zeta.
  { cbn [retry_loop fst snd]. intros [= <-]. right. by rewrite decide_True. }
  rewrite retry_loop_step.
  destruct (if (0 <? a)%nat then _ else None) as [c|].
  { cbn [fst]. intros [= <-]. left. by exists c. }
  cbv zeta. pose proof (step_log rc req a lg) as Hs.
  destruct (retryable (attempt_result rc req (dispatched lg))) eqn:Hret.
  - match goal with |- context [retry_loop rc req todo (S a) ?le ?l2] =>
      pose proof (retry_loop_mono rc req todo (S a) le l2) as Hm;
      specialize (IH (S a) le l2 e); cbv zeta in IH
    end.
    rewrite Hs in Hm, IH. intros He. destruct (IH He) as [Hc|Hx]; [by left|]. right.
    rewrite Hx. f_equal. rewrite (decide_False (P := _ = dispatched lg)) by lia.
    destruct (decide _) as [Heq|Hne]; [|done]. rewrite Heq.
    by replace (S (dispatched lg) - 1)%nat with (dispatched lg) by lia.
  - cbn [fst]. intros He. rewrite He in Hret. done.
Qed.

(** X6. A call under a retry policy fails in two ways only: with the error of
    the context, when the context was done during a wait, or with [max retries
    exceeded] around the failure of the last dispatch (nil when nothing was
    dispatched).  An error of the transport never comes back as it is. *)
Theorem errors_of_a_retrying_call (σ : store) rc (config : RequestConfig) (r : RetryConfig)
    req lg (e : error) :
  retry rc = Some r →
  createRequest σ rc config = Ok req →
  let out := Request σ rc config lg in
  out.1 = Err e →
  (∃ c, e = ErrContext c) ∨
  e = Errorf "max retries exceeded"
        (if decide (dispatched out.2 = dispatched lg) then None
         else failure_error (attempt_result rc req (dispatched out.2 - 1))).
Proof.
  intros Hr Hreq. cbv zeta. unfold Request. rewrite Hreq, Hr. unfold executeWithRetry.
  apply retry_loop_errors.
Qed.

End Errors.

End ErrorFacts.

Module BreakerFacts.

Import Client Breaker.

Lemma leb_zero_point_six_zero (s : bool) : Float64.leb zero_point_six (S754_zero s) = false.
Proof. by destruct s. Qed.

(** X19. The default breaker is never ready to trip before three requests were
    counted, nor when none of the counted requests failed. *)
Theorem default_breaker_needs_failures (counts : Counts) :
  defaultReadyToTrip counts = true →
  3 ≤ Requests counts ∧ TotalFailures counts ≠ 0.
Proof.
  unfold defaultReadyToTrip. cbv zeta. rewrite andb_true_iff, Z.leb_le.
  intros [H3 Hr]. split; [done|]. intros H0. rewrite H0 in Hr.
  change (of_int 0) with (S754_zero false) in Hr.
  unfold Float64.div in Hr. destruct (of_int (Requests counts)) as [s|s| |s m e];
    cbn [SFdiv] in Hr; try done; by rewrite leb_zero_point_six_zero in Hr.
Qed.

Lemma threshold_rows : forallb threshold_row (Z.of_nat <$> seq 0 65) = true.
Proof. by vm_compute. Qed.

(** X20. With up to 64 requests counted, the default breaker is ready to trip
    exactly when at least three requests were counted and at least three
    fifths of them failed: the division and the comparison with 0.6 in
    [float64] lose nothing there. *)
Theorem default_breaker_threshold (requests failures : Z) :
  0 ≤ failures ≤ requests →
  requests ≤ 64 →
  defaultReadyToTrip (counts_of requests failures) = true ↔
  3 ≤ requests ∧ 3 * requests ≤ 5 * failures.
Proof.
  intros Hf Hr. pose proof threshold_rows as H.
  rewrite forallb_forall in H. specialize (H requests).
  assert (threshold_row requests = true) as Hrow.
  { apply H. apply list_elem_of_In. apply list_elem_of_fmap. exists (Z.to_nat requests).
    split; [lia|]. apply elem_of_seq. lia. }
  unfold threshold_row in Hrow. rewrite forallb_forall in Hrow. specialize (Hrow failures).
  assert (Bool.eqb (defaultReadyToTrip (counts_of requests failures))
                   ((3 <=? requests) && (3 * requests <=? 5 * failures)) = true) as He.
  { apply Hrow. apply list_elem_of_In. apply list_elem_of_fmap. exists (Z.to_nat failures).
    split; [lia|]. apply elem_of_seq. lia. }
  apply Bool.eqb_prop in He. rewrite He, andb_true_iff, !Z.leb_le. done.
Qed.

End BreakerFacts.

(** ** Whole numbers in [float64] and the delay of a retry *)

Module ExactFacts.

Import Float64Facts Exact.

Lemma digits2_pos_bounds (p : positive) :
  2 ^ (Z.pos (digits2_pos p) - 1) ≤ Z.pos p < 2 ^ Z.pos (digits2_pos p).
Proof.
  induction p as [p IH | p IH |]; cbn [digits2_pos]; [| |simpl; lia].
  - rewrite Pos2Z.inj_succ.
    replace (Z.succ (Z.pos (digits2_pos p)) - 1) with (Z.succ (Z.pos (digits2_pos p) - 1)) by lia.
    rewrite !Z.pow_succ_r by lia. lia.
  - rewrite Pos2Z.inj_succ.
    replace (Z.succ (Z.pos (digits2_pos p)) - 1) with (Z.succ (Z.pos (digits2_pos p) - 1)) by lia.
    rewrite !Z.pow_succ_r by lia. lia.
Qed.

Lemma digits2_pos_unique (p : positive) (d : Z) :
  2 ^ (d - 1) ≤ Z.pos p < 2 ^ d → Z.pos (digits2_pos p) = d.
Proof.
  intros [H1 H2]. pose proof (digits2_pos_bounds p) as [H3 H4].
  assert (0 < d).
  { destruct (Z.lt_trichotomy d 0) as [?|[->|?]];
      [rewrite Z.pow_neg_r in H2 by done; lia | simpl in H2; lia | done]. }
  assert (d - 1 < Z.pos (digits2_pos p)).
  { apply (Z.pow_lt_mono_r_iff 2); lia. }
  assert (Z.pos (digits2_pos p) - 1 < d).
  { apply (Z.pow_lt_mono_r_iff 2); lia. }
  lia.
Qed.

Lemma digits2_pos_mul_pow2 (p q : positive) (k : Z) :
  0 ≤ k → Z.pos q = Z.pos p * 2 ^ k →
  Z.pos (digits2_pos q) = Z.pos (digits2_pos p) + k.
Proof.
  intros Hk Hq. apply digits2_pos_unique. rewrite Hq.
  pose proof (digits2_pos_bounds p) as [H1 H2].
  replace (Z.pos (digits2_pos p) + k - 1) with ((Z.pos (digits2_pos p) - 1) + k) by lia.
  rewrite !Z.pow_add_r by lia.
  assert (0 < 2 ^ k) by (apply Z.pow_pos_nonneg; lia). nia.
Qed.

Lemma digits2_pos_mul (a b c : positive) :
  Z.pos c = Z.pos a * Z.pos b →
  Z.pos (digits2_pos a) + Z.pos (digits2_pos b) - 1 ≤ Z.pos (digits2_pos c).
Proof.
  intros Hc.
  pose proof (digits2_pos_bounds a) as [Ha _].
  pose proof (digits2_pos_bounds b) as [Hb _].
  pose proof (digits2_pos_bounds c) as [_ Hc'].
  assert (2 ^ (Z.pos (digits2_pos a) - 1 + (Z.pos (digits2_pos b) - 1)) < 2 ^ Z.pos (digits2_pos c)).
  { rewrite Z.pow_add_r by lia.
    assert (0 < 2 ^ (Z.pos (digits2_pos a) - 1)) by (apply Z.pow_pos_nonneg; lia).
    assert (0 < 2 ^ (Z.pos (digits2_pos b) - 1)) by (apply Z.pow_pos_nonneg; lia).
    nia. }
  apply Z.pow_lt_mono_r_iff in H; lia.
Qed.

Lemma iter_pos_nat {A} (f : A → A) (p : positive) : ∀ x,
  SpecFloat.iter_pos f p x = Nat.iter (Pos.to_nat p) f x.
Proof.
  induction p as [p IH | p IH |]; intros x; cbn [SpecFloat.iter_pos].
  - rewrite !IH, Pos2Nat.inj_xI. rewrite <- Nat.iter_add, <- Nat.iter_succ_r.
    f_equal. lia.
  - rewrite !IH, Pos2Nat.inj_xO. rewrite <- Nat.iter_add. f_equal. lia.
  - done.
Qed.

Lemma shr_1_even (m : Z) :
  0 < m →
  shr_1 {| shr_m := 2 * m; shr_r := false; shr_s := false |}
  = {| shr_m := m; shr_r := false; shr_s := false |}.
Proof. destruct m; done. Qed.

Lemma iter_shr_1_exact (k : nat) : ∀ m,
  0 < m →
  Nat.iter k shr_1 {| shr_m := m * 2 ^ Z.of_nat k; shr_r := false; shr_s := false |}
  = {| shr_m := m; shr_r := false; shr_s := false |}.
Proof.
  induction k as [|k IH]; intros m Hm.
  - cbn. by rewrite Z.mul_1_r.
  - rewrite Nat.iter_succ_r, Nat2Z.inj_succ, Z.pow_succ_r by lia.
    replace (m * (2 * 2 ^ Z.of_nat k)) with (2 * (m * 2 ^ Z.of_nat k)) by lia.
    rewrite shr_1_even; [by apply IH|].
    assert (0 < 2 ^ Z.of_nat k) by (apply Z.pow_pos_nonneg; lia). nia.
Qed.

Lemma fexp_normal (e : Z) : -1074 ≤ e → fexp prec emax (53 + e) = e.
Proof. unfold fexp, SpecFloat.emin, prec, emax. lia. Qed.

(** Rounding loses nothing of a mantissa that fits the format. *)
Lemma binary_round_aux_exact (s : bool) (M : positive) (q : positive) (E e : Z) :
  Z.pos (digits2_pos q) = 53 →
  -1074 ≤ e ≤ 971 →
  E ≤ e →
  Z.pos M = Z.pos q * 2 ^ (e - E) →
  binary_round_aux prec emax s (Z.pos M) E loc_Exact = S754_finite s q e.
Proof.
  intros Hq He HE HM. unfold binary_round_aux, shr_fexp.
  cbn [Zdigits2]. rewrite (digits2_pos_mul_pow2 q M (e - E)) by (done || lia).
  replace (Z.pos (digits2_pos q) + (e - E) + E) with (53 + e) by lia.
  rewrite fexp_normal by lia. cbn [shr_record_of_loc].
  assert (shr {| shr_m := Z.pos M; shr_r := false; shr_s := false |} E (e - E)
          = ({| shr_m := Z.pos q; shr_r := false; shr_s := false |}, e)) as ->.
  { unfold shr. destruct (e - E) as [|p|p] eqn:Hn; [| |lia].
    - rewrite HM, Z.mul_1_r. f_equal. lia.
    - rewrite iter_pos_nat, HM. rewrite <- (positive_nat_Z p).
      rewrite iter_shr_1_exact by lia. f_equal. rewrite positive_nat_Z. lia. }
  cbn [shr_m loc_of_shr_record round_nearest_even Zdigits2].
  rewrite Hq, fexp_normal by lia. rewrite Z.sub_diag. cbn [shr shr_record_of_loc shr_m].
  destruct (Z.leb_spec e (emax - prec)); [done|]. unfold emax, prec in *. lia.
Qed.

Lemma exact_digits (x : float64) (n : positive) :
  exact x (Z.pos n) →
  ∃ q e, x = S754_finite false q e ∧ Z.pos (digits2_pos q) = 53 ∧ -1074 ≤ e ≤ 0 ∧
         Z.pos q = Z.pos n * 2 ^ (- e) ∧ Z.pos (digits2_pos n) = 53 + e.
Proof.
  intros (q & e & -> & Hq & He & Hv).
  pose proof (digits2_pos_mul_pow2 n q (- e)) as H. rewrite Hq in H.
  specialize (H ltac:(lia) Hv).
  exists q, e. split_and!; (done || lia).
Qed.

(** The float of a positive integer below [2^53] is that integer. *)
Lemma of_int_exact (n : Z) : 0 < n < 2 ^ 53 → exact (of_int n) n.
Proof.
  intros [H0 Hn]. destruct n as [|p|p]; [lia| |lia].
  pose proof (digits2_pos_le p 53 Hn) as Hd.
  pose proof (digits2_pos_bounds p) as [Hb1 Hb2].
  set (d := Z.pos (digits2_pos p)) in *.
  assert (0 < Z.pos p * 2 ^ (53 - d)) as Hpos.
  { assert (0 < 2 ^ (53 - d)) by (apply Z.pow_pos_nonneg; lia). nia. }
  destruct (Z.pos p * 2 ^ (53 - d)) as [|q|q] eqn:Eq; [lia| |lia].
  assert (Z.pos (digits2_pos q) = 53) as Hq.
  { rewrite (digits2_pos_mul_pow2 p q (53 - d)) by (lia || done). fold d. lia. }
  exists q, (d - 53). split_and!; [|done|lia|lia|].
  - unfold of_int, binary_normalize, binary_round, shl_align.
    cbn [Zdigits2]. fold d.
    replace (fexp prec emax (d + 0)) with (d - 53)
      by (unfold fexp, SpecFloat.emin, prec, emax; lia).
    destruct (d - 53 - 0) as [|k|k] eqn:Hk; [| lia |].
    + assert (d = 53) as Hd53 by lia. rewrite Hd53 in *. 
      apply binary_round_aux_exact; [done|lia|lia|].
      rewrite Z.sub_diag, Z.mul_1_r. rewrite Z.sub_diag, Z.mul_1_r in Eq. lia.
    + apply binary_round_aux_exact; [done|lia|lia|].
      rewrite Z.sub_diag, Z.mul_1_r. rewrite iter_xO.
      replace (Z.pos k) with (53 - d) by lia. done.
  - replace (- (d - 53)) with (53 - d) by lia. done.
Qed.

(** The product of two such floats is the product, when it is below
    [2^53]. *)
Lemma mul_exact (x y : float64) (a b : Z) :
  exact x a → exact y b → 0 < a → 0 < b → a * b < 2 ^ 53 →
  exact (mul x y) (a * b).
Proof.
  intros Hx Hy Ha Hb Hab.
  destruct a as [|a|a]; [lia| |lia]. destruct b as [|b|b]; [lia| |lia].
  destruct (exact_digits x a Hx) as (qa & ea & -> & Hqa & Hea & Hva & Hda).
  destruct (exact_digits y b Hy) as (qb & eb & -> & Hqb & Heb & Hvb & Hdb).
  change (Z.pos a * Z.pos b) with (Z.pos (a * b)) in *.
  pose proof (digits2_pos_le (a * b) 53 Hab) as Hd.
  pose proof (digits2_pos_mul a b (a * b) eq_refl) as Hdm.
  set (d := Z.pos (digits2_pos (a * b))) in *.
  assert (0 < Z.pos (a * b) * 2 ^ (53 - d)) as Hpos.
  { assert (0 < 2 ^ (53 - d)) by (apply Z.pow_pos_nonneg; lia). nia. }
  destruct (Z.pos (a * b) * 2 ^ (53 - d)) as [|q|q] eqn:Eq; [lia| |lia].
  assert (Z.pos (digits2_pos q) = 53) as Hq.
  { rewrite (digits2_pos_mul_pow2 (a * b) q (53 - d)) by (lia || done). fold d. lia. }
  exists q, (d - 53). split_and!; [|done|lia|lia|].
  - unfold mul. cbn [SFmul xorb].
    apply binary_round_aux_exact; [done|lia|lia|].
    rewrite Pos2Z.inj_mul, Hva, Hvb, <- Eq.
    replace (d - 53 - (ea + eb)) with ((- ea) + (- eb) - (53 - d)) by lia.
    rewrite Pos2Z.inj_mul.
    assert (2 ^ (- ea) * 2 ^ (- eb) = 2 ^ (53 - d) * 2 ^ (- ea + - eb - (53 - d))) as Hp.
    { rewrite <- !Z.pow_add_r by lia. f_equal. lia. }
    nia.
  - replace (- (d - 53)) with (53 - d) by lia. done.
Qed.

Lemma exact_unique (x y : float64) (n : Z) : 0 < n → exact x n → exact y n → x = y.
Proof.
  intros Hn Hx Hy. destruct n as [|n|n]; [lia| |lia].
  destruct (exact_digits x n Hx) as (qa & ea & -> & _ & _ & Hva & Hda).
  destruct (exact_digits y n Hy) as (qb & eb & -> & _ & _ & Hvb & Hdb).
  assert (ea = eb) as -> by lia. f_equal. lia.
Qed.

(** The conversion back gives the integer. *)
Lemma to_int64_exact (undef : Z) (x : float64) (n : Z) :
  0 < n → exact x n → to_int64 undef x = n.
Proof.
  intros Hn (q & e & -> & Hq & He & Hv).
  pose proof (digits2_pos_bounds q) as [_ Hb]. rewrite Hq in Hb.
  assert (0 < 2 ^ (- e)) by (apply Z.pow_pos_nonneg; lia).
  assert (n ≤ Z.pos q) by nia.
  unfold to_int64, trunc.
  assert ((if 0 <=? e then Z.shiftl (Z.pos q) e else Z.shiftr (Z.pos q) (- e)) = n) as ->.
  { destruct (Z.leb_spec 0 e).
    - assert (e = 0) as -> by lia. rewrite Z.shiftl_0_r. simpl in Hv. lia.
    - rewrite Z.shiftr_div_pow2 by lia. rewrite Hv. apply Z.div_mul. lia. }
  unfold in_int64, min_int64, max_int64.
  destruct (Z.leb_spec (- 2 ^ 63) n), (Z.leb_spec n (2 ^ 63 - 1)); cbn [andb]; lia.
Qed.

Lemma wrap64_small (z : Z) : - 2 ^ 63 ≤ z < 2 ^ 63 → wrap64 z = z.
Proof. intros H. unfold wrap64. rewrite Z.mod_small; lia. Qed.

Lemma in_int64_bounds (z : Z) : - 2 ^ 63 ≤ z < 2 ^ 63 → in_int64 z = true.
Proof.
  intros H. unfold in_int64, min_int64, max_int64. apply andb_true_iff.
  rewrite !Z.leb_le. lia.
Qed.

Lemma mul_zero_l (x : float64) (s : bool) :
  is_finite x = true → ∃ s', mul (S754_zero s) x = S754_zero s'.
Proof. destruct x; try done; intros _; by eexists. Qed.

(** The product of the floats of two integers: zero, or the product. *)
Lemma mul_of_int (a b : Z) :
  0 ≤ a < 2 ^ 63 → 0 ≤ b < 2 ^ 63 → a * b < 2 ^ 53 →
  (a * b = 0 → ∃ s, mul (of_int a) (of_int b) = S754_zero s) ∧
  (0 < a * b → exact (mul (of_int a) (of_int b)) (a * b)).
Proof.
  intros Ha Hb Hab. split.
  - intros H0. apply Z.mul_eq_0 in H0 as [->| ->].
    + change (of_int 0) with (S754_zero false). apply mul_zero_l, of_int_finite.
      apply in_int64_bounds. lia.
    + change (of_int 0) with (S754_zero false). apply ClientFacts.mul_zero_r, of_int_finite.
      apply in_int64_bounds. lia.
  - intros Hpos. assert (0 < a ∧ 0 < b) as [Ha0 Hb0] by nia.
    apply mul_exact; [apply of_int_exact; nia | apply of_int_exact; nia | done..].
Qed.

Import Client.

(** X26. With a whole number for a factor, the delay is the product of the
    initial delay, the factor and the number of attempts made before the
    last, clamped at [MaxBackoff], as long as the product stays below [2^53]
    nanoseconds (some 104 days): the delay grows by the same amount with
    every attempt, and does not double. *)
Theorem calculateBackoff_exactly_linear `{lib : Library} (rc : RESTClient) (r : RetryConfig)
    (factor attempt : Z) :
  retry rc = Some r →
  BackoffFactor r = of_int factor →
  0 ≤ factor < 2 ^ 63 →
  0 ≤ InitialBackoff r < 2 ^ 63 →
  1 ≤ attempt < 2 ^ 63 →
  factor * (attempt - 1) < 2 ^ 53 →
  InitialBackoff r * (factor * (attempt - 1)) < 2 ^ 53 →
  calculateBackoff rc attempt
  = Z.min (MaxBackoff r) (InitialBackoff r * (factor * (attempt - 1))).
Proof.
  intros Hr Hf Hfactor Hi Ha Hfa Hifa. unfold calculateBackoff. rewrite Hr, Hf. cbv zeta.
  rewrite wrap64_small by lia.
  set (I := InitialBackoff r) in *. set (P := factor * (attempt - 1)) in *.
  assert (0 ≤ P) by (unfold P; nia).
  assert (to_int64 undef (mul (of_int I) (mul (of_int factor) (of_int (attempt - 1)))) = I * P)
    as ->.
  { destruct (mul_of_int factor (attempt - 1)) as [Hz Hx]; [lia..|]. fold P in Hz, Hx.
    destruct (Z.eq_dec P 0) as [E0|Hne0].
    - destruct (Hz E0) as [s ->]. rewrite E0, Z.mul_0_r.
      destruct (ClientFacts.mul_zero_r (of_int I) s) as [s' ->].
      { apply of_int_finite, in_int64_bounds. lia. }
      apply ClientFacts.to_int64_zero.
    - specialize (Hx ltac:(lia)).
      destruct (Z.eq_dec I 0) as [EI|HI].
      + rewrite EI, Z.mul_0_l. change (of_int 0) with (S754_zero false).
        destruct Hx as (q & e & -> & _). apply ClientFacts.to_int64_zero.
      + apply to_int64_exact; [nia|].
        apply mul_exact; [apply of_int_exact; nia | done | lia | lia | done]. }
  destruct (Z.ltb_spec (MaxBackoff r) (I * P)); lia.
Qed.

End ExactFacts.

(** ** Encoding and decoding a value *)

Module RoundTripFacts.

Import Helpers Generic StringFacts ParserFacts.

Local Open Scope nat_scope.

(** *** String literals *)

Lemma append_nil_l (t : string) : EmptyString +:+ t = t.
Proof. reflexivity. Qed.

Lemma take_drop (k : nat) : ∀ s, take k s +:+ drop k s = s.
Proof.
  induction k as [|k IH]; intros s; [by destruct s|].
  destruct s as [|c s]; [done|]. cbn [take drop]. by rewrite append_cons, IH.
Qed.

(** The length of the sequence at the head of a string depends on the
    bytes of the sequence only. *)
Lemma utf8_length_prefix (s t : string) (k : nat) :
  utf8_length s = Some k → utf8_length (take k s +:+ t) = Some k.
Proof.
  unfold utf8_length. destruct s as [|a r]; [done|].
  destruct (code a <? 128)%N eqn:Ha.
  { intros [= <-]. cbn [take]. rewrite !append_cons, ?append_nil_l. by rewrite Ha. }
  destruct r as [|b r]; [done|].
  destruct (between 194 223 a && between 128 191 b) eqn:H2.
  { intros [= <-]. cbn [take]. rewrite !append_cons, ?append_nil_l. by rewrite Ha, H2. }
  destruct r as [|c r]; [done|].
  match goal with |- (if ?x then _ else _) = _ → _ => destruct x eqn:H3 end.
  { intros [= <-]. cbn [take]. rewrite !append_cons, ?append_nil_l. by rewrite Ha, H2, H3. }
  destruct r as [|d r]; [done|].
  match goal with |- (if ?x then _ else _) = _ → _ => destruct x eqn:H4 end; [|done].
  intros [= <-]. cbn [take]. rewrite !append_cons, ?append_nil_l. by rewrite Ha, H2, H3, H4.
Qed.

Lemma take_app_exact (k : nat) : ∀ s rest, k ≤ String.length s →
  take k (take k s +:+ rest) = take k s ∧ drop k (take k s +:+ rest) = rest.
Proof.
  induction k as [|k IH]; intros s rest Hk.
  - cbn [take]. rewrite append_nil_l. by destruct s, rest.
  - destruct s as [|c s]; [simpl in Hk; lia|]. rewrite length_cons in Hk.
    cbn [take]. rewrite append_cons. cbn [take drop].
    destruct (IH s rest) as [-> ->]; [lia|done].
Qed.

(** One byte below 128, as the encoder writes it, is read back as itself. *)
Lemma unquote_escaped (c : ascii) :
  (code c <? 128)%N = true → ∀ f rest,
  unquote (S f) (escaped c +:+ rest) =
  match unquote f rest with
  | Parsed t k => Parsed (String c t) k
  | SyntaxError => SyntaxError
  | OutOfFuel => OutOfFuel
  end.
Proof.
  destruct c as [[] [] [] [] [] [] [] []]; intros H; vm_compute in H;
    try discriminate H; clear H; intros f rest; reflexivity.
Qed.

Lemma escape_ascii (n : nat) (c : ascii) (r : string) :
  (code c <? 128)%N = true → escape (S n) (String c r) = escaped c +:+ escape n r.
Proof.
  intros H. unfold escaped. cbn [escape]. rewrite H. by rewrite append_empty_r.
Qed.

(** The escapes of the line and paragraph separators. *)
Lemma unquote_separator (f : nat) (rest : string) (last : N) :
  last = 56%N ∨ last = 57%N →
  unquote (S f) (of_codes [92; 117; 50; 48; 50; last]%N +:+ rest) =
  match unquote f rest with
  | Parsed t k => Parsed (of_codes [226; 128; 112 + last]%N +:+ t) k
  | SyntaxError => SyntaxError
  | OutOfFuel => OutOfFuel
  end.
Proof. intros [-> | ->]; reflexivity. Qed.

(** A well-formed sequence of several bytes is read back as itself. *)
Lemma unquote_sequence (f k : nat) (c : ascii) (r rest : string) :
  (code c <? 128)%N = false →
  utf8_length (String c r) = Some k →
  unquote (S f) (take k (String c r) +:+ rest) =
  match unquote f rest with
  | Parsed t k' => Parsed (take k (String c r) +:+ t) k'
  | SyntaxError => SyntaxError
  | OutOfFuel => OutOfFuel
  end.
Proof.
  intros Hc Hk. pose proof (utf8_length_bounds _ _ Hk) as Hb.
  pose proof (utf8_length_prefix _ rest _ Hk) as Hp.
  destruct (take_app_exact k (String c r) rest) as [Ht Hd]; [lia|].
  destruct k as [|k]; [lia|].
  cbn [take] in *. rewrite append_cons in *. cbn [take drop] in Ht, Hd. cbn [unquote].
  apply N.ltb_ge in Hc.
  replace (code c =? 34)%N with false by (symmetry; apply N.eqb_neq; lia).
  replace (code c =? 92)%N with false by (symmetry; apply N.eqb_neq; lia).
  replace (code c <? 32)%N with false by (symmetry; apply N.ltb_ge; lia).
  rewrite Hp. cbn [take drop]. rewrite Hd, Ht. done.
Qed.

(** A string literal of the encoder is read back as the string it was
    written for, when the string is valid UTF-8. *)
Lemma unquote_escape (f : nat) : ∀ (n : nat) (s X : string),
  valid_utf8 n s = true →
  in_fuel (unquote f (escape n s +:+ String (ascii_of_N 34) X)) →
  unquote f (escape n s +:+ String (ascii_of_N 34) X) = Parsed s X.
Proof.
  induction f as [|f IH]; intros n s X Hv Hf; [done|].
  destruct n as [|n].
  { destruct s; [|done]. reflexivity. }
  destruct s as [|c r]; [reflexivity|].
  cbn [valid_utf8] in Hv.
  destruct (code c <? 128)%N eqn:Hc.
  - unfold utf8_length in Hv. rewrite Hc in Hv. cbn [drop] in Hv.
    rewrite escape_ascii, append_assoc, unquote_escaped in * by done.
    specialize (IH n r X Hv).
    destruct (unquote f (escape n r +:+ String (ascii_of_N 34) X)) as [t k| |]; [| |done].
    + by injection (IH ltac:(done)) as -> ->.
    + by specialize (IH ltac:(done)).
  - destruct (utf8_length (String c r)) as [k|] eqn:Hk; [|done].
    specialize (IH n (drop k (String c r)) X Hv).
    revert Hf. cbn [escape]. rewrite Hc, Hk.
    replace (Parsed (String c r) X)
      with (Parsed (take k (String c r) +:+ drop k (String c r)) X)
      by (by rewrite take_drop).
    destruct (String.eqb (take k (String c r)) (of_codes [226; 128; 168]%N)) eqn:E1.
    { apply String.eqb_eq in E1. rewrite E1, append_assoc.
      rewrite (unquote_separator f _ 56) by (by left).
      destruct (unquote f _) as [t k'| |]; [| |done].
      + intros _. by injection (IH ltac:(done)) as -> ->.
      + by specialize (IH ltac:(done)). }
    destruct (String.eqb (take k (String c r)) (of_codes [226; 128; 169]%N)) eqn:E2.
    { apply String.eqb_eq in E2. rewrite E2, append_assoc.
      rewrite (unquote_separator f _ 57) by (by right).
      destruct (unquote f _) as [t k'| |]; [| |done].
      + intros _. by injection (IH ltac:(done)) as -> ->.
      + by specialize (IH ltac:(done)). }
    rewrite append_assoc, unquote_sequence by done.
    destruct (unquote f _) as [t k'| |]; [| |done].
    + intros _. by injection (IH ltac:(done)) as -> ->.
    + by specialize (IH ltac:(done)).
Qed.

(** *** Numbers *)

Lemma delimited_head (c : ascii) (X : string) :
  delimited (String c X) →
  is_digit c = false ∧ (code c =? 46)%N = false ∧
  ((code c =? 101)%N || (code c =? 69)%N) = false ∧
  ((code c =? 43)%N || (code c =? 45)%N) = false.
Proof.
  unfold delimited, is_digit. by intros [-> | [-> | ->]].
Qed.

Lemma take_digits_delimited (X : string) : ∀ s d r,
  delimited X → take_digits s = (d, r) → take_digits (s +:+ X) = (d, r +:+ X).
Proof.
  intros s d r HX. revert d r.
  induction s as [|c s IH]; intros d r H.
  - injection H as <- <-. rewrite append_nil_l. destruct X as [|c X]; [done|].
    cbn [take_digits]. by destruct (delimited_head c X HX) as (-> & _).
  - rewrite append_cons. cbn [take_digits] in *. destruct (is_digit c).
    + destruct (take_digits s) as [d' r'] eqn:E. injection H as <- <-.
      by rewrite (IH d' r' eq_refl).
    + by injection H as <- <-.
Qed.

Lemma scan_fraction_delimited (X s frac r : string) :
  delimited X → scan_fraction s = Some (frac, r) →
  scan_fraction (s +:+ X) = Some (frac, r +:+ X).
Proof.
  intros HX H. destruct s as [|c s].
  - injection H as <- <-. rewrite append_nil_l. destruct X as [|c X]; [done|].
    cbn [scan_fraction]. by destruct (delimited_head c X HX) as (_ & -> & _).
  - rewrite append_cons. cbn [scan_fraction] in *. destruct (code c =? 46)%N.
    + destruct (take_digits s) as [fd r'] eqn:E.
      rewrite (take_digits_delimited X s fd r' HX E).
      destruct fd; [done|]. by injection H as <- <-.
    + by injection H as <- <-.
Qed.

Lemma scan_exponent_delimited (X s exp r : string) :
  delimited X → scan_exponent s = Some (exp, r) →
  scan_exponent (s +:+ X) = Some (exp, r +:+ X).
Proof.
  intros HX H. destruct s as [|c s].
  - injection H as <- <-. rewrite append_nil_l. destruct X as [|c X]; [done|].
    cbn [scan_exponent]. by destruct (delimited_head c X HX) as (_ & _ & -> & _).
  - rewrite append_cons. cbn [scan_exponent] in *.
    destruct ((code c =? 101)%N || (code c =? 69)%N); [|by injection H as <- <-].
    destruct s as [|g s].
    { cbn [scan_exponent_sign take_digits] in H. done. }
    rewrite append_cons. cbn [scan_exponent_sign] in *.
    destruct ((code g =? 43)%N || (code g =? 45)%N).
    + destruct (take_digits s) as [ed r2] eqn:E.
      rewrite (take_digits_delimited X s ed r2 HX E).
      destruct ed; [done|]. by injection H as <- <-.
    + destruct (take_digits (String g s)) as [ed r2] eqn:E.
      rewrite <- append_cons, (take_digits_delimited X _ ed r2 HX E).
      destruct ed; [done|]. by injection H as <- <-.
Qed.

Lemma take_digits_head (s ds r : string) (c : ascii) :
  take_digits s = (String c ds, r) → ∃ s', s = String c s' ∧ is_digit c = true.
Proof.
  destruct s as [|c' s]; [done|]. cbn [take_digits].
  destruct (is_digit c') eqn:Hc; [|done].
  destruct (take_digits s). intros [= -> _ _]. by exists s.
Qed.

(** A literal that the scanner takes whole is taken the same before a
    comma and before a closing bracket or brace; it starts with a minus sign
    or a digit. *)
Lemma scan_number_delimited (X s lit : string) :
  delimited X → scan_number s = Some (lit, EmptyString) →
  scan_number (s +:+ X) = Some (lit, X) ∧
  ∃ c s', s = String c s' ∧ (code c = 45%N ∨ is_digit c = true).
Proof.
  intros HX. unfold scan_number.
  assert (∃ sign s1, scan_sign s = (sign, s1) ∧
            (s1 = EmptyString ∨ scan_sign (s +:+ X) = (sign, s1 +:+ X)) ∧
            ((∃ c, s = String c s1 ∧ code c = 45%N) ∨ s1 = s)) as (sign & s1 & -> & Hs & Hh).
  { destruct s as [|c s]; [by exists EmptyString, EmptyString; split_and!; [|left|right]|].
    rewrite append_cons. cbn [scan_sign]. destruct (code c =? 45)%N eqn:Hc.
    - exists (String c EmptyString), s. split_and!; [done|by right|left].
      exists c. by apply N.eqb_eq in Hc.
    - exists EmptyString, (String c s). split_and!; [done|right|by right].
      by rewrite append_cons. }
  destruct (take_digits s1) as [int s2] eqn:E. destruct int as [|d ds]; [done|].
  destruct Hs as [-> | ->]; [done|].
  rewrite (take_digits_delimited X s1 _ s2 HX E).
  intros H. split.
  - destruct ((code d =? 48)%N && negb (String.eqb ds EmptyString)) eqn:Hz.
    + injection H as _ H. apply andb_true_iff in Hz as [_ Hz].
      destruct ds; [done|]. discriminate H.
    + destruct (scan_fraction s2) as [[frac s3]|] eqn:Ef; [|done].
      rewrite (scan_fraction_delimited X s2 frac s3 HX Ef).
      destruct (scan_exponent s3) as [[exp s4]|] eqn:Ee; [|done].
      rewrite (scan_exponent_delimited X s3 exp s4 HX Ee).
      by injection H as <- ->.
  - destruct (take_digits_head s1 ds s2 d E) as (s' & -> & Hd).
    destruct Hh as [(c & -> & Hc) | <-]; [exists c; eauto|exists d; eauto].
Qed.

(** *** The parser at the first byte of a value *)

Lemma number_head (c : ascii) :
  code c = 45%N ∨ is_digit c = true →
  is_space c = false ∧ (code c = 45 ∨ 48 ≤ code c ≤ 57)%N.
Proof.
  intros H.
  assert (code c = 45 ∨ 48 ≤ code c ≤ 57)%N as Hc.
  { destruct H as [H|H]; [by left|right]. unfold is_digit in H.
    apply andb_true_iff in H as [H1 H2]. apply N.leb_le in H1, H2. lia. }
  split; [|done]. apply bool_decide_eq_false. rewrite !elem_of_cons, elem_of_nil. lia.
Qed.

Lemma parse_value_number (f : nat) (d : N) (c : ascii) (r : string) :
  code c = 45%N ∨ is_digit c = true →
  parse_value (S f) d (String c r) =
  match scan_number (String c r) with
  | Some (lit, k) => Parsed (JNumber lit) k
  | None => SyntaxError
  end.
Proof.
  intros H. destruct (number_head c H) as [Hsp Hc].
  cbn [parse_value skip_space]. rewrite Hsp.
  replace (code c =? 123)%N with false by (symmetry; apply N.eqb_neq; lia).
  replace (code c =? 91)%N with false by (symmetry; apply N.eqb_neq; lia).
  replace (code c =? 34)%N with false by (symmetry; apply N.eqb_neq; lia).
  replace (code c =? 116)%N with false by (symmetry; apply N.eqb_neq; lia).
  replace (code c =? 102)%N with false by (symmetry; apply N.eqb_neq; lia).
  replace (code c =? 110)%N with false by (symmetry; apply N.eqb_neq; lia).
  done.
Qed.

Lemma parse_value_string (f : nat) (d : N) (r : string) :
  parse_value (S f) d (String (ascii_of_N 34) r) =
  match unquote (S (String.length r)) r with
  | Parsed t k => Parsed (JString t) k
  | SyntaxError => SyntaxError
  | OutOfFuel => OutOfFuel
  end.
Proof. reflexivity. Qed.

Lemma parse_value_array (f : nat) (d : N) (c : ascii) (r : string) :
  (d < maxNestingDepth)%N → is_space c = false → code c ≠ 93%N →
  parse_value (S f) d (String "["%char (String c r)) =
  match parse_elements f (d + 1) (String c r) with
  | Parsed es k => Parsed (JArray es) k
  | SyntaxError => SyntaxError
  | OutOfFuel => OutOfFuel
  end.
Proof.
  intros Hd Hsp Hc.
  change (parse_value (S f) d (String "["%char (String c r))) with
    (if (maxNestingDepth <=? d)%N then SyntaxError
     else match skip_space (String c r) with
          | String c' r' =>
              if (code c' =? 93)%N then Parsed (JArray []) r'
              else match parse_elements f (d + 1) (String c' r') with
                   | Parsed es k => Parsed (JArray es) k
                   | SyntaxError => SyntaxError
                   | OutOfFuel => OutOfFuel
                   end
          | EmptyString => SyntaxError
          end).
  apply N.leb_gt in Hd. rewrite Hd. cbn [skip_space]. rewrite Hsp.
  apply N.eqb_neq in Hc. by rewrite Hc.
Qed.

Lemma parse_value_empty_array (f : nat) (d : N) (X : string) :
  (d < maxNestingDepth)%N →
  parse_value (S f) d (String "["%char (String "]"%char X)) = Parsed (JArray []) X.
Proof.
  intros Hd.
  change (parse_value (S f) d (String "["%char (String "]"%char X))) with
    (if (maxNestingDepth <=? d)%N then SyntaxError else Parsed (JArray []) X).
  apply N.leb_gt in Hd. by rewrite Hd.
Qed.

Lemma parse_value_object (f : nat) (d : N) (r : string) :
  (d < maxNestingDepth)%N →
  parse_value (S f) d (String "{"%char (String (ascii_of_N 34) r)) =
  match parse_members f (d + 1) (String (ascii_of_N 34) r) with
  | Parsed ms k => Parsed (JObject ms) k
  | SyntaxError => SyntaxError
  | OutOfFuel => OutOfFuel
  end.
Proof.
  intros Hd.
  change (parse_value (S f) d (String "{"%char (String (ascii_of_N 34) r))) with
    (if (maxNestingDepth <=? d)%N then SyntaxError
     else match parse_members f (d + 1) (String (ascii_of_N 34) r) with
          | Parsed ms k => Parsed (JObject ms) k
          | SyntaxError => SyntaxError
          | OutOfFuel => OutOfFuel
          end).
  apply N.leb_gt in Hd. by rewrite Hd.
Qed.

Lemma parse_value_empty_object (f : nat) (d : N) (X : string) :
  (d < maxNestingDepth)%N →
  parse_value (S f) d (String "{"%char (String "}"%char X)) = Parsed (JObject []) X.
Proof.
  intros Hd.
  change (parse_value (S f) d (String "{"%char (String "}"%char X))) with
    (if (maxNestingDepth <=? d)%N then SyntaxError else Parsed (JObject []) X).
  apply N.leb_gt in Hd. by rewrite Hd.
Qed.

(** A member of an object: its key, a colon and its value. *)
Lemma parse_members_key (f : nat) (d : N) (key Y : string) :
  ValidString key = true →
  parse_members (S f) d
    (String (ascii_of_N 34)
       (escape (String.length key) key +:+ String (ascii_of_N 34) (String ":"%char Y))) =
  match parse_value f d Y with
  | Parsed v k =>
      match skip_space k with
      | String dd rest =>
          if (code dd =? 125)%N then Parsed [(key, v)] rest
          else if (code dd =? 44)%N then
            match parse_members f d rest with
            | Parsed ms rest' => Parsed ((key, v) :: ms) rest'
            | SyntaxError => SyntaxError
            | OutOfFuel => OutOfFuel
            end
          else SyntaxError
      | EmptyString => SyntaxError
      end
  | SyntaxError => SyntaxError
  | OutOfFuel => OutOfFuel
  end.
Proof.
  intros Hv.
  set (r := escape (String.length key) key +:+ String (ascii_of_N 34) (String ":"%char Y)).
  assert (Hu : unquote (S (String.length r)) r = Parsed key (String ":"%char Y)).
  { apply unquote_escape; [done|].
    destruct (unquote_fuel (S (String.length r)) r) as [Hin _]. apply Hin. lia. }
  change (parse_members (S f) d (String (ascii_of_N 34) r)) with
    (match unquote (S (String.length r)) r with
     | Parsed key k =>
         match skip_space k with
         | String colon k' =>
             if (code colon =? 58)%N then
               match parse_value f d k' with
               | Parsed v k'' =>
                   match skip_space k'' with
                   | String d0 rest =>
                       if (code d0 =? 125)%N then Parsed [(key, v)] rest
                       else if (code d0 =? 44)%N then
                         match parse_members f d rest with
                         | Parsed ms rest' => Parsed ((key, v) :: ms) rest'
                         | SyntaxError => SyntaxError
                         | OutOfFuel => OutOfFuel
                         end
                       else SyntaxError
                   | EmptyString => SyntaxError
                   end
               | SyntaxError => SyntaxError
               | OutOfFuel => OutOfFuel
               end
             else SyntaxError
         | EmptyString => SyntaxError
         end
     | SyntaxError => SyntaxError
     | OutOfFuel => OutOfFuel
     end).
  rewrite Hu. reflexivity.
Qed.

Lemma quote_text (s X : string) :
  quote s +:+ X =
  String (ascii_of_N 34) (escape (String.length s) s +:+ String (ascii_of_N 34) X).
Proof.
  unfold quote. change (of_codes [34%N]) with (String (ascii_of_N 34) EmptyString).
  by rewrite !append_assoc, !append_cons, !append_nil_l.
Qed.

Lemma join_cons (sep x : string) (l : list string) :
  join sep (x :: l) =
  x +:+ match l with [] => EmptyString | _ :: _ => sep +:+ join sep l end.
Proof.
  assert (∀ l a b, foldl (λ acc y, acc +:+ sep +:+ y) (a +:+ b) l =
                   a +:+ foldl (λ acc y, acc +:+ sep +:+ y) b l) as Hfold.
  { clear. induction l as [|y l IH]; intros a b; [done|].
    cbn [foldl]. by rewrite append_assoc, IH. }
  destruct l as [|y l]; cbn [join foldl]; [by rewrite append_empty_r|].
  by rewrite !Hfold.
Qed.

Lemma append_char (c : ascii) (Y : string) : String c EmptyString +:+ Y = String c Y.
Proof. reflexivity. Qed.

Lemma member_text (k t Y : string) :
  (quote k +:+ ":" +:+ t) +:+ Y =
  String (ascii_of_N 34)
    (escape (String.length k) k +:+ String (ascii_of_N 34) (String ":"%char (t +:+ Y))).
Proof. by rewrite append_assoc, quote_text, append_assoc, append_char. Qed.

Lemma parse_members_in_fuel (f : nat) (d : N) (key Y : string) :
  ValidString key = true →
  in_fuel (parse_members (S f) d
             (String (ascii_of_N 34)
                (escape (String.length key) key +:+
                 String (ascii_of_N 34) (String ":"%char Y)))) →
  in_fuel (parse_value f d Y).
Proof.
  intros Hv. rewrite parse_members_key by done. unfold in_fuel.
  by destruct (parse_value f d Y).
Qed.

Lemma parse_members_last (f : nat) (d : N) (key Y X : string) (v : json) :
  ValidString key = true →
  parse_value f d Y = Parsed v (String "}"%char X) →
  parse_members (S f) d
    (String (ascii_of_N 34)
       (escape (String.length key) key +:+ String (ascii_of_N 34) (String ":"%char Y))) =
  Parsed [(key, v)] X.
Proof. intros Hv H. rewrite parse_members_key by done. by rewrite H. Qed.

Lemma parse_members_more (f : nat) (d : N) (key Y R : string) (v : json) :
  ValidString key = true →
  parse_value f d Y = Parsed v (String ","%char R) →
  parse_members (S f) d
    (String (ascii_of_N 34)
       (escape (String.length key) key +:+ String (ascii_of_N 34) (String ":"%char Y))) =
  match parse_members f d R with
  | Parsed ms rest => Parsed ((key, v) :: ms) rest
  | SyntaxError => SyntaxError
  | OutOfFuel => OutOfFuel
  end.
Proof. intros Hv H. rewrite parse_members_key by done. by rewrite H. Qed.

Lemma parse_elements_in_fuel (f : nat) (d : N) (Y : string) :
  in_fuel (parse_elements (S f) d Y) → in_fuel (parse_value f d Y).
Proof. cbn [parse_elements]. unfold in_fuel. by destruct (parse_value f d Y). Qed.

Lemma parse_elements_last (f : nat) (d : N) (Y X : string) (v : json) :
  parse_value f d Y = Parsed v (String "]"%char X) →
  parse_elements (S f) d Y = Parsed [v] X.
Proof. intros H. cbn [parse_elements]. by rewrite H. Qed.

Lemma parse_elements_more (f : nat) (d : N) (Y R : string) (v : json) :
  parse_value f d Y = Parsed v (String ","%char R) →
  parse_elements (S f) d Y =
  match parse_elements f d R with
  | Parsed es rest => Parsed (v :: es) rest
  | SyntaxError => SyntaxError
  | OutOfFuel => OutOfFuel
  end.
Proof. intros H. cbn [parse_elements]. by rewrite H. Qed.

(** *** Values *)

Lemma all_of_entries (P : string → value → bool) (m : gmap string value) :
  map_fold (λ k x b, P k x && b) true m = true ↔ ∀ k v, m !! k = Some v → P k v = true.
Proof.
  apply (map_fold_weak_ind
           (λ r m, r = true ↔ ∀ k v, m !! k = Some v → P k v = true)).
  - split; [intros _ k v; by rewrite lookup_empty | done].
  - intros i x m' r Hi IH. rewrite andb_true_iff, IH. split.
    + intros [Hx Hm] k v. destruct (decide (i = k)) as [->|Hne].
      * rewrite lookup_insert_eq. by intros [= <-].
      * rewrite lookup_insert_ne by done. apply Hm.
    + intros H. split.
      * apply (H i). by rewrite lookup_insert_eq.
      * intros k v Hk. apply (H k). rewrite lookup_insert_ne; [done|].
        intros ->. by rewrite Hi in Hk.
Qed.

Lemma depth_elem (l : list value) (x : value) :
  x ∈ l → (depth x < depth (VSlice l))%N.
Proof.
  intros H. cbn [depth]. induction H as [x l|x w l _ IH]; cbn [foldr]; lia.
Qed.

Lemma depth_lookup (m : gmap string value) (k : string) (x : value) :
  m !! k = Some x → (depth x < depth (VMap m))%N.
Proof.
  intros H. cbn [depth].
  rewrite (map_fold_delete_L _ _ k x m); [lia| |done].
  intros. lia.
Qed.

(** Writing entries that are those of a map, and that include all its keys,
    into an empty map gives the map. *)
Lemma foldl_insert_all (kvs : list (string * value)) (m : gmap string value) :
  (∀ kv, kv ∈ kvs → m !! kv.1 = Some kv.2) →
  (∀ k, is_Some (m !! k) → k ∈ kvs.*1) →
  foldl (λ a (kv : string * value), <[kv.1 := kv.2]> a) ∅ kvs = m.
Proof.
  intros Hin Hall.
  assert (L1 : ∀ (l : list (string * value)) (acc : gmap string value) k v,
            foldl (λ a (kv : string * value), <[kv.1 := kv.2]> a) acc l !! k = Some v →
            (k, v) ∈ l ∨ acc !! k = Some v).
  { induction l as [|[k0 v0] l IH]; intros acc k v H; [by right|].
    cbn [foldl fst snd] in H. apply IH in H as [H|H]; [left; by right|].
    destruct (decide (k0 = k)) as [->|Hne].
    - rewrite lookup_insert_eq in H. injection H as ->. left. by left.
    - rewrite lookup_insert_ne in H by done. by right. }
  assert (L2 : ∀ (l : list (string * value)) (acc : gmap string value) k,
            k ∈ l.*1 ∨ is_Some (acc !! k) →
            is_Some (foldl (λ a (kv : string * value), <[kv.1 := kv.2]> a) acc l !! k)).
  { induction l as [|[k0 v0] l IH]; intros acc k H.
    - destruct H as [H|H]; [by apply elem_of_nil in H|done].
    - cbn [foldl fst snd]. apply IH.
      destruct (decide (k0 = k)) as [->|Hne]; [right; by rewrite lookup_insert_eq|].
      rewrite lookup_insert_ne by done.
      destruct H as [H|H]; [left|by right].
      rewrite fmap_cons in H. apply elem_of_cons in H as [H|H]; [by subst|done]. }
  apply map_eq. intros k.
  destruct (m !! k) as [v|] eqn:Hk.
  - destruct (L2 kvs ∅ k) as [v' Hv']; [left; by apply Hall|].
    rewrite Hv'. apply L1 in Hv' as [Hv'|Hv']; [|by rewrite lookup_empty in Hv'].
    apply Hin in Hv'. cbn [fst snd] in Hv'. by rewrite <- Hv', Hk.
  - destruct (foldl _ ∅ kvs !! k) as [v'|] eqn:Hv'; [|done].
    apply L1 in Hv' as [Hv'|Hv']; [|by rewrite lookup_empty in Hv'].
    apply Hin in Hv'. cbn [fst snd] in Hv'. by rewrite Hk in Hv'.
Qed.

Lemma choose_list {A B} (R : A → B → Prop) (l : list B) :
  (∀ b, b ∈ l → ∃ a, R a b) → ∃ k, Forall2 R k l.
Proof.
  induction l as [|b l IH]; intros H; [by exists []|].
  destruct (H b) as [a Ha]; [by left|].
  destruct IH as [k Hk]; [intros b' Hb'; apply H; by right|].
  exists (a :: k). by constructor.
Qed.

Section RoundTrip.

Variable FormatFloat : float64 → string.

Lemma round_trips_encodable (n : nat) : ∀ v,
  value_size v < n → round_trips FormatFloat v = true → encodable v = true.
Proof.
  induction n as [|n IH]; intros v Hn Hv; [lia|].
  destruct v as [| b |f|s|l|m]; cbn [encodable round_trips] in *; try done.
  - by apply andb_true_iff in Hv as [-> _].
  - rewrite forallb_forall in *. intros x Hx. apply IH; [|by apply Hv].
    pose proof (EncoderFacts.value_size_elem l x (proj2 (list_elem_of_In _ _) Hx)). lia.
  - rewrite all_of_entries in Hv. apply EncoderFacts.all_of_map. intros k x Hk.
    specialize (Hv k x Hk). apply andb_true_iff in Hv as [_ Hv]. apply IH; [|done].
    pose proof (EncoderFacts.value_size_lookup m k x Hk). lia.
Qed.

(** The text of a value starts with a byte that is no white space and
    closes nothing. *)
Lemma encode_head (v : value) (text : string) :
  encode FormatFloat v = Some text → round_trips FormatFloat v = true →
  ∃ c r, text = String c r ∧ is_space c = false ∧ code c ≠ 93%N.
Proof.
  intros He Hv. destruct v as [| [] |f|s|l|m]; cbn [encode round_trips] in *.
  - injection He as <-. by eexists _, _.
  - injection He as <-. by eexists _, _.
  - injection He as <-. by eexists _, _.
  - apply andb_true_iff in Hv as [Hf Hv]. rewrite Hf in He. injection He as <-.
    apply bool_decide_eq_true in Hv as [Hs _].
    destruct (scan_number_delimited EmptyString _ _ I Hs) as (_ & c & s' & -> & Hc).
    destruct (number_head c Hc) as [Hsp Hc']. exists c, s'. split_and!; [done|done|lia].
  - injection He as <-. rewrite <- (append_empty_r (quote s)), quote_text. by eexists _, _.
  - apply fmap_Some in He as (es & _ & ->). by eexists _, _.
  - apply fmap_Some in He as (es & _ & ->). by eexists _, _.
Qed.

(** The entries of a map in the order the encoder writes them. *)
Lemma encoded_members (m : gmap string value) (kvs0 : list (string * string)) :
  mapM (λ kv : string * option string, (λ t, (kv.1, t)) <$> kv.2)
       (map_to_list (encode FormatFloat <$> m)) = Some kvs0 →
  ∃ kvs : list (string * value),
    Forall2 (λ kv t, t.1 = kv.1 ∧ encode FormatFloat kv.2 = Some t.2)
            kvs (merge_sort key_le kvs0) ∧
    (∀ kv, kv ∈ kvs → m !! kv.1 = Some kv.2) ∧
    (∀ k, is_Some (m !! k) → k ∈ kvs.*1).
Proof.
  intros Hm. apply mapM_Some_1 in Hm.
  assert (Hmem : ∀ t, t ∈ kvs0 → ∃ kv : string * value,
            (t.1 = kv.1 ∧ encode FormatFloat kv.2 = Some t.2) ∧ m !! kv.1 = Some kv.2).
  { intros t Ht. apply list_elem_of_lookup in Ht as [i Hi].
    destruct (Forall2_lookup_r _ _ _ _ _ Hm Hi) as ([k o] & Hx & Hg).
    cbn [fst snd] in Hg. apply fmap_Some in Hg as (t2 & -> & ->).
    apply list_elem_of_lookup_2, elem_of_map_to_list in Hx.
    rewrite lookup_fmap in Hx. destruct (m !! k) as [v|] eqn:Hk; [|done].
    injection Hx as Hx. by exists (k, v). }
  assert (Hkeys : ∀ k, is_Some (m !! k) → ∃ t, t ∈ kvs0 ∧ t.1 = k).
  { intros k [v Hk].
    assert ((k, encode FormatFloat v) ∈ map_to_list (encode FormatFloat <$> m)) as Hx.
    { apply elem_of_map_to_list. by rewrite lookup_fmap, Hk. }
    apply list_elem_of_lookup in Hx as [i Hi].
    destruct (Forall2_lookup_l _ _ _ _ _ Hm Hi) as (t & Ht & Hg).
    cbn [fst snd] in Hg. apply fmap_Some in Hg as (t2 & _ & ->).
    exists (k, t2). split; [by apply list_elem_of_lookup_2 in Ht|done]. }
  pose proof (merge_sort_Permutation key_le kvs0) as Hp.
  destruct (choose_list (λ (kv : string * value) (t : string * string),
              (t.1 = kv.1 ∧ encode FormatFloat kv.2 = Some t.2) ∧ m !! kv.1 = Some kv.2)
              (merge_sort key_le kvs0)) as [kvs Hkvs].
  { intros t Ht. apply Hmem. by rewrite <- Hp. }
  exists kvs. split_and!.
  - eapply Forall2_impl; [exact Hkvs|]. by intros kv t [H _].
  - intros kv Hkv. apply list_elem_of_lookup in Hkv as [i Hi].
    by destruct (Forall2_lookup_l _ _ _ _ _ Hkvs Hi) as (t & _ & _ & H).
  - intros k Hk. destruct (Hkeys k Hk) as (t & Ht & <-).
    rewrite <- Hp in Ht. apply list_elem_of_lookup in Ht as [i Hi].
    destruct (Forall2_lookup_r _ _ _ _ _ Hkvs Hi) as (kv & Hkv & [-> _] & _).
    apply list_elem_of_fmap. exists kv. split; [done|]. by apply list_elem_of_lookup_2 in Hkv.
Qed.

Section Step.

Variable f : nat.
Hypothesis IHv : reads_value FormatFloat f.
Hypothesis IHe : reads_elements FormatFloat f.
Hypothesis IHm : reads_members FormatFloat f.

Lemma reads_elements_step : reads_elements FormatFloat (S f).
Proof.
  intros l es d X Hl Hne Hall Hf.
  destruct Hl as [|x e l' es' He Hl']; [done|].
  apply Forall_cons in Hall as [[Hx Hdx] Hall].
  rewrite join_cons, append_assoc in Hf |- *.
  destruct es' as [|e2 es''].
  - apply Forall2_nil_inv_r in Hl' as ->.
    rewrite append_nil_l, append_char in Hf |- *.
    destruct (IHv x e d (String "]"%char X) He Hx Hdx) as (j & Hj & Hjx).
    { right. by left. }
    { by apply parse_elements_in_fuel. }
    rewrite (parse_elements_last _ _ _ _ _ Hj).
    exists [j]. split; [done|]. by constructor.
  - rewrite append_assoc, append_char in Hf |- *.
    destruct (IHv x e d (String ","%char (join "," (e2 :: es'') +:+ "]" +:+ X)) He Hx Hdx)
      as (j & Hj & Hjx).
    { by left. }
    { by apply parse_elements_in_fuel. }
    rewrite (parse_elements_more _ _ _ _ _ Hj) in Hf |- *.
    destruct (IHe l' (e2 :: es'') d X Hl') as (js & Hjs & Hjl).
    { intros ->. by apply Forall2_nil_inv_l in Hl'. }
    { done. }
    { intros E. rewrite E in Hf. by apply Hf. }
    rewrite Hjs. exists (j :: js). split; [done|]. by constructor.
Qed.

Lemma reads_members_step : reads_members FormatFloat (S f).
Proof.
  intros kvs ts d X HF Hne Hall Hf.
  destruct HF as [|kv t kvs' ts' [Hk He] HF']; [done|].
  apply Forall_cons in Hall as [(Hvk & Hx & Hdx) Hall].
  rewrite fmap_cons, join_cons, append_assoc in Hf |- *. cbv beta in Hf |- *.
  rewrite member_text, Hk in Hf |- *.
  destruct ts' as [|t2 ts''].
  - apply Forall2_nil_inv_r in HF' as ->.
    rewrite fmap_nil, append_nil_l, append_char in Hf |- *.
    destruct (IHv kv.2 t.2 d (String "}"%char X) He Hx Hdx) as (j & Hj & Hjx).
    { right. by right. }
    { by apply parse_members_in_fuel in Hf. }
    rewrite (parse_members_last _ _ _ _ _ _ Hvk Hj).
    exists [(kv.1, j)]. split; [done|]. intros acc.
    cbn [decode_members foldl]. by rewrite Hjx.
  - rewrite fmap_cons, append_assoc, append_char in Hf |- *.
    change ((quote t2.1 +:+ ":" +:+ t2.2)
            :: ((λ kv : string * string, quote kv.1 +:+ ":" +:+ kv.2) <$> ts''))
      with ((λ kv : string * string, quote kv.1 +:+ ":" +:+ kv.2) <$> t2 :: ts'')
      in Hf |- *.
    destruct (IHv kv.2 t.2 d
                (String ","%char
                   (join "," ((λ kv : string * string, quote kv.1 +:+ ":" +:+ kv.2)
                              <$> t2 :: ts'') +:+ "}" +:+ X)) He Hx Hdx)
      as (j & Hj & Hjx).
    { by left. }
    { by apply parse_members_in_fuel in Hf. }
    rewrite (parse_members_more _ _ _ _ _ _ Hvk Hj) in Hf |- *.
    destruct (IHm kvs' (t2 :: ts'') d X HF') as (ms & Hms & Hdec).
    { intros ->. by apply Forall2_nil_inv_l in HF'. }
    { done. }
    { intros E. rewrite E in Hf. by apply Hf. }
    rewrite Hms. exists ((kv.1, j) :: ms). split; [done|]. intros acc.
    cbn [decode_members foldl]. by rewrite Hjx, Hdec.
Qed.

Lemma reads_value_step : reads_value FormatFloat (S f).
Proof.
  intros v text d X He Hv Hd HX Hf.
  destruct v as [| b |fl|s|l|m].
  - injection He as <-. by exists JNull.
  - exists (JBool b). destruct b; by injection He as <-.
  - cbn [encode round_trips] in *.
    apply andb_true_iff in Hv as [Hfin Hv]. rewrite Hfin in He. injection He as <-.
    apply bool_decide_eq_true in Hv as [Hs Hp].
    destruct (scan_number_delimited X _ _ HX Hs) as (Hscan & c & s' & Hlit & Hc).
    exists (JNumber (FormatFloat fl)). split; [|by cbn [to_value]; rewrite Hp].
    revert Hscan. rewrite Hlit, append_cons. intros Hscan.
    by rewrite parse_value_number, Hscan.
  - injection He as <-. exists (JString s). split; [|done].
    rewrite quote_text, parse_value_string, unquote_escape; [done|done|].
    apply unquote_fuel. lia.
  - cbn [encode] in He. apply fmap_Some in He as (es & Hes & ->).
    apply mapM_Some_1 in Hes.
    assert (Hd' : (d < maxNestingDepth)%N) by (cbn [depth] in Hd; lia).
    rewrite !append_assoc, append_char in Hf |- *.
    destruct l as [|x l].
    { apply Forall2_nil_inv_l in Hes as ->.
      exists (JArray []). split; [|done].
      cbn [join]. rewrite append_nil_l, append_char. by apply parse_value_empty_array. }
    assert (∃ c r, join "," es +:+ "]" +:+ X = String c r ∧
                   is_space c = false ∧ code c ≠ 93%N) as (c & r & Hb & Hsp & Hc).
    { destruct (Forall2_cons_inv_l _ _ _ _ Hes) as (e & es' & Hx' & _ & ->).
      cbn [round_trips forallb] in Hv. apply andb_true_iff in Hv as [Hv _].
      destruct (encode_head _ _ Hx' Hv) as (c & r & -> & Hsp & Hc).
      rewrite join_cons, append_assoc, append_cons. by eexists _, _. }
    rewrite Hb, parse_value_array in Hf |- * by done. rewrite <- Hb in Hf |- *.
    destruct (IHe (x :: l) es (d + 1)%N X Hes) as (js & Hjs & Hjl).
    { done. }
    { apply Forall_forall. intros y Hy. split.
      - cbn [round_trips] in Hv. rewrite forallb_forall in Hv.
        apply Hv. by apply list_elem_of_In.
      - pose proof (depth_elem _ _ Hy). lia. }
    { intros E. rewrite E in Hf. by apply Hf. }
    rewrite Hjs. exists (JArray js). split; [done|].
    cbn [to_value]. apply mapM_Some_2 in Hjl. by rewrite Hjl.
  - cbn [encode] in He. apply fmap_Some in He as (kvs0 & Hm & ->).
    destruct (encoded_members m kvs0 Hm) as (kvs & HF & Hin & Hkeys).
    pose proof (foldl_insert_all kvs m Hin Hkeys) as Hfold.
    assert (Hd' : (d < maxNestingDepth)%N) by (cbn [depth] in Hd; lia).
    rewrite !append_assoc, append_char in Hf |- *.
    destruct HF as [|kv t kvs' ts' Ht HF'].
    { exists (JObject []). split; [|by cbn in *; rewrite <- Hfold].
      rewrite fmap_nil. cbn [join]. rewrite append_nil_l, append_char.
      by apply parse_value_empty_object. }
    destruct (IHm (kv :: kvs') (t :: ts') (d + 1)%N X) as (ms & Hms & Hdec).
    { by constructor. }
    { done. }
    { apply Forall_forall. intros kv' Hkv'. specialize (Hin kv' Hkv').
      cbn [round_trips] in Hv. rewrite all_of_entries in Hv.
      specialize (Hv _ _ Hin). apply andb_true_iff in Hv as [Hv1 Hv2].
      split_and!; [done|done|]. pose proof (depth_lookup _ _ _ Hin). lia. }
    { revert Hf. rewrite fmap_cons, join_cons, append_assoc. cbv beta.
      rewrite member_text, parse_value_object by done.
      intros Hf E. rewrite E in Hf. by apply Hf. }
    exists (JObject ms). split; [|by cbn [to_value]; rewrite Hdec, Hfold].
    revert Hms. rewrite fmap_cons, join_cons, append_assoc. cbv beta.
    rewrite member_text, parse_value_object by done. by intros ->.
Qed.

End Step.

(** The parser reads the text of the encoder back, whatever counter it is
    given that it does not exhaust. *)
Lemma reads_all (f : nat) :
  reads_value FormatFloat f ∧ reads_elements FormatFloat f ∧ reads_members FormatFloat f.
Proof.
  induction f as [|f (IHv & IHe & IHm)].
  - split_and!.
    + by intros v text d X _ _ _ _ Hf.
    + by intros l es d X _ _ _ Hf.
    + by intros kvs ts d X _ _ _ Hf.
  - split_and!.
    + by apply reads_value_step.
    + by apply reads_elements_step.
    + by apply reads_members_step.
Qed.

End RoundTrip.




End RoundTripFacts.

(** ** The properties at the examples *)

Module Instances.

Import Client Options Verbs Timing Names Breaker.
Import RetryFacts BuilderFacts RequestFacts VerbFacts ContextFacts MergeFacts NameFacts
  ErrorFacts BreakerFacts ExactFacts.

Lemma waits_between_attempts_witness :
  retry Examples.retrying = Some defaultRetry ∧
  waited (executeWithRetry (world := Examples.always_500) Examples.retrying
            Examples.get_users_request no_Log).2 = [0; 200 * Millisecond].
Proof.
  split; [reflexivity|].
  destruct (waits_between_attempts (world := Examples.always_500) Examples.retrying
              Examples.get_users_request defaultRetry no_Log eq_refl) as (H & _).
  rewrite H. vm_compute. reflexivity.
Defined.

Lemma final_answer_is_not_retried_witness :
  let out := executeWithRetry (world := MoreExamples.not_found) Examples.retrying
               Examples.get_users_request no_Log in
  out.1 = Ok MoreExamples.answer_404 ∧ dispatched out.2 = 1%nat ∧ waited out.2 = [].
Proof.
  destruct (final_answer_is_not_retried (world := MoreExamples.not_found) Examples.retrying
              Examples.get_users_request defaultRetry MoreExamples.answer_404 no_Log)
    as (H1 & H2 & H3 & _).
  - reflexivity.
  - vm_compute. discriminate.
  - reflexivity.
  - reflexivity.
  - discriminate.
  - discriminate.
  - split; [exact H1|]. split; [exact H2 | exact H3].
Defined.

Lemma no_attempt_without_max_attempts_witness :
  retry MoreExamples.no_attempts <> None ∧
  Request (world := Examples.always_200) Examples.store0 MoreExamples.no_attempts
    Examples.get_users no_Log
  = (Err (Errorf "max retries exceeded" None), no_Log).
Proof.
  split; [discriminate|].
  apply (no_attempt_without_max_attempts (world := Examples.always_200) Examples.store0
           MoreExamples.no_attempts Examples.get_users
           {| MaxAttempts := 0;
              InitialBackoff := 100 * Millisecond;
              MaxBackoff := 5 * Second;
              BackoffFactor := two |} Examples.get_users_request no_Log).
  - reflexivity.
  - vm_compute. discriminate.
  - reflexivity.
Defined.

Lemma open_breaker_is_retried_witness :
  let out := executeWithRetry (world := MoreExamples.breaker_open) MoreExamples.guarded
               Examples.get_users_request no_Log in
  round_trips out.2 = 0%nat ∧
  dispatched out.2 = 3%nat ∧
  out.1 = Err (Errorf "max retries exceeded"
                 (Some (Errorf "circuit breaker"
                          (Some (ErrLibrary "circuit breaker is open"))))).
Proof.
  destruct (open_breaker_is_retried (world := MoreExamples.breaker_open) MoreExamples.guarded
              Examples.get_users_request defaultRetry MoreExamples.guarded_breaker
              (λ _, ErrLibrary "circuit breaker is open"))
    as (H1 & H2 & _ & H4).
  - reflexivity.
  - reflexivity.
  - vm_compute. discriminate.
  - intros n. reflexivity.
  - intros n _. reflexivity.
  - split; [exact H1|]. split; [exact H2 | exact H4].
Defined.


Lemma query_parameters_witness :
  ∃ req q,
    createRequest (lib := Examples.platform) Examples.store0 Examples.plain MoreExamples.get_page
      = Ok req ∧
    req_RawQuery req = Some (@Values_Encode Examples.platform q) ∧
    q !! "page" = Some ["2"].
Proof.
  eexists.
  destruct (query_parameters (lib := Examples.platform) Examples.store0 Examples.plain
              MoreExamples.get_page _ (λ m, reflexivity _) eq_refl) as [_ H].
  destruct H as (q & Hq & Hk).
  - apply insert_non_empty.
  - exists q. split; [reflexivity|]. split; [exact Hq|]. rewrite Hk. reflexivity.
Defined.

Lemma default_client_sends_once_witness :
  let rc := (NewDefaultRESTClient ∅).1 in
  let σ := (NewDefaultRESTClient ∅).2 in
  let out := Request (lib := Examples.platform) (world := Examples.always_200) σ rc
               (new_request Client.GET "http://api/users" None) no_Log in
  dispatched out.2 = 1%nat ∧ round_trips out.2 = 1%nat ∧ waited out.2 = [].
Proof.
  cbv zeta.
  destruct (default_client_sends_once (lib := Examples.platform) (world := Examples.always_200)
              ∅ (new_request Client.GET "http://api/users" None) _ no_Log eq_refl)
    as (_ & _ & H1 & H2 & H3 & _).
  split; [exact H1|]. split; [exact H2 | exact H3].
Defined.

Lemma production_client_calls_witness :
  let rc := (NewProductionRESTClient "http://api/" ∅).1 in
  let σ := (NewProductionRESTClient "http://api/" ∅).2 in
  let config := new_request (lib := Examples.platform) Client.GET "/users" None in
  baseURL rc = "http://api" ∧
  (dispatched (Request (world := Examples.always_500) σ rc config no_Log).2 ≤ 3)%nat ∧
  Header_Get (merged_headers σ rc config) "User-Agent" = "core-rest-client/1.0".
Proof.
  cbv zeta.
  destruct (production_client_calls (lib := Examples.platform) (world := Examples.always_500)
              "http://api/" ∅ (new_request Client.GET "/users" None) _ eq_refl)
    as (H1 & _ & _ & _ & _ & _ & H7).
  split; [reflexivity|]. split; [exact H1|].
  apply H7.
  - intros m. reflexivity.
  - intros k [v Hk]. vm_compute in Hk. discriminate Hk.
Defined.

Lemma logger_round_trip_witness :
  Logger.FromContext Examples.global_logger
    (Some (Logger.WithValue MoreExamples.ctx_with_logger Logger.RequestID
             (Logger.AnyString "req-456")))
  = Some Examples.request_logger.
Proof.
  apply (logger_round_trip Examples.global_logger Examples.ctx_with_id
           (Some Examples.request_logger)
           [(Logger.RequestID, Logger.AnyString "req-456")]).
  apply Forall_cons. split; [discriminate | apply Forall_nil_2].
Defined.

Lemma MergeJSON_commutes_on_disjoint_keys_witness :
  Helpers.MergeJSON Examples.FormatFloat_integral
    [Examples.js "{'z':0}"; Examples.js "{'a':1}"; Examples.js "{'b':2}"]
  = Helpers.MergeJSON Examples.FormatFloat_integral
      [Examples.js "{'z':0}"; Examples.js "{'b':2}"; Examples.js "{'a':1}"].
Proof.
  apply (MergeJSON_commutes_on_disjoint_keys Examples.FormatFloat_integral
           [Examples.js "{'z':0}"] [] (Examples.js "{'a':1}") (Examples.js "{'b':2}")
           {[ "a" := Helpers.VFloat (of_int 1) ]} {[ "b" := Helpers.VFloat (of_int 2) ]}).
  - vm_compute. reflexivity.
  - vm_compute. reflexivity.
  - apply map_disjoint_singleton_l. reflexivity.
Defined.

Lemma MergeJSON_first_failure_witness :
  Helpers.MergeJSON Examples.FormatFloat_integral
    [Examples.js "{'a':1}"; Examples.js "{invalid}"; Examples.js "[1]"]
  = Err (ErrText "invalid JSON data") ∧
  Helpers.MergeJSON Examples.FormatFloat_integral
    [Examples.js "{'a':1}"; Examples.js "[1]"; Examples.js "{invalid}"]
  = Err (Errorf "failed to unmarshal JSON object"
           (Some (ErrLibrary
                    "json: cannot unmarshal into Go value of type map[string]interface {}"))).
Proof.
  assert (Forall2 (λ data obj, Helpers.json_Unmarshal_map data = Ok obj)
            [Examples.js "{'a':1}"] [{[ "a" := Helpers.VFloat (of_int 1) ]}]) as Hgood.
  { apply Forall2_cons. split; [vm_compute; reflexivity | apply Forall2_nil_2]. }
  split.
  - destruct (MergeJSON_first_failure Examples.FormatFloat_integral
                [Examples.js "{'a':1}"] [Examples.js "[1]"] (Examples.js "{invalid}") _ Hgood)
      as [H _].
    apply H. vm_compute. reflexivity.
  - destruct (MergeJSON_first_failure Examples.FormatFloat_integral
                [Examples.js "{'a':1}"] [Examples.js "{invalid}"] (Examples.js "[1]") _ Hgood)
      as [_ H].
    apply H; vm_compute; reflexivity.
Defined.

Lemma header_names_ignore_case_witness :
  Header_Get (merged_headers (lib := Examples.platform) MoreExamples.accept_store Examples.plain
                MoreExamples.get_json) "ACCEPT" = "application/json".
Proof.
  apply (header_names_ignore_case (lib := Examples.platform) MoreExamples.accept_store
           Examples.plain MoreExamples.get_json "ACCEPT" "Accept" "application/json").
  - intros m. reflexivity.
  - reflexivity.
  - reflexivity.
  - reflexivity.
Defined.

Lemma errors_of_a_retrying_call_witness :
  (Request (world := Examples.always_500) Examples.store0 Examples.retrying
     Examples.get_users no_Log).1
  = Err (Errorf "max retries exceeded" (Some (ErrHTTP 500))).
Proof.
  destruct (errors_of_a_retrying_call (world := Examples.always_500) Examples.store0
              Examples.retrying Examples.get_users defaultRetry Examples.get_users_request
              no_Log (Errorf "max retries exceeded" (Some (ErrHTTP 500)))
              eq_refl eq_refl eq_refl) as [[c Hc]|H].
  - discriminate Hc.
  - reflexivity.
Defined.

Lemma default_breaker_needs_failures_witness :
  defaultReadyToTrip (counts_of 5 3) = true ∧
  3 ≤ Requests (counts_of 5 3) ∧ TotalFailures (counts_of 5 3) ≠ 0.
Proof.
  assert (defaultReadyToTrip (counts_of 5 3) = true) as H by (vm_compute; reflexivity).
  split; [exact H|]. exact (default_breaker_needs_failures (counts_of 5 3) H).
Defined.

Lemma default_breaker_threshold_witness :
  defaultReadyToTrip (counts_of 5 3) = true ∧ defaultReadyToTrip (counts_of 5 2) = false.
Proof.
  split.
  - apply (default_breaker_threshold 5 3); lia.
  - apply not_true_iff_false. intros H.
    apply (default_breaker_threshold 5 2) in H; lia.
Defined.

Lemma calculateBackoff_exactly_linear_witness :
  calculateBackoff (lib := Examples.platform) Examples.retrying 3 = 400 * Millisecond ∧
  calculateBackoff (lib := Examples.platform) Examples.retrying 1000 = 5 * Second.
Proof.
  split.
  - rewrite (calculateBackoff_exactly_linear (lib := Examples.platform)
               Examples.retrying defaultRetry 2 3);
      [reflexivity | reflexivity | reflexivity | ..];
      unfold defaultRetry, Millisecond, Second; cbn [InitialBackoff]; lia.
  - rewrite (calculateBackoff_exactly_linear (lib := Examples.platform)
               Examples.retrying defaultRetry 2 1000);
      [reflexivity | reflexivity | reflexivity | ..];
      unfold defaultRetry, Millisecond, Second; cbn [InitialBackoff]; lia.
Defined.

End Instances.
